(** * minio-cpp [utils.cc]: the header/query Multimap and the part planner

    A shallow embedding of [minio::utils::Multimap] and
    [minio::utils::CalcPartInfo] from [src/utils.cc], and the properties of
    the specification settled against it.

    Modelling conventions.
    - [std::string] is [string]: a sequence of bytes ([ascii]), compared
      byte-wise as unsigned values, the way [std::string::operator<] does.
    - [std::map<std::string, T>] is coqutil's [SortedListString.map T]: a
      list of bindings kept strictly ascending by key, so every inhabitant
      is a well-formed [std::map], and range-for iteration is [map.tuples]
      (ascending key order).  [std::set<std::string>] is the same container
      with [unit] values.
    - [long] and [size_t] are 64-bit (LP64); they are [Z] with the
      conversions between them written out.
    - [double] is IEEE-754 binary64, [spec_float] with [prec = 53] and
      [emax = 1024]: the division is [SFdiv], the conversion from an
      integer is [binary_normalize] (round to nearest, ties to even). *)

From Stdlib Require Import ZArith Lia List Bool Ascii String.
From Stdlib Require Import Sorting.Permutation Sorting.Sorted.
From Stdlib Require Import Numbers.DecimalString.
From Stdlib Require Import Floats.SpecFloat.
From coqutil Require Import Map.Interface Map.Properties.
From coqutil Require Import Map.SortedList Map.SortedListString.
From coqutil Require Datatypes.String.
Import ListNotations.

#[local] Existing Instance SortedListString.ok.

Local Open Scope string_scope.

(** ** Strings *)

Module Str.

(** Byte-wise strict order of [std::string]. *)
Definition ltb : string -> string -> bool := coqutil.Datatypes.String.ltb.
Definition eqb : string -> string -> bool := Stdlib.Strings.String.eqb.

(** [::tolower] in the "C" locale: only [A]..[Z] change. *)
Definition tolower (c : ascii) : ascii :=
  let n := nat_of_ascii c in
  if (65 <=? n)%nat && (n <=? 90)%nat then ascii_of_nat (n + 32) else c.

(** [minio::utils::ToLower]: [std::transform] with [::tolower]. *)
Fixpoint ToLower (str : string) : string :=
  match str with
  | EmptyString => EmptyString
  | String c s => String (tolower c) (ToLower s)
  end.

Definition space : ascii := " "%char.
Definition newline : string := String (ascii_of_nat 10) EmptyString.

(** [std::regex_replace(v, MULTI_SPACE_REGEX, " ")] with
    [MULTI_SPACE_REGEX = "( +)"]: every maximal run of one or more
    spaces is replaced by one space.  [in_run] tells that the previous
    byte was a space of the run being replaced. *)
Fixpoint replace_spaces (in_run : bool) (v : string) : string :=
  match v with
  | EmptyString => EmptyString
  | String c s =>
      if Ascii.eqb c space
      then if in_run then replace_spaces true s
           else String space (replace_spaces true s)
      else String c (replace_spaces false s)
  end.

Definition regex_replace_multi_space (v : string) : string :=
  replace_spaces false v.

Definition is_empty (s : string) : bool :=
  match s with EmptyString => true | _ => false end.

(** [minio::utils::Join]: the delimiter is added only when the result
    built so far is not empty. *)
Definition Join (values : list string) (delimiter : string) : string :=
  fold_left
    (fun result value =>
       (if is_empty result then result else result ++ delimiter) ++ value)
    values "".

(** [std::sort] on a [std::vector<std::string>]: the ascending
    arrangement under [operator<]. *)
Fixpoint sort_insert (x : string) (l : list string) : list string :=
  match l with
  | [] => [x]
  | y :: l' => if ltb y x then y :: sort_insert x l' else x :: l
  end.

Definition sort (l : list string) : list string :=
  fold_right sort_insert [] l.

(** [a] is not after [b] in the order of [std::sort]. *)
Definition le (a b : string) : Prop := ltb b a = false.

(** [std::find(first, last, key) != last]. *)
Definition find (l : list string) (key : string) : bool :=
  existsb (eqb key) l.

(** Two keys that differ at most in the case of their ASCII letters. *)
Definition same_letter (c d : ascii) : bool :=
  Ascii.eqb c d
  || (let n := nat_of_ascii c in
      let k := nat_of_ascii d in
      ((65 <=? n)%nat && (n <=? 90)%nat && (k =? n + 32)%nat)
      || ((65 <=? k)%nat && (k <=? 90)%nat && (n =? k + 32)%nat)).

Fixpoint differ_only_in_case (s t : string) : bool :=
  match s, t with
  | EmptyString, EmptyString => true
  | String c s', String d t' => same_letter c d && differ_only_in_case s' t'
  | _, _ => false
  end.

End Str.

(** ** The string helpers of utils.cc *)

Module Utils.

(** The value of a [char] as the comparisons of [Printable] see it: the
    byte, read as signed.  (Read as unsigned, the bytes from 128 on are
    above 126 instead of below 33: the test below answers the same.) *)
Definition char_value (ch : ascii) : Z :=
  let n := Z.of_nat (nat_of_ascii ch) in
  (if n <? 128 then n else n - 256)%Z.

(** One digit of [std::hex] output. *)
Definition hex_digit (d : nat) : ascii :=
  if (d <? 10)%nat then ascii_of_nat (48 + d) else ascii_of_nat (87 + d).

(** [std::hex << std::setfill('0') << std::setw(2) << (ch & 0xff)]: the
    byte on two hexadecimal digits. *)
Definition hex2 (ch : ascii) : string :=
  let n := nat_of_ascii ch in
  String (hex_digit (n / 16)) (String (hex_digit (n mod 16)) EmptyString).

(** [minio::utils::Printable]. *)
Fixpoint Printable (s : string) : string :=
  match s with
  | EmptyString => EmptyString
  | String ch s' =>
      (if (char_value ch <? 33)%Z || (char_value ch >? 126)%Z
       then "\x" ++ hex2 ch
       else String ch EmptyString) ++ Printable s'
  end.

(** Every byte of the string passes the test. *)
Fixpoint all_bytes (p : ascii -> bool) (s : string) : bool :=
  match s with
  | EmptyString => true
  | String c s' => p c && all_bytes p s'
  end.

(** The bytes [Printable] leaves as they are: 33 to 126. *)
Definition printable_byte (c : ascii) : bool :=
  (33 <=? nat_of_ascii c)%nat && (nat_of_ascii c <=? 126)%nat.

(** A list of strings without the empty strings it begins with. *)
Fixpoint drop_leading_empty (values : list string) : list string :=
  match values with
  | EmptyString :: values' => drop_leading_empty values'
  | _ => values
  end.

(** [data[i]] as an [unsigned char]. *)
Definition byte_at (i : nat) (str : string) : option Z :=
  option_map (fun c => Z.of_nat (nat_of_ascii c)) (get i str).


(** [minio::utils::StringToBool]; [None] is [std::terminate]. *)
Definition StringToBool (str : string) : option bool :=
  let s := Str.ToLower str in
  if Str.eqb s "false" then Some false
  else if Str.eqb s "true" then Some true
  else None.

(** [n] times the byte [ch]. *)
Fixpoint repeat_char (ch : ascii) (n : nat) : string :=
  match n with
  | O => EmptyString
  | S n' => String ch (repeat_char ch n')
  end.

(** The first byte of a string. *)
Definition first_char (s : string) : option ascii := get 0 s.

(** The first loop of [Trim]: [start], the number of leading [ch]. *)
Fixpoint trim_start (str : string) (ch : ascii) : nat :=
  match str with
  | EmptyString => 0
  | String c s => if Ascii.eqb c ch then S (trim_start s ch) else 0
  end.

(** The second loop of [Trim]: [len] goes down while
    [str[start + len - 1] == ch]. *)
Fixpoint trim_len (str : string) (ch : ascii) (start len : nat) : nat :=
  match len with
  | O => O
  | S l =>
      match get (start + l) str with
      | Some c => if Ascii.eqb c ch then trim_len str ch start l else len
      | None => len
      end
  end.

(** [minio::utils::Trim] (on strings shorter than [2^31] bytes, the
    indices being [int]). *)
Definition Trim (str : string) (ch : ascii) : string :=
  let start := trim_start str ch in
  let len := trim_len str ch start (length str - start) in
  substring start len str.

(** [minio::utils::StartsWith]. *)
Definition StartsWith (str prefix : string) : bool :=
  (length prefix <=? length str)%nat
  && Str.eqb (substring 0 (length prefix) str) prefix.

(** [minio::utils::EndsWith]. *)
Definition EndsWith (str suffix : string) : bool :=
  (length suffix <=? length str)%nat
  && Str.eqb (substring (length str - length suffix) (length suffix) str)
       suffix.

(** [str.find(ch) != npos]: [minio::utils::Contains] on a character. *)
Fixpoint ContainsChar (str : string) (ch : ascii) : bool :=
  match str with
  | EmptyString => false
  | String c s => Ascii.eqb c ch || ContainsChar s ch
  end.

(** [str.find(substr) != npos]: [minio::utils::Contains] on a string;
    there is an occurrence at the first position or further on. *)
Fixpoint ContainsStr (str substr : string) : bool :=
  Str.eqb (substring 0 (length substr) str) substr
  || match str with
     | EmptyString => false
     | String _ s => ContainsStr s substr
     end.

(** The tokens the calls of [std::getline(str_stream, token, '/')] give:
    the pieces between the slashes, without a last empty piece. *)
Fixpoint getline_tokens (path token : string) : list string :=
  match path with
  | EmptyString => if Str.is_empty token then [] else [token]
  | String c s =>
      if Ascii.eqb c "/"%char then token :: getline_tokens s EmptyString
      else getline_tokens s (token ++ String c EmptyString)
  end.

(** The last byte of a string. *)
Fixpoint last_char (s : string) : option ascii :=
  match s with
  | EmptyString => None
  | String c EmptyString => Some c
  | String _ s' => last_char s'
  end.

(** [*(path.begin()) == '/'] and [*(path.end() - 1) == '/'], on a path
    that is not empty. *)
Definition begins_with_slash (path : string) : bool :=
  match first_char path with
  | Some c => Ascii.eqb c "/"%char
  | None => false
  end.

Definition ends_with_slash (path : string) : bool :=
  match last_char path with
  | Some c => Ascii.eqb c "/"%char
  | None => false
  end.

Section WithCollaborators.

(** [curlpp::escape], the percent-encoding of libcurl, is outside the
    sources. *)
Variable escape : string -> string.

(** The default of the second parameter of [Trim], given in utils.h, which
    is not among the sources. *)
Variable default_ch : ascii.

(** One turn of the loop of [EncodePath] over the tokens. *)
Definition encode_step (out token : string) : string :=
  if Str.is_empty token then out
  else (if Str.is_empty out then out else out ++ "/") ++ escape token.

(** [minio::utils::EncodePath].  On an empty path the function looks at
    [*(path.end() - 1)], before the beginning: no result. *)
Definition EncodePath (path : string) : option string :=
  if Str.is_empty path then None
  else
    let out := fold_left encode_step (getline_tokens path EmptyString)
                 EmptyString in
    let out := if begins_with_slash path then "/" ++ out else out in
    let out :=
      if ends_with_slash path && negb (Str.eqb out "/") then out ++ "/"
      else out in
    Some out.

(** [minio::utils::CheckNonEmptyString]. *)
Definition CheckNonEmptyString (str : string) : bool :=
  negb (Str.is_empty str) && Str.eqb (Trim str default_ch) str.

End WithCollaborators.

End Utils.

(** ** The Multimap *)

Module Multimap.

(** [std::set<std::string>]. *)
Definition string_set : Type := SortedListString.map unit.

Definition set_empty : string_set := map.empty.
Definition set_insert (s : string_set) (v : string) : string_set :=
  map.put s v tt.
(** Iteration over a set, ascending. *)
Definition elements (s : string_set) : list string := map.keys s.
Definition set_insert_all (s : string_set) (vs : list string) : string_set :=
  fold_left set_insert vs s.

(** Modelled from the spec: the declaration of the class (utils.h) is not
    among the sources.  Section 3 gives its two members: [entries], from
    an original-case key to the set of its values ([map_] in utils.cc),
    and [key_index], from a lower-cased key to the set of original-case
    spellings ([keys_] in utils.cc), both ordered containers. *)
Record t : Type := Build {
  map_ : SortedListString.map string_set;
  keys_ : SortedListString.map string_set
}.

Definition empty : t := Build map.empty map.empty.

(** [m[k]] of [std::map]: a reference to the value of [k], after
    inserting an empty value when [k] is absent. *)
Definition index (m : SortedListString.map string_set) (k : string)
  : string_set * SortedListString.map string_set :=
  match map.get m k with
  | Some s => (s, m)
  | None => (set_empty, map.put m k set_empty)
  end.

(** The set [operator[]] reads at [k]: the stored one, or the empty set
    it has just inserted. *)
Definition lookup_set (m : SortedListString.map string_set) (k : string)
  : string_set :=
  match map.get m k with
  | Some s => s
  | None => set_empty
  end.

(** [m[k].insert(v)]. *)
Definition index_insert (m : SortedListString.map string_set)
  (k v : string) : SortedListString.map string_set :=
  let '(s, m') := index m k in map.put m' k (set_insert s v).

(** [m[k].insert(first, last)]. *)
Definition index_insert_all (m : SortedListString.map string_set)
  (k : string) (vs : list string) : SortedListString.map string_set :=
  let '(s, m') := index m k in map.put m' k (set_insert_all s vs).

(** [Multimap::Add]. *)
Definition Add (h : t) (key value : string) : t :=
  Build (index_insert (map_ h) key value)
        (index_insert (keys_ h) (Str.ToLower key) key).

(** [Multimap::AddAll]: iterates over a copy of [headers.map_]. *)
Definition AddAll (h : t) (headers : t) : t :=
  fold_left
    (fun acc '(key, values) =>
       Build (index_insert_all (map_ acc) key (elements values))
             (index_insert (keys_ acc) (Str.ToLower key) key))
    (map.tuples (map_ headers)) h.

(** [Multimap::Contains]: [find], which never inserts. *)
Definition Contains (h : t) (key : string) : bool :=
  match map.get (keys_ h) (Str.ToLower key) with
  | Some _ => true
  | None => false
  end.

(** [Multimap::Get].  The method is not [const]: both look-ups are
    [operator[]], so the result comes with the state left behind. *)
Definition Get (h : t) (key : string) : list string * t :=
  let '(keys, keys') := index (keys_ h) (Str.ToLower key) in
  let '(result, map') :=
    fold_left
      (fun '(result, m) key =>
         let '(values, m') := index m key in
         ((result ++ elements values)%list, m'))
      (elements keys) ([], map_ h) in
  (result, Build map' keys').

(** [Multimap::GetFront]. *)
Definition GetFront (h : t) (key : string) : string * t :=
  let '(values, h') := Get h key in
  (match values with v :: _ => v | [] => "" end, h').

(** [Multimap::Keys]. *)
Definition Keys (h : t) : list string := map.keys (keys_ h).

(** [Multimap::ToHttpHeaders]. *)
Definition ToHttpHeaders (h : t) : list string :=
  flat_map
    (fun '(key, values) =>
       List.map (fun value => key ++ ": " ++ value) (elements values))
    (map.tuples (map_ h)).

Section QueryString.

(** [curlpp::escape], the percent-encoding of libcurl, is outside the
    sources. *)
Variable escape : string -> string.

(** [Multimap::ToQueryString]. *)
Definition ToQueryString (h : t) : string :=
  fold_left
    (fun query_string '(key, values) =>
       fold_left
         (fun query_string value =>
            let s := escape key ++ "=" ++ escape value in
            (if Str.is_empty query_string then query_string
             else query_string ++ "&") ++ s)
         (elements values) query_string)
    (map.tuples (map_ h)) "".

(** [Multimap::GetCanonicalQueryString].  The keys it reads with
    [operator[]] are those of [map_] itself, so nothing is inserted. *)
Definition GetCanonicalQueryString (h : t) : string :=
  let keys := Str.sort (map.keys (map_ h)) in
  let values :=
    flat_map
      (fun key =>
         List.map (fun value => escape key ++ "=" ++ escape value)
           (elements (lookup_set (map_ h) key)))
      keys in
  Str.Join values "&".

End QueryString.

(** The keys [GetCanonicalHeaders] leaves out. *)
Definition excluded (key : string) : Prop :=
  key = "authorization" \/ key = "user-agent".

(** The value of one header line in [GetCanonicalHeaders]: the inner
    loop over [values]. *)
Definition canonical_value (values : string_set) : string :=
  fold_left
    (fun value v =>
       (if Str.is_empty value then value else value ++ ",")
       ++ Str.regex_replace_multi_space v)
    (elements values) "".

(** One turn of the loop of [GetCanonicalHeaders] over [map_]; the state
    is [signed_headerslist] and the local [std::map] named [map]. *)
Definition canonical_step
  (st : list string * SortedListString.map string)
  (kv : string * string_set) : list string * SortedListString.map string :=
  let '(signed_headerslist, map) := st in
  let '(k, values) := kv in
  let key := Str.ToLower k in
  if Str.eqb "authorization" key || Str.eqb "user-agent" key then st
  else
    let signed_headerslist :=
      if Str.find signed_headerslist key then signed_headerslist
      else (signed_headerslist ++ [key])%list in
    (signed_headerslist, map.put map key (canonical_value values)).

Definition canonical_loop (h : t)
  : list string * SortedListString.map string :=
  fold_left canonical_step (map.tuples (map_ h)) ([], map.empty).

(** [signed_headerslist] after [std::sort]. *)
Definition signed_headerslist (h : t) : list string :=
  Str.sort (fst (canonical_loop h)).

(** [canonical_headerslist] after [std::sort]. *)
Definition canonical_headerslist (h : t) : list string :=
  Str.sort
    (List.map (fun '(key, value) => key ++ ":" ++ value)
       (map.tuples (snd (canonical_loop h)))).

(** [Multimap::GetCanonicalHeaders]: the pair
    [(signed_headers, canonical_headers)] of its two out-parameters. *)
Definition GetCanonicalHeaders (h : t) : string * string :=
  (Str.Join (signed_headerslist h) ";",
   Str.Join (canonical_headerslist h) Str.newline).

End Multimap.

(** ** Traces

    Sequences of calls of the operations the class exposes.  Only [Add],
    [AddAll], [Get] and [GetFront] (which calls [Get]) can change the
    state; the other methods iterate over [map_] or search [keys_]
    without inserting. *)

Module Trace.
Import Multimap.

Inductive op : Type :=
| OpAdd (key value : string)
| OpAddAll (headers : Multimap.t)
| OpContains (key : string)
| OpGet (key : string)
| OpGetFront (key : string)
| OpKeys
| OpToHttpHeaders
| OpToQueryString
| OpGetCanonicalHeaders
| OpGetCanonicalQueryString.

Definition exec (h : Multimap.t) (o : op) : Multimap.t :=
  match o with
  | OpAdd key value => Add h key value
  | OpAddAll headers => AddAll h headers
  | OpGet key => snd (Get h key)
  | OpGetFront key => snd (GetFront h key)
  | _ => h
  end.

(** The state after a sequence of calls on a fresh Multimap. *)
Definition run (ops : list op) : Multimap.t := fold_left exec ops empty.

(** [value] is in the set a map gives to [key]. *)
Definition holds (m : SortedListString.map string_set)
  (key value : string) : Prop :=
  exists s, map.get m key = Some s /\ In value (elements s).

(** [value] was added under the spelling [key] by one of the calls. *)
Definition added_by (o : op) (key value : string) : Prop :=
  match o with
  | OpAdd k v => k = key /\ v = value
  | OpAddAll headers => holds (map_ headers) key value
  | _ => False
  end.

Definition added (ops : list op) (key value : string) : Prop :=
  exists o, In o ops /\ added_by o key value.

(** The spelling [key] was given to one of the calls. *)
Definition key_added_by (o : op) (key : string) : Prop :=
  match o with
  | OpAdd k _ => k = key
  | OpAddAll headers => map.get (map_ headers) key <> None
  | _ => False
  end.

Definition key_added (ops : list op) (key : string) : Prop :=
  exists o, In o ops /\ key_added_by o key.

(** The calls other than [Get] and [GetFront]. *)
Definition no_get (o : op) : Prop :=
  match o with
  | OpGet _ | OpGetFront _ => False
  | _ => True
  end.

(** The invariant of section 3 of the specification. *)
Definition invariant (h : Multimap.t) : Prop :=
  (forall lk s, map.get (keys_ h) lk = Some s ->
     elements s <> [] /\
     forall sp, In sp (elements s) -> map.get (map_ h) sp <> None) /\
  (forall key s, map.get (map_ h) key = Some s ->
     holds (keys_ h) (Str.ToLower key) key).

End Trace.

(** ** binary64 *)

Local Open Scope Z_scope.

(** The integer ceiling of [n / d], for [0 < d]. *)
Definition ceil_div (n d : Z) : Z := - ((- n) / d).

Module Double.

Definition prec : Z := 53.
Definition emax : Z := 1024.
Definition double : Type := spec_float.

(** [(double)z] for an integer [z]: round to nearest, ties to even. *)
Definition of_Z (z : Z) : double := binary_normalize prec emax z 0 false.

(** [x / y]. *)
Definition div : double -> double -> double := SFdiv prec emax.

(** [std::ceil]: a finite value with a negative exponent goes up to the
    next integer (which fits the mantissa, so the conversion back is
    exact); everything else is already integral, infinite or NaN. *)
Definition ceil (x : double) : double :=
  match x with
  | S754_finite s m e =>
      if 0 <=? e then x
      else binary_normalize prec emax
             (ceil_div (cond_Zopp s (Zpos m)) (2 ^ (- e))) 0 s
  | _ => x
  end.

(** The integer part of a finite value, truncated toward zero. *)
Definition to_Z (x : double) : Z :=
  match x with
  | S754_finite s m e =>
      cond_Zopp s (if 0 <=? e then Zpos m * 2 ^ e else Zpos m / 2 ^ (- e))
  | _ => 0
  end.

(** [(size_t)x] and [(long)x].  C++ leaves the conversion undefined when
    the truncated value does not fit the type or [x] is not finite; the
    model wraps, respectively gives zero.  [CalcPartInfo] converts only
    integers of [0 .. 2^53) (lemmas [chosen_part_size_exact] and
    [CalcPartInfo_known] below). *)
Definition to_size_t (x : double) : Z := to_Z x mod 2 ^ 64.
Definition to_long (x : double) : Z := (to_Z x + 2 ^ 63) mod 2 ^ 64 - 2 ^ 63.

End Double.

(** ** The part planner *)

Module Planner.

(** Modelled from the spec: the four limits are declared in utils.h,
    which is not among the sources; section 3 gives their values. *)
Definition kMaxMultipartCount : Z := 10000.
Definition kMaxObjectSize : Z := 5 * 1024 * 1024 * 1024 * 1024.
Definition kMaxPartSize : Z := 5 * 1024 * 1024 * 1024.
Definition kMinPartSize : Z := 5 * 1024 * 1024.

(** [std::to_string] on an integer. *)
Definition to_string (z : Z) : string := NilZero.string_of_int (Z.to_int z).

(** Modelled from the spec: [error::Error] (error.h) is not among the
    sources; section 7: an error is returned, never thrown, and carries
    a message.  [SUCCESS] is the value without a message. *)
Inductive Error : Type :=
| SUCCESS
| Err (msg : string).

(** The five kinds of section 7, with the messages of utils.cc. *)
Definition PartSizeTooSmall (part_size : Z) : Error :=
  Err ("part size " ++ to_string part_size
       ++ " is not supported; minimum allowed 5MiB").
Definition PartSizeTooLarge (part_size : Z) : Error :=
  Err ("part size " ++ to_string part_size
       ++ " is not supported; maximum allowed 5GiB").
Definition ObjectTooLarge (object_size : Z) : Error :=
  Err ("object size " ++ to_string object_size
       ++ " is not supported; maximum allowed 5TiB").
Definition PartSizeRequired : Error :=
  Err "valid part size must be provided when object size is unknown".
Definition TooManyParts (object_size part_size : Z) : Error :=
  Err ("object size " ++ to_string object_size ++ " and part size "
       ++ to_string part_size ++ " make more than "
       ++ to_string kMaxMultipartCount ++ "parts for upload").

(** Conversion of an integer to [size_t]. *)
Definition size_t (z : Z) : Z := z mod 2 ^ 64.

(** What a call leaves: the returned error and the two reference
    parameters. *)
Record outcome : Type := Outcome {
  error : Error;
  part_size : Z;
  part_count : Z
}.

(** The part size computed when the caller gave none:
    [psize = std::ceil((double)object_size / kMaxMultipartCount)], then
    [(size_t)std::ceil(psize / kMinPartSize) * kMinPartSize]. *)
Definition chosen_part_size (object_size : Z) : Z :=
  let psize :=
    Double.ceil (Double.div (Double.of_Z object_size)
                            (Double.of_Z kMaxMultipartCount)) in
  size_t (Double.to_size_t
            (Double.ceil (Double.div psize (Double.of_Z kMinPartSize)))
          * kMinPartSize).

(** [minio::utils::CalcPartInfo].  [object_size] is a [long], [part_size]
    a [size_t]; the comparison [part_size > object_size] and the
    assignment [part_size = object_size] convert [object_size] to
    [size_t]. *)
Definition CalcPartInfo (object_size part_size part_count : Z) : outcome :=
  if (part_size >? 0) && (part_size <? kMinPartSize) then
    Outcome (PartSizeTooSmall part_size) part_size part_count
  else if (part_size >? 0) && (part_size >? kMaxPartSize) then
    Outcome (PartSizeTooLarge part_size) part_size part_count
  else if (object_size >=? 0) && (object_size >? kMaxObjectSize) then
    Outcome (ObjectTooLarge object_size) part_size part_count
  else if negb (object_size >=? 0) && (part_size <=? 0) then
    Outcome PartSizeRequired part_size part_count
  else if object_size <? 0 then
    Outcome SUCCESS part_size (-1)
  else
    let part_size :=
      if part_size <=? 0 then chosen_part_size object_size
      else part_size in
    let part_size :=
      if part_size >? size_t object_size then size_t object_size
      else part_size in
    let part_count :=
      if part_size >? 0
      then Double.to_long
             (Double.ceil (Double.div (Double.of_Z object_size)
                                      (Double.of_Z part_size)))
      else 1 in
    if part_count >? kMaxMultipartCount then
      Outcome (TooManyParts object_size part_size) part_size part_count
    else Outcome SUCCESS part_size part_count.

(** The plan in the words of section 4.2 of the specification, in exact
    integers, to compare with what the code computes in [double]. *)
Definition planned_part_size (object_size : Z) : Z :=
  ceil_div (ceil_div object_size kMaxMultipartCount) kMinPartSize
  * kMinPartSize.

Definition planned_count (object_size part_size : Z) : Z :=
  if part_size >? 0 then ceil_div object_size part_size else 1.

End Planner.

(** ** More on traces *)

Module Lookups.
Import Multimap Trace.

(** The call looks the lower-cased key [lk] up in [keys_] with
    [operator[]]: it adds under a spelling of it, or it is a [Get] of
    one. *)
Definition touches (o : op) (lk : string) : Prop :=
  match o with
  | OpAdd key _ => Str.ToLower key = lk
  | OpAddAll headers =>
      exists key, map.get (map_ headers) key <> None /\ Str.ToLower key = lk
  | OpGet key | OpGetFront key => Str.ToLower key = lk
  | _ => False
  end.

(** Every spelling recorded in [keys_] has its set in [map_]. *)
Definition spellings_stored (h : Multimap.t) : Prop :=
  forall lk s sp,
    map.get (keys_ h) lk = Some s -> In sp (elements s) ->
    map.get (map_ h) sp <> None.

(** The pairs [(key, value)] a Multimap stores, in the order of
    iteration. *)
Definition pairs (h : Multimap.t) : list (string * string) :=
  flat_map (fun '(key, values) => List.map (pair key) (elements values))
    (map.tuples (map_ h)).

(** The strict order of [std::string]. *)
Definition lt (a b : string) : Prop := Str.ltb a b = true.

End Lookups.

(** ** The part planner in exact integers *)

Module PlannerExact.
Import Planner.

(** [CalcPartInfo] with the ceilings of its three divisions taken in
    exact integers, to compare with the function itself, which takes
    them in [double]. *)
Definition CalcPartInfo_exact (object_size part_size part_count : Z)
  : outcome :=
  if (0 <? part_size) && (part_size <? kMinPartSize) then
    Outcome (PartSizeTooSmall part_size) part_size part_count
  else if (0 <? part_size) && (kMaxPartSize <? part_size) then
    Outcome (PartSizeTooLarge part_size) part_size part_count
  else if (0 <=? object_size) && (kMaxObjectSize <? object_size) then
    Outcome (ObjectTooLarge object_size) part_size part_count
  else if (object_size <? 0) && (part_size <=? 0) then
    Outcome PartSizeRequired part_size part_count
  else if object_size <? 0 then
    Outcome SUCCESS part_size (-1)
  else
    let chosen :=
      if part_size <=? 0 then planned_part_size object_size
      else part_size in
    let clamped := Z.min chosen object_size in
    let count := planned_count object_size clamped in
    if kMaxMultipartCount <? count then
      Outcome (TooManyParts object_size clamped) clamped count
    else Outcome SUCCESS clamped count.

End PlannerExact.

(** ** Regular expressions

    [std::regex] is outside the sources.  The three patterns of utils.cc
    are made of classes of characters, sequences, [+] and [{min,max}];
    they are only given to [std::regex_match], which asks for a match of
    the whole string, so that the [^] and [$] around them ask for
    nothing more. *)

Module Regex.

Inductive regex : Type :=
| Class (p : ascii -> bool)
| Seq (r1 r2 : regex)
| Plus (r : regex)
| Rep (r : regex) (min max : nat).

(** What is left of [s] after zero or more turns of [step]; one turn for
    every byte of [s] is enough. *)
Fixpoint star (step : string -> list string) (fuel : nat) (s : string)
  : list string :=
  s :: match fuel with
       | O => []
       | S fuel' => flat_map (star step fuel') (step s)
       end.

(** What is left of [s] after [min] to [max] turns of [step]. *)
Fixpoint rep (step : string -> list string) (min max : nat) (s : string)
  : list string :=
  ((if (min =? 0)%nat then [s] else [])
   ++ match max with
      | O => []
      | S max' => flat_map (rep step (pred min) max') (step s)
      end)%list.

(** What is left of [s] after a prefix that [r] matches, for every such
    prefix. *)
Fixpoint remainders (r : regex) (s : string) : list string :=
  match r with
  | Class p =>
      match s with
      | String c s' => if p c then [s'] else []
      | EmptyString => []
      end
  | Seq r1 r2 => flat_map (remainders r2) (remainders r1 s)
  | Plus r' => flat_map (star (remainders r') (length s)) (remainders r' s)
  | Rep r' min max => rep (remainders r') min max s
  end.

(** [std::regex_match(s, r)]: [r] matches the whole of [s]. *)
Definition regex_match (s : string) (r : regex) : bool :=
  existsb Str.is_empty (remainders r s).

End Regex.

(** ** The names of buckets *)

Module BucketName.
Import Utils Regex Planner.

Definition between (lo hi c : ascii) : bool :=
  (nat_of_ascii lo <=? nat_of_ascii c)%nat
  && (nat_of_ascii c <=? nat_of_ascii hi)%nat.

(** [\d], [a-z0-9] and [A-Za-z0-9]. *)
Definition digit (c : ascii) : bool := between "0" "9" c.
Definition lower_digit (c : ascii) : bool := between "a" "z" c || digit c.
Definition alnum (c : ascii) : bool :=
  between "A" "Z" c || between "a" "z" c || digit c.

(** [[A-Za-z0-9_\.\-\:]] and [[a-z0-9\.\-]]. *)
Definition name_char (c : ascii) : bool :=
  alnum c || Ascii.eqb c "_" || Ascii.eqb c "." || Ascii.eqb c "-"
  || Ascii.eqb c ":".
Definition strict_name_char (c : ascii) : bool :=
  lower_digit c || Ascii.eqb c "." || Ascii.eqb c "-".

(** [^[A-Za-z0-9][A-Za-z0-9_\.\-\:]{1,61}[A-Za-z0-9]$]. *)
Definition VALID_BUCKET_NAME_REGEX : regex :=
  Seq (Class alnum) (Seq (Rep (Class name_char) 1 61) (Class alnum)).

(** [^[a-z0-9][a-z0-9\.\-]{1,61}[a-z0-9]$]. *)
Definition VALID_BUCKET_NAME_STRICT_REGEX : regex :=
  Seq (Class lower_digit)
      (Seq (Rep (Class strict_name_char) 1 61) (Class lower_digit)).

(** [^(\d+\.){3}\d+$]. *)
Definition VALID_IP_ADDR_REGEX : regex :=
  Seq (Rep (Seq (Plus (Class digit)) (Class (Ascii.eqb "."))) 3 3)
      (Plus (Class digit)).

(** The string a [const char*] stands for: the bytes before the first
    NUL.  [bucket_name.data()] is read this way, the view being that of
    a whole string, which a NUL follows. *)
Fixpoint c_str (s : string) : string :=
  match s with
  | EmptyString => EmptyString
  | String c s' =>
      if Ascii.eqb c zero then EmptyString else String c (c_str s')
  end.

Section WithDefault.

(** The default of the second parameter of [Trim], given in utils.h, which
    is not among the sources. *)
Variable default_ch : ascii.

(** [minio::utils::CheckBucketName]. *)
Definition CheckBucketName (bucket_name : string) (strict : bool) : Error :=
  if Str.is_empty (Trim bucket_name default_ch) then
    Err "bucket name cannot be empty"
  else if (length bucket_name <? 3)%nat then
    Err "bucket name cannot be less than 3 characters"
  else if (63 <? length bucket_name)%nat then
    Err "Bucket name cannot be greater than 63 characters"
  else if regex_match (c_str bucket_name) VALID_IP_ADDR_REGEX then
    Err "bucket name cannot be an IP address"
  else if ContainsStr bucket_name ".."
          || ContainsStr bucket_name ".-"
          || ContainsStr bucket_name "-." then
    Err ("Bucket name contains invalid successive characters '..', '.-' or "
         ++ "'-.'")
  else if strict then
    if negb (regex_match (c_str bucket_name) VALID_BUCKET_NAME_STRICT_REGEX)
    then Err "bucket name does not follow S3 standards strictly"
    else SUCCESS
  else if negb (regex_match (c_str bucket_name) VALID_BUCKET_NAME_REGEX)
  then Err "bucket name does not follow S3 standards"
  else SUCCESS.

End WithDefault.

(** The strings [VALID_IP_ADDR_REGEX] describes: four groups of digits
    with dots between them. *)
Definition digits (s : string) : Prop :=
  s <> EmptyString /\ all_bytes digit s = true.

Definition ip_address (s : string) : Prop :=
  exists a b c d,
    digits a /\ digits b /\ digits c /\ digits d /\
    s = a ++ "." ++ b ++ "." ++ c ++ "." ++ d.

(** The strings the two patterns for names describe: a first and a last
    character from [edge] and, between them, 1 to 61 from [inner]. *)
Definition name_syntax (edge inner : ascii -> bool) (s : string) : Prop :=
  exists first middle last,
    s = String first (middle ++ String last EmptyString) /\
    edge first = true /\ all_bytes inner middle = true /\
    edge last = true /\ (1 <= length middle <= 61)%nat.

(** [str] has an occurrence of [substr]. *)
Definition occurs (substr str : string) : Prop :=
  exists before after, str = before ++ substr ++ after.

End BucketName.

(** * Properties *)

(** ** Containers *)

Module ContainerFacts.
Import Multimap Trace.
Local Open Scope string_scope.

#[local] Instance string_eq_dec :
  forall x y : string, BoolSpec (x = y) (x <> y) (Stdlib.Strings.String.eqb x y) :=
  coqutil.Decidable.String.eqb_spec.

(** Iteration visits the bindings in ascending order of the keys: the
    list behind the map is the one [map.tuples] returns, and it is
    sorted. *)
Lemma tuples_value {V : Type} (m : SortedListString.map V) :
  map.tuples m = SortedList.value m /\
  SortedList.sorted (SortedList.value m) = true.
Proof.
  split; [ | apply SortedList._value_ok].
  unfold map.tuples. cbn [map.fold SortedListString.map SortedList.map].
  induction (SortedList.value m) as [ | [k v] l IH]; cbn [fold_right];
    [reflexivity | now rewrite IH].
Qed.

Lemma In_elements (s : string_set) (v : string) :
  In v (elements s) <-> map.get s v = Some tt.
Proof.
  unfold elements. split.
  - intros H. apply map.in_keys_inv in H.
    destruct (map.get s v) as [[] | ] eqn:E; [reflexivity | ].
    exfalso. apply H. exact E.
  - apply map.in_keys.
Qed.

Lemma elements_empty : elements set_empty = [].
Proof. reflexivity. Qed.

Lemma elements_insert (s : string_set) (v x : string) :
  In x (elements (set_insert s v)) <-> x = v \/ In x (elements s).
Proof.
  rewrite !In_elements. unfold set_insert.
  destruct (Stdlib.Strings.String.eqb_spec x v) as [-> | Hne].
  - rewrite map.get_put_same. tauto.
  - rewrite map.get_put_diff by assumption. tauto.
Qed.

Lemma elements_insert_all (vs : list string) (s : string_set) (x : string) :
  In x (elements (set_insert_all s vs)) <-> In x vs \/ In x (elements s).
Proof.
  unfold set_insert_all. revert s.
  induction vs as [ | v vs IH]; intros s; cbn [fold_left In].
  - tauto.
  - rewrite IH, elements_insert. intuition congruence.
Qed.

Lemma elements_NoDup (s : string_set) : NoDup (elements s).
Proof. apply map.keys_NoDup. Qed.

(** What [operator[]] reads. *)
Lemma index_fst (m : SortedListString.map string_set) (k : string) :
  fst (index m k) = lookup_set m k.
Proof. unfold index, lookup_set. destruct (map.get m k); reflexivity. Qed.

(** What [operator[]] leaves: at most one more key, with an empty set. *)
Lemma index_snd (m : SortedListString.map string_set) (k k' : string) :
  lookup_set (snd (index m k)) k' = lookup_set m k'.
Proof.
  unfold index, lookup_set. destruct (map.get m k) eqn:E; cbn [snd]; auto.
  destruct (Stdlib.Strings.String.eqb_spec k' k) as [-> | Hne].
  - rewrite map.get_put_same, E. reflexivity.
  - rewrite map.get_put_diff by assumption. reflexivity.
Qed.

Lemma index_snd_get (m : SortedListString.map string_set) (k k' : string) :
  map.get m k' <> None -> map.get (snd (index m k)) k' = map.get m k'.
Proof.
  intros H. unfold index. destruct (map.get m k) eqn:E; cbn [snd]; auto.
  rewrite map.get_put_diff; congruence.
Qed.

Lemma lookup_index_insert (m : SortedListString.map string_set)
  (k v k' : string) :
  lookup_set (index_insert m k v) k'
  = if Stdlib.Strings.String.eqb k k' then set_insert (lookup_set m k) v
    else lookup_set m k'.
Proof.
  unfold index_insert. rewrite (surjective_pairing (index m k)).
  rewrite index_fst. unfold lookup_set at 1.
  destruct (Stdlib.Strings.String.eqb_spec k k') as [<- | Hne].
  - rewrite map.get_put_same. reflexivity.
  - rewrite map.get_put_diff by congruence. apply index_snd.
Qed.

Lemma lookup_index_insert_all (m : SortedListString.map string_set)
  (k : string) (vs : list string) (k' : string) :
  lookup_set (index_insert_all m k vs) k'
  = if Stdlib.Strings.String.eqb k k'
    then set_insert_all (lookup_set m k) vs
    else lookup_set m k'.
Proof.
  unfold index_insert_all. rewrite (surjective_pairing (index m k)).
  rewrite index_fst. unfold lookup_set at 1.
  destruct (Stdlib.Strings.String.eqb_spec k k') as [<- | Hne].
  - rewrite map.get_put_same. reflexivity.
  - rewrite map.get_put_diff by congruence. apply index_snd.
Qed.

(** [holds] through [lookup_set]. *)
Lemma holds_lookup (m : SortedListString.map string_set) (k v : string) :
  holds m k v <-> In v (elements (lookup_set m k)).
Proof.
  unfold holds, lookup_set. split.
  - intros (s & -> & H). exact H.
  - destruct (map.get m k) as [s | ]; [eauto | ].
    rewrite elements_empty. intros [].
Qed.

Lemma holds_index_insert (m : SortedListString.map string_set)
  (k v k' v' : string) :
  holds (index_insert m k v) k' v' <-> (k = k' /\ v' = v) \/ holds m k' v'.
Proof.
  rewrite !holds_lookup, lookup_index_insert.
  destruct (Stdlib.Strings.String.eqb_spec k k') as [<- | Hne].
  - rewrite elements_insert. tauto.
  - tauto.
Qed.

Lemma holds_index_insert_all (m : SortedListString.map string_set)
  (k : string) (vs : list string) (k' v' : string) :
  holds (index_insert_all m k vs) k' v'
  <-> (k = k' /\ In v' vs) \/ holds m k' v'.
Proof.
  rewrite !holds_lookup, lookup_index_insert_all.
  destruct (Stdlib.Strings.String.eqb_spec k k') as [<- | Hne].
  - rewrite elements_insert_all. tauto.
  - tauto.
Qed.

(** The loop of [Get]: the sets of the spellings one after the other; the
    map may gain empty sets, no set changes. *)
Lemma Get_loop (sps : list string) :
  forall (acc : list string) (m : SortedListString.map string_set),
    let r :=
      fold_left
        (fun '(result, m) key =>
           let '(values, m') := index m key in
           ((result ++ elements values)%list, m'))
        sps (acc, m) in
    fst r = (acc ++ flat_map (fun sp => elements (lookup_set m sp)) sps)%list
    /\ forall k, lookup_set (snd r) k = lookup_set m k.
Proof.
  induction sps as [ | sp sps IH]; intros acc m; cbn [fold_left flat_map].
  - cbn. rewrite app_nil_r. auto.
  - rewrite (surjective_pairing (index m sp)), index_fst.
    destruct (IH (acc ++ elements (lookup_set m sp))%list (snd (index m sp)))
      as [IH1 IH2].
    cbv zeta in *. split.
    + rewrite IH1, <- app_assoc. do 2 f_equal.
      apply flat_map_ext. intros k. now rewrite index_snd.
    + intros k. now rewrite IH2, index_snd.
Qed.

(** [Get] returns, spelling after spelling, the values of the spellings
    recorded for the lower-cased key. *)
Theorem Get_result (h : Multimap.t) (key : string) :
  fst (Get h key)
  = flat_map (fun sp => elements (lookup_set (map_ h) sp))
      (elements (lookup_set (keys_ h) (Str.ToLower key))).
Proof.
  unfold Get. rewrite (surjective_pairing (index (keys_ h) _)), index_fst.
  match goal with
  | |- context [fold_left ?f ?l (?a, ?m)] =>
      pose proof (Get_loop l a m) as [H _];
      destruct (fold_left f l (a, m)) as [result map']
  end.
  cbn [fst] in *. exact H.
Qed.

(** [Get] changes no set of either map. *)
Theorem Get_state (h : Multimap.t) (key k : string) :
  lookup_set (map_ (snd (Get h key))) k = lookup_set (map_ h) k /\
  lookup_set (keys_ (snd (Get h key))) k = lookup_set (keys_ h) k.
Proof.
  unfold Get. rewrite (surjective_pairing (index (keys_ h) _)), index_fst.
  match goal with
  | |- context [fold_left ?f ?l (?a, ?m)] =>
      pose proof (Get_loop l a m) as [_ H];
      destruct (fold_left f l (a, m)) as [result map']
  end.
  cbn [fst snd map_ keys_] in *. split; [apply H | apply index_snd].
Qed.

End ContainerFacts.

(** ** Strings *)

Module StrFacts.
Import Str.
Local Open Scope string_scope.

Lemma same_letter_tolower (c d : ascii) :
  same_letter c d = true -> tolower c = tolower d.
Proof.
  unfold same_letter, tolower. intros H.
  apply orb_true_iff in H. destruct H as [H | H].
  - apply Ascii.eqb_eq in H. now subst.
  - cbv zeta in H.
    pose proof (ascii_nat_embedding c) as Ec.
    pose proof (ascii_nat_embedding d) as Ed.
    set (n := nat_of_ascii c) in *. set (k := nat_of_ascii d) in *.
    apply orb_true_iff in H.
    destruct H as [H | H]; apply andb_true_iff in H; destruct H as [H H3];
      apply andb_true_iff in H; destruct H as [H1 H2];
      apply Nat.leb_le in H1, H2; apply Nat.eqb_eq in H3.
    + replace ((65 <=? n)%nat && (n <=? 90)%nat) with true
        by (symmetry; apply andb_true_iff; split; apply Nat.leb_le; lia).
      replace ((65 <=? k)%nat && (k <=? 90)%nat) with false
        by (symmetry; apply andb_false_iff; right; apply Nat.leb_gt; lia).
      rewrite <- Ed, H3. reflexivity.
    + replace ((65 <=? k)%nat && (k <=? 90)%nat) with true
        by (symmetry; apply andb_true_iff; split; apply Nat.leb_le; lia).
      replace ((65 <=? n)%nat && (n <=? 90)%nat) with false
        by (symmetry; apply andb_false_iff; right; apply Nat.leb_gt; lia).
      rewrite <- Ec, H3. reflexivity.
Qed.

(** Keys that differ only in letter case have the same lower-casing. *)
Lemma differ_only_in_case_ToLower (s : string) :
  forall t, differ_only_in_case s t = true -> ToLower s = ToLower t.
Proof.
  induction s as [ | c s IH]; intros [ | d t]; cbn; try discriminate; auto.
  intros H. apply andb_true_iff in H. destruct H as [Hc Hs].
  f_equal; [now apply same_letter_tolower | now apply IH].
Qed.

Example ToLower_example : ToLower "X-Amz-Date_09" = "x-amz-date_09".
Proof. reflexivity. Qed.

Example regex_replace_example :
  regex_replace_multi_space " a   b  c d  " = " a b c d ".
Proof. reflexivity. Qed.

Example Join_example : Join ["a"; "b"; "c"] ";" = "a;b;c".
Proof. reflexivity. Qed.

(** The delimiter is left out after an empty beginning. *)
Example Join_empty_first : Join [""; "b"] ";" = "b".
Proof. reflexivity. Qed.

Lemma ltb_asym (a b : string) : ltb a b = true -> le a b.
Proof.
  unfold le, ltb. intros H.
  destruct (coqutil.Datatypes.String.ltb b a) eqn:E; [ | reflexivity].
  pose proof (coqutil.Datatypes.String.ltb_trans _ _ _ H E) as F.
  now rewrite coqutil.Datatypes.String.ltb_antirefl in F.
Qed.

Lemma sort_insert_HdRel (a x : string) (l : list string) :
  le a x -> HdRel le a l -> HdRel le a (sort_insert x l).
Proof.
  intros Hax Hl. destruct l as [ | y l]; cbn [sort_insert].
  - now constructor.
  - destruct (ltb y x); constructor; [now inversion Hl | exact Hax].
Qed.

Lemma sort_insert_Sorted (x : string) (l : list string) :
  Sorted le l -> Sorted le (sort_insert x l).
Proof.
  induction 1 as [ | a l Hs IH Hd]; cbn [sort_insert].
  - repeat constructor.
  - destruct (ltb a x) eqn:E.
    + constructor; [exact IH | ].
      apply sort_insert_HdRel; [now apply ltb_asym | exact Hd].
    + constructor; [now constructor | ]. constructor. exact E.
Qed.

Lemma sort_insert_Permutation (x : string) (l : list string) :
  Permutation (sort_insert x l) (x :: l).
Proof.
  induction l as [ | y l IH]; cbn [sort_insert]; [reflexivity | ].
  destruct (ltb y x); [ | reflexivity].
  apply perm_trans with (y :: x :: l); [now constructor | apply perm_swap].
Qed.

(** [sort] is a sorting function: its result is ascending and has the
    elements of its argument. *)
Theorem sort_sorts (l : list string) :
  Sorted le (sort l) /\ Permutation (sort l) l.
Proof.
  induction l as [ | x l [IH1 IH2]]; cbn [sort fold_right].
  - split; constructor.
  - split; [now apply sort_insert_Sorted | ].
    eapply perm_trans; [apply sort_insert_Permutation | now constructor].
Qed.

Lemma In_sort_insert (x y : string) (l : list string) :
  In y (sort_insert x l) <-> y = x \/ In y l.
Proof.
  induction l as [ | z l IH]; cbn.
  - intuition congruence.
  - destruct (ltb z x); cbn; rewrite ?IH; intuition congruence.
Qed.

(** Sorting keeps the elements. *)
Lemma In_sort (y : string) (l : list string) : In y (sort l) <-> In y l.
Proof.
  induction l as [ | x l IH]; cbn; [tauto | ].
  rewrite In_sort_insert, IH. intuition congruence.
Qed.

End StrFacts.

(** ** Traces: what the two maps hold *)

Module TraceFacts.
Import Multimap Trace ContainerFacts.
Local Open Scope string_scope.

Lemma run_snoc (ops : list op) (o : op) :
  run (ops ++ [o]) = exec (run ops) o.
Proof. unfold run. now rewrite fold_left_app. Qed.

Lemma added_snoc (ops : list op) (o : op) (key value : string) :
  added (ops ++ [o]) key value <-> added_by o key value \/ added ops key value.
Proof.
  unfold added. split.
  - intros (o' & Hin & H). apply in_app_iff in Hin.
    destruct Hin as [Hin | [<- | []]]; eauto.
  - intros [H | (o' & Hin & H)].
    + exists o. split; [apply in_app_iff; cbn; auto | exact H].
    + exists o'. split; [apply in_app_iff; auto | exact H].
Qed.

Lemma key_added_snoc (ops : list op) (o : op) (key : string) :
  key_added (ops ++ [o]) key <-> key_added_by o key \/ key_added ops key.
Proof.
  unfold key_added. split.
  - intros (o' & Hin & H). apply in_app_iff in Hin.
    destruct Hin as [Hin | [<- | []]]; eauto.
  - intros [H | (o' & Hin & H)].
    + exists o. split; [apply in_app_iff; cbn; auto | exact H].
    + exists o'. split; [apply in_app_iff; auto | exact H].
Qed.

Lemma holds_empty (key value : string) :
  ~ holds (map.empty : SortedListString.map string_set) key value.
Proof.
  intros (s & H & _). rewrite map.get_empty in H. discriminate.
Qed.

(** The loop of [AddAll] over a list of bindings. *)
Lemma AddAll_loop (l : list (string * string_set)) :
  forall h : Multimap.t,
    let h' :=
      fold_left
        (fun acc '(key, values) =>
           Build (index_insert_all (map_ acc) key (elements values))
                 (index_insert (keys_ acc) (Str.ToLower key) key))
        l h in
    (forall key value,
       holds (map_ h') key value <->
       (exists vs, In (key, vs) l /\ In value (elements vs))
       \/ holds (map_ h) key value) /\
    (forall lk sp,
       holds (keys_ h') lk sp <->
       (lk = Str.ToLower sp /\ exists vs, In (sp, vs) l)
       \/ holds (keys_ h) lk sp).
Proof.
  induction l as [ | [k vs] l IH]; intros h; cbn [fold_left].
  - cbv zeta. split; intros; split; auto.
    + intros [(? & [] & _) | H]; exact H.
    + intros [(_ & ? & []) | H]; exact H.
  - specialize (IH (Build (index_insert_all (map_ h) k (elements vs))
                          (index_insert (keys_ h) (Str.ToLower k) k))).
    cbv zeta in *. destruct IH as [IH1 IH2]. cbn [map_ keys_] in *. split.
    + intros key value. rewrite IH1, holds_index_insert_all. split.
      * intros [(vs' & Hin & Hv) | [(<- & Hv) | H]]; auto.
        -- left. exists vs'. cbn. auto.
        -- left. exists vs. cbn. auto.
      * intros [(vs' & [E | Hin] & Hv) | H]; auto.
        -- inversion E; subst. auto.
        -- left. eauto.
    + intros lk sp. rewrite IH2, holds_index_insert. split.
      * intros [(-> & vs' & Hin) | [(<- & ->) | H]]; auto.
        -- left. split; [reflexivity | ]. exists vs'. cbn. auto.
        -- left. split; [reflexivity | ]. exists vs. cbn. auto.
      * intros [(-> & vs' & [E | Hin]) | H]; auto.
        -- inversion E; subst. auto.
        -- left. eauto.
Qed.

Lemma AddAll_holds (h headers : Multimap.t) :
  (forall key value,
     holds (map_ (AddAll h headers)) key value <->
     holds (map_ headers) key value \/ holds (map_ h) key value) /\
  (forall lk sp,
     holds (keys_ (AddAll h headers)) lk sp <->
     (lk = Str.ToLower sp /\ map.get (map_ headers) sp <> None)
     \/ holds (keys_ h) lk sp).
Proof.
  unfold AddAll.
  destruct (AddAll_loop (map.tuples (map_ headers)) h) as [H1 H2].
  cbv zeta in *. split.
  - intros key value. rewrite H1. unfold holds at 2.
    split; (intros [(vs & Hin & Hv) | H]; [left | now right]);
      exists vs; (split; [ | exact Hv]); now apply map.tuples_spec.
  - intros lk sp. rewrite H2.
    split; (intros [(-> & H) | H]; [left; split; [reflexivity | ] | now right]).
    + destruct H as (vs & Hin). apply map.tuples_spec in Hin.
      intros E. pose proof (eq_trans (eq_sym Hin) E) as F. discriminate F.
    + destruct (map.get (map_ headers) sp) as [vs | ] eqn:E; [ | now elim H].
      exists vs. now apply map.tuples_spec.
Qed.

Lemma Get_holds (h : Multimap.t) (k : string) :
  (forall key value,
     holds (map_ (snd (Get h k))) key value <-> holds (map_ h) key value) /\
  (forall lk sp,
     holds (keys_ (snd (Get h k))) lk sp <-> holds (keys_ h) lk sp).
Proof.
  split; intros a b; rewrite !holds_lookup;
    destruct (Get_state h k a) as [E1 E2]; rewrite ?E1, ?E2; tauto.
Qed.

Lemma GetFront_state (h : Multimap.t) (k : string) :
  snd (GetFront h k) = snd (Get h k).
Proof. unfold GetFront. destruct (Get h k). reflexivity. Qed.

(** After any sequence of calls, [map_] holds exactly the values that were
    added, spelling by spelling, and [keys_] exactly the spellings that
    were added, under their lower-casing. *)
Theorem run_holds (ops : list op) :
  (forall key value,
     holds (map_ (run ops)) key value <-> added ops key value) /\
  (forall lk sp,
     holds (keys_ (run ops)) lk sp <->
     lk = Str.ToLower sp /\ key_added ops sp).
Proof.
  induction ops as [ | o ops [IH1 IH2]] using rev_ind.
  - split; intros a b; split.
    + intros H. now apply holds_empty in H.
    + intros (o & [] & _).
    + intros H. now apply holds_empty in H.
    + intros (_ & o & [] & _).
  - rewrite run_snoc. split.
    + intros key value. rewrite added_snoc, <- IH1.
      destruct o; cbn [exec added_by]; try tauto.
      * unfold Add. cbn [map_]. rewrite holds_index_insert.
        intuition (subst; auto).
      * apply AddAll_holds.
      * rewrite (proj1 (Get_holds _ _)). tauto.
      * rewrite GetFront_state, (proj1 (Get_holds _ _)). tauto.
    + intros lk sp. rewrite key_added_snoc.
      destruct o; cbn [exec key_added_by]; rewrite ?IH2; try tauto.
      * unfold Add. cbn [keys_]. rewrite holds_index_insert, IH2.
        intuition (subst; auto).
      * rewrite (proj2 (AddAll_holds _ _)), IH2. tauto.
      * rewrite (proj2 (Get_holds _ _)), IH2. tauto.
      * rewrite GetFront_state, (proj2 (Get_holds _ _)), IH2. tauto.
Qed.

Lemma added_key_added (ops : list op) (key value : string) :
  added ops key value -> key_added ops key.
Proof.
  intros (o & Hin & H). exists o. split; [exact Hin | ].
  destruct o; cbn in *; try tauto.
  destruct H as (s & E & _). intros F.
  pose proof (eq_trans (eq_sym E) F) as G. discriminate G.
Qed.

End TraceFacts.

(** ** The invariant under the mutators *)

Module InvariantFacts.
Import Multimap Trace ContainerFacts TraceFacts.
Local Open Scope string_scope.

Lemma get_index_insert_all (m : SortedListString.map string_set)
  (k : string) (vs : list string) (k' : string) :
  map.get (index_insert_all m k vs) k'
  = if Stdlib.Strings.String.eqb k k'
    then Some (set_insert_all (lookup_set m k) vs)
    else map.get m k'.
Proof.
  unfold index_insert_all. rewrite (surjective_pairing (index m k)).
  rewrite index_fst.
  destruct (Stdlib.Strings.String.eqb_spec k k') as [<- | Hne].
  - apply map.get_put_same.
  - rewrite map.get_put_diff by congruence.
    unfold index. destruct (map.get m k); cbn [snd]; [reflexivity | ].
    apply map.get_put_diff. congruence.
Qed.

Lemma get_index_insert (m : SortedListString.map string_set)
  (k v k' : string) :
  map.get (index_insert m k v) k'
  = if Stdlib.Strings.String.eqb k k'
    then Some (set_insert (lookup_set m k) v)
    else map.get m k'.
Proof. apply (get_index_insert_all m k [v] k'). Qed.

(** One turn of the loop of [AddAll], which is also what [Add] does with
    a single value, keeps the invariant. *)
Lemma invariant_insert (h : Multimap.t) (key : string) (vs : list string) :
  invariant h ->
  invariant (Build (index_insert_all (map_ h) key vs)
                   (index_insert (keys_ h) (Str.ToLower key) key)).
Proof.
  intros [Hk Hm]. split; cbn [map_ keys_].
  - intros lk s. rewrite get_index_insert.
    assert (Hkeep : forall sp, map.get (map_ h) sp <> None ->
                               map.get (index_insert_all (map_ h) key vs) sp <> None).
    { intros sp H. rewrite get_index_insert_all.
      destruct (Stdlib.Strings.String.eqb key sp); [discriminate | exact H]. }
    destruct (Stdlib.Strings.String.eqb_spec (Str.ToLower key) lk) as [<- | Hne].
    + intros E. inversion E as [E']. clear E E'. split.
      * intros Hnil.
        assert (Hin : In key (elements (set_insert (lookup_set (keys_ h) (Str.ToLower key)) key)))
          by (apply elements_insert; now left).
        rewrite Hnil in Hin. exact Hin.
      * intros sp Hin. apply elements_insert in Hin. destruct Hin as [-> | Hin].
        -- rewrite get_index_insert_all, Stdlib.Strings.String.eqb_refl. discriminate.
        -- apply Hkeep. unfold lookup_set in Hin.
           destruct (map.get (keys_ h) (Str.ToLower key)) as [s0 | ] eqn:E0.
           ++ now apply (Hk _ _ E0).
           ++ rewrite elements_empty in Hin. destruct Hin.
    + intros E. destruct (Hk _ _ E) as [H1 H2]. split; [exact H1 | ].
      intros sp Hin. apply Hkeep. now apply H2.
  - intros k s. rewrite get_index_insert_all, holds_index_insert.
    destruct (Stdlib.Strings.String.eqb_spec key k) as [<- | Hne].
    + intros _. now left.
    + intros E. right. eapply Hm. exact E.
Qed.

Lemma invariant_empty : invariant Multimap.empty.
Proof.
  split; cbn [map_ keys_ Multimap.empty]; intros k s H;
    rewrite map.get_empty in H; discriminate.
Qed.

(** [Add] keeps the invariant. *)
Lemma invariant_Add (h : Multimap.t) (key value : string) :
  invariant h -> invariant (Add h key value).
Proof. apply (invariant_insert h key [value]). Qed.

(** [AddAll] keeps the invariant, whatever the other Multimap holds. *)
Lemma invariant_AddAll (h headers : Multimap.t) :
  invariant h -> invariant (AddAll h headers).
Proof.
  unfold AddAll. generalize (map.tuples (map_ headers)). intros l. revert h.
  induction l as [ | [k vs] l IH]; intros h Hh; cbn [fold_left]; [exact Hh | ].
  apply IH, invariant_insert, Hh.
Qed.

(** On a key that [Contains] finds, [Get] changes nothing when the
    invariant holds. *)
Lemma Get_contained (h : Multimap.t) (key : string) :
  invariant h -> Contains h key = true -> snd (Get h key) = h.
Proof.
  intros [Hk _] Hc. unfold Contains in Hc. unfold Get, index at 1.
  destruct (map.get (keys_ h) (Str.ToLower key)) as [s | ] eqn:E;
    [ | discriminate].
  destruct (Hk _ _ E) as [_ Hs].
  assert (G : forall sps acc,
    (forall sp, In sp sps -> map.get (map_ h) sp <> None) ->
    snd (fold_left
           (fun '(result, m) key0 =>
              let '(values, m') := index m key0 in
              ((result ++ elements values)%list, m'))
           sps (acc, map_ h)) = map_ h).
  { induction sps as [ | sp sps IH]; intros acc Hin; cbn [fold_left];
      [reflexivity | ].
    unfold index at 2.
    destruct (map.get (map_ h) sp) as [vs | ] eqn:Esp.
    - apply IH. intros sp' H'. apply Hin. now right.
    - exfalso. apply (Hin sp); [now left | exact Esp]. }
  specialize (G (elements s) [] Hs).
  destruct (fold_left _ (elements s) ([], map_ h)) as [result map'].
  cbn [snd] in *. subst map'. destruct h; reflexivity.
Qed.

(** Without [Get] and [GetFront], every sequence of calls keeps the
    invariant. *)
Theorem invariant_run (ops : list op) :
  Forall no_get ops -> invariant (run ops).
Proof.
  induction ops as [ | o ops IH] using rev_ind; intros Hops.
  - exact invariant_empty.
  - apply Forall_app in Hops. destruct Hops as [Hops Ho].
    inversion Ho as [ | ? ? Hno _]; subst. rewrite run_snoc.
    specialize (IH Hops).
    destruct o; cbn [exec no_get] in *; try exact IH; try contradiction.
    + now apply invariant_Add.
    + now apply invariant_AddAll.
Qed.

End InvariantFacts.

(** ** The Multimap: the claims *)

Module MultimapClaims.
Import Multimap Trace ContainerFacts StrFacts TraceFacts InvariantFacts.
Local Open Scope string_scope.

(** *** Get *)

Lemma count_occ_flat_map (f : string -> list string) (v : string)
  (l : list string) :
  (forall x, NoDup (f x)) ->
  count_occ string_dec (flat_map f l) v
  = List.length (filter (fun x => if in_dec string_dec v (f x) then true else false) l).
Proof.
  intros Hf. induction l as [ | a l IH]; cbn [flat_map filter]; [reflexivity | ].
  rewrite count_occ_app, IH.
  pose proof (proj1 (NoDup_count_occ string_dec (f a)) (Hf a) v) as Hle.
  destruct (in_dec string_dec v (f a)) as [Hin | Hnin]; cbn [List.length].
  - apply (count_occ_In string_dec) in Hin. lia.
  - apply (count_occ_not_In string_dec) in Hnin. lia.
Qed.

(** C3 (counterexample): a value added under two spellings of one key is
    returned twice. *)
Lemma Get_returns_duplicates :
  let h := Add (Add Multimap.empty "Host" "v") "HOST" "v" in
  fst (Get h "host") = ["v"; "v"] /\ ~ NoDup (fst (Get h "host")).
Proof.
  cbv zeta.
  assert (E : fst (Get (Add (Add Multimap.empty "Host" "v") "HOST" "v")
                       "host") = ["v"; "v"])
    by (vm_compute; reflexivity).
  split; [exact E | ]. rewrite E. intros H.
  inversion H as [ | x l Hnin _ ]; subst. apply Hnin. now left.
Qed.

(** C3 (amended): after any sequence of calls on a fresh Multimap, [Get]
    returns exactly the values added under a spelling with the
    lower-casing of the key, each of them once for every such spelling it
    was added under. *)
Theorem Get_returns_added_values (ops : list op) (k v : string) :
  (In v (fst (Get (run ops) k)) <->
   exists key, Str.ToLower key = Str.ToLower k /\ added ops key v) /\
  (exists spellings,
     NoDup spellings /\
     (forall key, In key spellings <->
                  Str.ToLower key = Str.ToLower k /\ added ops key v) /\
     count_occ string_dec (fst (Get (run ops) k)) v = List.length spellings).
Proof.
  destruct (run_holds ops) as [Hmap Hkeys].
  rewrite Get_result.
  set (h := run ops) in *.
  set (f := fun sp => elements (lookup_set (map_ h) sp)).
  set (sps := elements (lookup_set (keys_ h) (Str.ToLower k))).
  assert (Hsp : forall key, In key sps /\ In v (f key) <->
                            Str.ToLower key = Str.ToLower k /\ added ops key v).
  { intros key. unfold sps, f.
    rewrite <- !holds_lookup, Hkeys, Hmap. split.
    - intros [[E _] H]. auto.
    - intros [E H]. repeat split; auto. eapply added_key_added; eauto. }
  split.
  - rewrite in_flat_map. split.
    + intros (key & H1 & H2). exists key. apply Hsp. auto.
    + intros (key & H). exists key. apply Hsp. exact H.
  - exists (filter (fun x => if in_dec string_dec v (f x) then true else false) sps).
    split; [apply NoDup_filter, elements_NoDup | ].
    split.
    + intros key. rewrite filter_In, <- Hsp.
      destruct (in_dec string_dec v (f key)); intuition congruence.
    + apply count_occ_flat_map. intros x. apply elements_NoDup.
Qed.

(** *** Contains and Get are case-insensitive *)

Lemma Contains_after_Add (h : Multimap.t) (key value : string) :
  Contains (Add h key value) key = true.
Proof.
  unfold Contains, Add, index_insert. cbn [keys_].
  destruct (index (keys_ h) (Str.ToLower key)) as [s m'].
  now rewrite map.get_put_same.
Qed.

(** C9: for keys that differ only in letter case, [Contains] answers the
    same and [Get] returns the same values, in every state; the same holds
    when the two calls of [Get] are made one after the other; and after an
    [Add] with one spelling [Contains] is true for both. *)
Theorem lookup_ignores_case (h : Multimap.t) (k1 k2 value : string) :
  Str.differ_only_in_case k1 k2 = true ->
  Contains h k1 = Contains h k2 /\
  Permutation (fst (Get h k1)) (fst (Get h k2)) /\
  Permutation (fst (Get h k1)) (fst (Get (snd (Get h k1)) k2)) /\
  Contains (Add h k1 value) k2 = true /\
  Contains (Add h k2 value) k1 = true.
Proof.
  intros H. apply differ_only_in_case_ToLower in H.
  assert (E : forall h', Contains h' k1 = Contains h' k2)
    by (intros h'; unfold Contains; now rewrite H).
  assert (G : forall h', fst (Get h' k1) = fst (Get h' k2))
    by (intros h'; rewrite !Get_result; now rewrite H).
  split; [apply E | ].
  split; [rewrite G; apply Permutation_refl | ].
  split.
  - rewrite !Get_result, H.
    destruct (Get_state h k1 (Str.ToLower k2)) as [_ ->].
    erewrite flat_map_ext; [apply Permutation_refl | ].
    intros sp. destruct (Get_state h k1 sp) as [-> _]. reflexivity.
  - split; [rewrite <- E | rewrite E]; apply Contains_after_Add.
Qed.

Lemma lookup_ignores_case_witness :
  let h := Add Multimap.empty "Host" "example.org" in
  Contains h "Host" = Contains h "HOST" /\
  Permutation (fst (Get h "Host")) (fst (Get h "HOST")).
Proof.
  destruct (lookup_ignores_case (Add Multimap.empty "Host" "example.org")
              "Host" "HOST" "x" eq_refl) as (H1 & H2 & _).
  split; [exact H1 | exact H2].
Defined.

(** *** The invariant *)

(** C4 (the code at the failing input): the invariant holds on a fresh
    Multimap, but [Get] on a key that was never added leaves that key in
    [keys_] with an empty set of spellings; [Contains] then answers true,
    and the invariant is lost. *)
Theorem Get_inserts_absent_key :
  let h := run [OpGet "host"] in
  invariant Multimap.empty /\
  Contains Multimap.empty "host" = false /\
  map.get (keys_ h) "host" = Some set_empty /\
  Contains h "host" = true /\
  ~ invariant h.
Proof.
  cbv zeta.
  assert (E : map.get (keys_ (run [OpGet "host"])) "host" = Some set_empty)
    by (vm_compute; reflexivity).
  split; [exact invariant_empty | ].
  split; [reflexivity | ]. split; [exact E | ].
  split; [vm_compute; reflexivity | ].
  intros [Hk _]. destruct (Hk "host" set_empty E) as [Hne _].
  apply Hne. reflexivity.
Qed.

(** *** GetCanonicalHeaders *)

Lemma canonical_step_keys (st : list string * SortedListString.map string)
  (kv : string * string_set) :
  ((forall key, In key (fst st) -> ~ excluded key) /\
   (forall key value, map.get (snd st) key = Some value -> In key (fst st)))
  ->
  (forall key, In key (fst (canonical_step st kv)) -> ~ excluded key) /\
  (forall key value, map.get (snd (canonical_step st kv)) key = Some value ->
                     In key (fst (canonical_step st kv))).
Proof.
  destruct st as [sl m], kv as [k values]. cbn [fst snd]. intros [H1 H2].
  unfold canonical_step, Str.eqb, Str.find.
  destruct (Stdlib.Strings.String.eqb_spec "authorization" (Str.ToLower k)) as [E1 | N1];
    [cbn [orb fst snd]; auto | ].
  destruct (Stdlib.Strings.String.eqb_spec "user-agent" (Str.ToLower k)) as [E2 | N2];
    [cbn [orb fst snd]; auto | ].
  cbn [orb fst snd].
  set (key0 := Str.ToLower k) in *.
  assert (Hsl : forall key,
    In key (if existsb (Stdlib.Strings.String.eqb key0) sl then sl else (sl ++ [key0])%list)
    <-> key = key0 \/ In key sl).
  { intros key. destruct (existsb (Stdlib.Strings.String.eqb key0) sl) eqn:Ex.
    - apply existsb_exists in Ex. destruct Ex as (x & Hx & Ex).
      apply Stdlib.Strings.String.eqb_eq in Ex. subst x. intuition congruence.
    - rewrite in_app_iff. cbn. intuition congruence. }
  split.
  - intros key Hin. apply Hsl in Hin. destruct Hin as [-> | Hin]; [ | auto].
    unfold excluded. intuition congruence.
  - intros key value. rewrite Hsl.
    destruct (Stdlib.Strings.String.eqb_spec key key0) as [-> | Hne]; [auto | ].
    rewrite map.get_put_diff by assumption. eauto.
Qed.

Lemma canonical_loop_keys (h : Multimap.t) :
  (forall key, In key (fst (canonical_loop h)) -> ~ excluded key) /\
  (forall key value, map.get (snd (canonical_loop h)) key = Some value ->
                     In key (fst (canonical_loop h))).
Proof.
  unfold canonical_loop.
  assert (G : forall l st,
    ((forall key, In key (fst st) -> ~ excluded key) /\
     (forall key value, map.get (snd st) key = Some value -> In key (fst st)))
    ->
    (forall key, In key (fst (fold_left canonical_step l st)) -> ~ excluded key) /\
    (forall key value,
       map.get (snd (fold_left canonical_step l st)) key = Some value ->
       In key (fst (fold_left canonical_step l st)))).
  { induction l as [ | kv l IH]; intros st Hst; cbn [fold_left]; [exact Hst | ].
    apply IH, canonical_step_keys, Hst. }
  apply G. cbn [fst snd]. split.
  - intros key [].
  - intros key value H. rewrite map.get_empty in H. discriminate.
Qed.


Lemma fold_put_skipped {V S : Type} (step : S -> string * V -> S) (k : string) :
  (forall st v, step st (k, v) = st) ->
  forall (m : SortedListString.map V) (v : V) (st : S),
    fold_left step (map.tuples (map.put m k v)) st
    = fold_left step (map.tuples m) st.
Proof.
  intros Hskip m v st.
  rewrite (proj1 (tuples_value (map.put m k v))), (proj1 (tuples_value m)).
  change (SortedList.value (map.put m k v))
    with (SortedList.put (SortedList.value m) k v).
  generalize (SortedList.value m). intros l. revert st.
  induction l as [ | [k' v'] l IH]; intros st; cbn [SortedList.put fold_left].
  - apply Hskip.
  - cbn [parameters.ltb SortedListString.Build_parameters].
    destruct (coqutil.Datatypes.String.ltb k k') eqn:E1.
    + cbn [fold_left]. now rewrite Hskip.
    + destruct (coqutil.Datatypes.String.ltb k' k) eqn:E2.
      * cbn [fold_left]. apply IH.
      * pose proof (coqutil.Datatypes.String.ltb_total _ _ E1 E2) as <-.
        cbn [fold_left]. now rewrite !Hskip.
Qed.

Lemma canonical_step_skip (k : string) :
  excluded (Str.ToLower k) ->
  forall st values, canonical_step st (k, values) = st.
Proof.
  intros Hex [sl m] values. unfold canonical_step, Str.eqb.
  destruct Hex as [E | E]; rewrite E; reflexivity.
Qed.

(** Adding a value under a spelling of an excluded key changes nothing of
    what the loop of [GetCanonicalHeaders] computes. *)
Lemma canonical_loop_Add_excluded (h : Multimap.t) (k v : string) :
  excluded (Str.ToLower k) -> canonical_loop (Add h k v) = canonical_loop h.
Proof.
  intros Hex. unfold canonical_loop, Add, index_insert, index. cbn [map_].
  pose proof (canonical_step_skip k Hex) as Hskip.
  destruct (map.get (map_ h) k) as [s | ].
  - now rewrite (fold_put_skipped canonical_step k Hskip).
  - now rewrite !(fold_put_skipped canonical_step k Hskip).
Qed.

(** C8: whatever the Multimap holds, neither [authorization] nor
    [user-agent] is an entry of the signed headers or a key of the local
    map the canonical lines are made from: every canonical line is
    [key:value] for a key that is a signed header and is neither of the
    two; and adding a value under any spelling of one of these two keys
    changes neither output. *)
Theorem canonical_headers_exclude (h : Multimap.t) :
  ~ In "authorization" (signed_headerslist h) /\
  ~ In "user-agent" (signed_headerslist h) /\
  map.get (snd (canonical_loop h)) "authorization" = None /\
  map.get (snd (canonical_loop h)) "user-agent" = None /\
  (forall line, In line (canonical_headerslist h) ->
     exists key value,
       line = key ++ ":" ++ value /\
       key <> "authorization" /\ key <> "user-agent" /\
       In key (signed_headerslist h)) /\
  (forall k v,
     Str.ToLower k = "authorization" \/ Str.ToLower k = "user-agent" ->
     GetCanonicalHeaders (Add h k v) = GetCanonicalHeaders h).
Proof.
  destruct (canonical_loop_keys h) as [H1 H2].
  assert (Hs : forall key, In key (signed_headerslist h) -> ~ excluded key).
  { intros key Hin. apply H1. unfold signed_headerslist in Hin.
    apply (proj1 (In_sort _ _)) in Hin. exact Hin. }
  assert (Hm : forall key, excluded key ->
                 map.get (snd (canonical_loop h)) key = None).
  { intros key Hex.
    destruct (map.get (snd (canonical_loop h)) key) as [value | ] eqn:E; auto.
    exfalso. apply (H1 key); [ | exact Hex]. eapply H2. exact E. }
  split; [intros Hin; apply (Hs _ Hin); now left | ].
  split; [intros Hin; apply (Hs _ Hin); now right | ].
  split; [apply Hm; now left | ].
  split; [apply Hm; now right | ].
  split.
  - intros line Hin. unfold canonical_headerslist in Hin.
    apply (proj1 (In_sort _ _)), in_map_iff in Hin.
    destruct Hin as ([key value] & <- & Hin).
    apply map.tuples_spec in Hin.
    exists key, value. split; [reflexivity | ].
    assert (Hk : In key (fst (canonical_loop h))) by (eapply H2; exact Hin).
    pose proof (H1 key Hk) as Hex. unfold excluded in Hex.
    split; [tauto | ]. split; [tauto | ].
    unfold signed_headerslist. apply (proj2 (In_sort _ _)). exact Hk.
  - intros k v Hex.
    unfold GetCanonicalHeaders, signed_headerslist, canonical_headerslist.
    rewrite canonical_loop_Add_excluded; [reflexivity | ].
    unfold excluded. destruct Hex as [-> | ->]; auto.
Qed.

Lemma canonical_headers_exclude_witness :
  GetCanonicalHeaders
    (Add (Add Multimap.empty "Host" "example.org") "AuthoriZation" "secret")
  = GetCanonicalHeaders (Add Multimap.empty "Host" "example.org").
Proof.
  destruct (canonical_headers_exclude
              (Add Multimap.empty "Host" "example.org"))
    as (_ & _ & _ & _ & _ & H).
  apply H. left. reflexivity.
Defined.

(** C1 (the code at the failing input): the values added under ["HOST"]
    are missing from the canonical line of [host], which has only those
    added under ["Host"] (with their runs of spaces collapsed), although
    [Get] returns the values of both spellings. *)
Theorem canonical_headers_lose_spelling :
  let h := Add (Add (Add Multimap.empty "Host" "a   b") "HOST" "c") "HOST" "d" in
  GetCanonicalHeaders h = ("host", "host:a b") /\
  fst (Get h "host") = ["c"; "d"; "a   b"].
Proof. vm_compute. split; reflexivity. Qed.

(** C2 (the code at the failing input): the canonical lines are sorted as
    whole lines, so the line of [x-amz-copy-source-range] comes before
    the line of [x-amz-copy-source], against the order of the keys in
    the signed headers. *)
Theorem canonical_headers_line_order :
  let h := Add (Add Multimap.empty "x-amz-copy-source" "/bucket/object")
               "x-amz-copy-source-range" "bytes=0-9" in
  signed_headerslist h = ["x-amz-copy-source"; "x-amz-copy-source-range"] /\
  canonical_headerslist h
  = ["x-amz-copy-source-range:bytes=0-9"; "x-amz-copy-source:/bucket/object"] /\
  GetCanonicalHeaders h
  = ("x-amz-copy-source;x-amz-copy-source-range",
     "x-amz-copy-source-range:bytes=0-9" ++ Str.newline
     ++ "x-amz-copy-source:/bucket/object").
Proof. vm_compute. repeat split; reflexivity. Qed.

End MultimapClaims.

(** ** binary64 division of integers *)

Module DoubleFacts.
Import Double.

(** The quotient 1 / 3 in binary64 is [0x3FD5555555555555]. *)
Example div_one_third :
  div (of_Z 1) (of_Z 3) = S754_finite false 6004799503160661 (-54).
Proof. vm_compute. reflexivity. Qed.

Example ceil_of_quotient :
  to_Z (ceil (div (of_Z 5497558138880) (of_Z 10000))) = 549755814.
Proof. vm_compute. reflexivity. Qed.

(** [digits2_pos] counts the binary digits. *)
Lemma digits2_pos_bounds (p : positive) :
  2 ^ (Zpos (digits2_pos p) - 1) <= Zpos p < 2 ^ Zpos (digits2_pos p).
Proof.
  induction p as [p IH | p IH | ]; cbn [digits2_pos].
  - rewrite Pos2Z.inj_succ.
    replace (Z.succ (Zpos (digits2_pos p)) - 1) with (Z.succ (Zpos (digits2_pos p) - 1)) by lia.
    rewrite !Z.pow_succ_r by lia. lia.
  - rewrite Pos2Z.inj_succ.
    replace (Z.succ (Zpos (digits2_pos p)) - 1) with (Z.succ (Zpos (digits2_pos p) - 1)) by lia.
    rewrite !Z.pow_succ_r by lia. lia.
  - cbn. lia.
Qed.

Lemma digits2_pos_unique (p : positive) (d : Z) :
  2 ^ (d - 1) <= Zpos p < 2 ^ d -> Zpos (digits2_pos p) = d.
Proof.
  intros [Hl Hu]. pose proof (digits2_pos_bounds p) as [Bl Bu].
  assert (0 < d). { destruct (Z_lt_le_dec 0 d); auto. rewrite Z.pow_neg_r in Hl by lia.
    destruct (Z.eq_dec d 0); subst; cbn in *; try lia. rewrite Z.pow_neg_r in Hu by lia. lia. }
  destruct (Z_lt_le_dec (Zpos (digits2_pos p)) d).
  - assert (2 ^ Zpos (digits2_pos p) <= 2 ^ (d - 1)) by (apply Z.pow_le_mono_r; lia). lia.
  - destruct (Z.eq_dec (Zpos (digits2_pos p)) d); auto.
    assert (2 ^ d <= 2 ^ (Zpos (digits2_pos p) - 1)) by (apply Z.pow_le_mono_r; lia). lia.
Qed.

Lemma iter_xO (m d : positive) : Zpos (Pos.iter xO m d) = Zpos m * 2 ^ Zpos d.
Proof.
  induction d as [ | d IH] using Pos.peano_ind.
  - cbn. lia.
  - rewrite Pos.iter_succ, Pos2Z.inj_succ, Z.pow_succ_r by lia.
    rewrite Pos2Z.inj_xO, IH. lia.
Qed.

(** The conversion of a positive integer below [2^53] is exact: the
    mantissa is shifted left to 53 digits. *)
Lemma of_Z_pos (a : Z) :
  0 < a < 2 ^ 53 ->
  exists (m : positive) (k : Z),
    of_Z a = S754_finite false m (- k) /\ 0 <= k <= 52 /\
    Zpos m = a * 2 ^ k /\ 2 ^ 52 <= Zpos m < 2 ^ 53 /\
    2 ^ (52 - k) <= a < 2 ^ (53 - k).
Proof.
  intros Ha. destruct a as [ | p | p]; try lia.
  pose proof (digits2_pos_bounds p) as Hd.
  set (d := Zpos (digits2_pos p)) in *.
  assert (Hd53 : d <= 53).
  { destruct (Z_le_gt_dec d 53); auto.
    assert (2 ^ 53 <= 2 ^ (d - 1)) by (apply Z.pow_le_mono_r; lia). lia. }
  assert (0 < d) by (unfold d; lia).
  unfold of_Z, binary_normalize, binary_round.
  unfold shl_align, fexp, emin, prec, emax. fold d.
  replace (Z.max (d + 0 - 53) (3 - 1024 - 53) - 0) with (d - 53) by lia.
  replace (Z.max (d + 0 - 53) (3 - 1024 - 53)) with (d - 53) by lia.
  destruct (d - 53) as [ | q | q] eqn:E; try lia.
  - (* already 53 digits *)
    exists p, 0. 
    unfold binary_round_aux, shr_fexp, fexp, emin, Zdigits2. fold d.
    replace (Z.max (d + 0 - 53) (3 - 1024 - 53) - 0) with 0 by lia.
    cbn [shr shr_record_of_loc shr_m loc_of_shr_record round_nearest_even Zdigits2].
    fold d. replace (Z.max (d + 0 - 53) (3 - 1024 - 53) - 0) with 0 by lia.
    cbn [shr shr_m]. replace d with 53 in * by lia.
    cbn [Z.leb Z.compare Z.sub Z.opp Z.add Pos.compare Z.pos_sub]. 
    repeat split; try lia. 
  - set (mz := Pos.iter xO p q).
    assert (Hmz : Zpos mz = Zpos p * 2 ^ Zpos q) by apply iter_xO.
    assert (Hq : Zpos q = 53 - d) by lia.
    assert (Hb : 2 ^ 52 <= Zpos mz < 2 ^ 53).
    { rewrite Hmz, Hq.
      assert (E52 : 2 ^ 52 = 2 ^ (d - 1) * 2 ^ (53 - d))
        by (rewrite <- Z.pow_add_r by lia; f_equal; lia).
      assert (E53 : 2 ^ 53 = 2 ^ d * 2 ^ (53 - d))
        by (rewrite <- Z.pow_add_r by lia; f_equal; lia).
      rewrite E52, E53.
      assert (0 < 2 ^ (53 - d)) by (apply Z.pow_pos_nonneg; lia). nia. }
    assert (Hdz : Zpos (digits2_pos mz) = 53) by (apply digits2_pos_unique; cbn; lia).
    exists mz, (Zpos q).
    unfold binary_round_aux, shr_fexp, fexp, emin, Zdigits2. 
    rewrite Hdz.
    replace (Z.max (53 + Z.neg q - 53) (3 - 1024 - 53) - Z.neg q) with 0 by lia.
    cbn [shr shr_record_of_loc shr_m loc_of_shr_record round_nearest_even Zdigits2].
    rewrite Hdz.
    replace (Z.max (53 + Z.neg q - 53) (3 - 1024 - 53) - Z.neg q) with 0 by lia.
    cbn [shr shr_m].
    replace (Z.neg q <=? 1024 - 53) with true by (symmetry; apply Z.leb_le; lia).
    split; [reflexivity | ].
    split; [lia | ]. split; [exact Hmz | ]. split; [exact Hb | ].
    rewrite Hq. replace (52 - (53 - d)) with (d - 1) by lia.
    replace (53 - (53 - d)) with d by lia. exact Hd.
Qed.


Lemma Zdigits2_53 (m : Z) : 2 ^ 52 <= m < 2 ^ 53 -> Zdigits2 m = 53.
Proof.
  intros H. destruct m as [ | p | p]; try lia. apply digits2_pos_unique. exact H.
Qed.

Lemma Zdigits2_54 (m : Z) : 2 ^ 53 <= m < 2 ^ 54 -> Zdigits2 m = 54.
Proof.
  intros H. destruct m as [ | p | p]; try lia. apply digits2_pos_unique. exact H.
Qed.

(** Second half of [binary_round_aux]: the rounded mantissa is put back
    on 53 digits when the rounding carried to [2^53]. *)
Lemma renormalize (m1 e : Z) :
  2 ^ 52 <= m1 <= 2 ^ 53 -> -1074 <= e <= 969 ->
  exists (m : positive) (e' : Z),
    (let '(mrs, e'') := shr_fexp prec emax m1 e loc_Exact in
     match shr_m mrs with
     | Z0 => S754_zero false
     | Zpos m => if e'' <=? emax - prec then S754_finite false m e''
                 else S754_infinity false
     | Zneg _ => S754_nan
     end) = S754_finite false m e' /\
    Zpos m * 2 ^ (e' - e) = m1 /\ e <= e' <= e + 1 /\ (m1 < 2 ^ 53 -> e' = e).
Proof.
  intros Hm He.
  destruct (Z_lt_le_dec m1 (2 ^ 53)) as [Hlt | Hge].
  - unfold shr_fexp. rewrite Zdigits2_53 by lia.
    unfold fexp, emin, prec, emax.
    replace (Z.max (53 + e - 53) (3 - 1024 - 53) - e) with 0 by lia.
    cbn [shr shr_record_of_loc shr_m].
    destruct m1 as [ | p | p]; try lia.
    replace (e <=? 1024 - 53) with true by (symmetry; apply Z.leb_le; lia).
    exists p, e. replace (e - e) with 0 by lia. cbn [Z.pow]. 
    repeat split; lia.
  - assert (m1 = 2 ^ 53) by lia. subst m1.
    unfold shr_fexp. rewrite Zdigits2_54 by lia.
    unfold fexp, emin, prec, emax.
    replace (Z.max (54 + e - 53) (3 - 1024 - 53) - e) with 1 by lia.
    cbn. 
    replace (e + 1 <=? 971) with true by (symmetry; apply Z.leb_le; lia).
    eexists _, _. split; [reflexivity | ].
    replace (e + 1 - e) with 1 by lia. cbn. lia.
Qed.

Lemma loc_of_shr_record_of_loc (m : Z) (l : location) :
  loc_of_shr_record (shr_record_of_loc m l) = l /\
  shr_m (shr_record_of_loc m l) = m.
Proof. destruct l as [ | [ | | ]]; split; reflexivity. Qed.

Lemma round_nearest_even_cases (m : Z) (l : location) :
  (round_nearest_even m l = m \/ round_nearest_even m l = m + 1) /\
  (l = loc_Exact -> round_nearest_even m l = m).
Proof.
  destruct l as [ | [ | | ]]; cbn; try destruct (Z.even m); auto;
    split; auto; discriminate.
Qed.

Lemma div2_xI (p : positive) : Zpos p~1 / 2 = Zpos p /\ Zpos p~1 mod 2 = 1.
Proof.
  rewrite Pos2Z.inj_xI. split; symmetry.
  - apply Z.div_unique with (r := 1); lia.
  - apply Z.mod_unique with (q := Zpos p); lia.
Qed.

Lemma div2_xO (p : positive) : Zpos p~0 / 2 = Zpos p.
Proof.
  rewrite Pos2Z.inj_xO. symmetry. apply Z.div_unique with (r := 0); lia.
Qed.

Lemma shr_1_spec (m : Z) (l : location) :
  0 < m ->
  shr_m (shr_1 (shr_record_of_loc m l)) = m / 2 /\
  (l = loc_Exact -> m mod 2 = 0 ->
   loc_of_shr_record (shr_1 (shr_record_of_loc m l)) = loc_Exact).
Proof.
  intros Hm. destruct m as [ | p | p]; try lia.
  destruct p as [p | p | ].
  - destruct (div2_xI p) as [Hd Hr]. rewrite Hd, Hr.
    destruct l as [ | [ | | ]]; split; try reflexivity; intros; lia.
  - rewrite div2_xO.
    destruct l as [ | [ | | ]]; split; try reflexivity; intros; discriminate.
  - destruct l as [ | [ | | ]]; split; try reflexivity; intros E1 E2;
      try discriminate E1; discriminate E2.
Qed.

(** What [binary_round_aux] returns on a positive mantissa of 53 or 54
    digits away from the subnormal and overflow ranges: the mantissa loses
    [sh] bits and goes up by [delta], which is at most one unit, and zero
    when nothing is lost. *)
Lemma binary_round_aux_spec (mx ex : Z) (lx : location) :
  2 ^ 52 <= mx < 2 ^ 54 -> -1074 <= ex <= 960 ->
  exists (m : positive) (e sh delta : Z),
    binary_round_aux prec emax false mx ex lx = S754_finite false m e /\
    (sh = 0 \/ sh = 1) /\ (delta = 0 \/ delta = 1) /\
    (mx < 2 ^ 53 -> sh = 0) /\
    ex + sh <= e <= ex + sh + delta /\
    Zpos m * 2 ^ (e - ex) = (mx / 2 ^ sh + delta) * 2 ^ sh /\
    (lx = loc_Exact -> mx mod 2 ^ sh = 0 -> delta = 0).
Proof.
  intros Hm He. unfold binary_round_aux.
  destruct (Z_lt_le_dec mx (2 ^ 53)) as [Hlt | Hge].
  - unfold shr_fexp at 1. rewrite Zdigits2_53 by lia.
    unfold fexp at 1. unfold emin, prec, emax.
    replace (Z.max (53 + ex - 53) (3 - 1024 - 53) - ex) with 0 by lia.
    cbn [shr].
    destruct (loc_of_shr_record_of_loc mx lx) as [-> ->].
    destruct (round_nearest_even_cases mx lx) as [Hr Hx].
    destruct (renormalize (round_nearest_even mx lx) ex) as (m & e' & Hres & Hv & Hle & Hsame);
      [ lia | lia | ].
    fold prec emax. rewrite Hres. unfold prec, emax.
    exists m, e', 0, (round_nearest_even mx lx - mx).
    split; [reflexivity | ].
    split; [now left | ]. split; [lia | ]. split; [reflexivity | ].
    split; [ destruct Hr as [Hr | Hr]; rewrite Hr in *; lia | ].
    split; [ rewrite Hv; cbn [Z.pow]; rewrite Z.div_1_r; lia | ].
    intros E _. rewrite (Hx E). lia.
  - unfold shr_fexp at 1. rewrite Zdigits2_54 by lia.
    unfold fexp at 1. unfold emin, prec, emax.
    replace (Z.max (54 + ex - 53) (3 - 1024 - 53) - ex) with 1 by lia.
    cbn [shr iter_pos].
    destruct (shr_1_spec mx lx) as [Hs Hex]; [lia | ].
    set (mrs := shr_1 (shr_record_of_loc mx lx)) in *.
    destruct (round_nearest_even_cases (shr_m mrs) (loc_of_shr_record mrs)) as [Hr Hx].
    rewrite Hs in *. set (h := mx / 2) in *.
    set (rd := round_nearest_even h (loc_of_shr_record mrs)) in *.
    assert (Hhalf : 2 ^ 52 <= mx / 2 < 2 ^ 53).
    { unfold h. split; [apply Z.div_le_lower_bound | apply Z.div_lt_upper_bound]; lia. }
    destruct (renormalize rd (ex + 1))
      as (m & e' & Hres & Hv & Hle & Hsame); [ lia | lia | ].
    fold prec emax. rewrite Hres. unfold prec, emax.
    exists m, e', 1, (rd - h).
    split; [reflexivity | ].
    split; [now right | ]. split; [lia | ]. split; [lia | ].
    split; [ destruct Hr as [Hr | Hr]; rewrite Hr in *; lia | ].
    split.
    + replace (e' - ex) with ((e' - (ex + 1)) + 1) by lia.
      rewrite Z.pow_add_r by lia. rewrite Z.mul_assoc, Hv. 
      change (2 ^ 1) with 2. lia.
    + intros E1 E2. change (2 ^ 1) with 2 in E2.
      rewrite Hx by (apply Hex; assumption). lia.
Qed.


Lemma ceil_div_unique (n d c : Z) :
  0 < d -> (c - 1) * d < n <= c * d -> ceil_div n d = c.
Proof.
  intros Hd Hn. unfold ceil_div.
  assert (E : - c = (- n) / d).
  { apply Z.div_unique with (r := c * d - n); lia. }
  lia.
Qed.

Lemma ceil_div_mul (c d : Z) : 0 < d -> ceil_div (c * d) d = c.
Proof. intros. apply ceil_div_unique; lia. Qed.

(** The arithmetic heart: rounding [a * 2^K / b] to a multiple of [T]
    (one or two units) never moves it across an integer multiple of
    [2^K], because [b * T <= 2^K]. *)
Lemma ceil_core (a b P T delta c r0 q N : Z) :
  0 < b -> 0 <= c -> 0 <= r0 < b -> a = c * b + r0 ->
  (T = 1 \/ T = 2) -> (delta = 0 \/ delta = 1) ->
  (exists P2, P = 2 * P2 /\ 0 < P2) -> b * T <= P ->
  q = (a * P) / b -> N = (q / T + delta) * T ->
  ((a * P) mod b = 0 -> q mod T = 0 -> delta = 0) ->
  ceil_div N P = (if r0 =? 0 then c else c + 1).
Proof.
  intros Hb Hc Hr Ha HT Hdelta (P2 & HP & HP2) HbT Hq HN Hex.
  destruct (Z.eqb_spec r0 0) as [E0 | E0].
  - (* exact quotient *)
    subst r0. assert (EaP : a * P = (c * P) * b) by (subst a; ring).
    assert (Eq : q = c * P) by (rewrite Hq, EaP; apply Z.div_mul; lia).
    assert (Em : (a * P) mod b = 0) by (rewrite EaP; apply Z.mod_mul; lia).
    assert (EqT : q mod T = 0 /\ (q / T) * T = q).
    { destruct HT; subst T.
      - rewrite Z.mod_1_r, Z.div_1_r. lia.
      - rewrite Eq, HP. replace (c * (2 * P2)) with ((c * P2) * 2) by ring.
        rewrite Z.mod_mul, Z.div_mul by lia. lia. }
    destruct EqT as [EqT1 EqT2].
    rewrite (Hex Em EqT1) in HN. rewrite Z.add_0_r, EqT2 in HN.
    subst N. rewrite Eq. apply ceil_div_mul. lia.
  - (* inexact quotient *)
    assert (Hqb : q * b <= a * P < q * b + b).
    { pose proof (Z.div_mod (a * P) b ltac:(lia)) as D.
      pose proof (Z.mod_pos_bound (a * P) b Hb) as M.
      rewrite <- Hq in D. lia. }
    assert (HaP : a * P = c * P * b + r0 * P) by (subst a; ring).
    assert (Hlow : c * P + T <= q).
    { assert ((c * P + T) * b <= a * P) by nia.
      assert (L : (c * P + T) * b < (q + 1) * b) by lia.
      apply Z.mul_lt_mono_pos_r in L; lia. }
    assert (Hup : q < (c + 1) * P).
    { assert (L : q * b < ((c + 1) * P) * b) by nia.
      apply Z.mul_lt_mono_pos_r in L; lia. }
    apply ceil_div_unique; [lia | ].
    replace (c + 1 - 1) with c by lia.
    destruct HT; subst T.
    + rewrite Z.div_1_r in HN. lia.
    + pose proof (Z.div_mod q 2 ltac:(lia)) as D.
      pose proof (Z.mod_pos_bound q 2 ltac:(lia)) as M.
      lia.
Qed.


Lemma new_location_exact (nb : Z) : new_location nb 0 = loc_Exact.
Proof. unfold new_location. destruct (Z.even nb); reflexivity. Qed.

(** [SFdiv] on two positive 53-digit mantissas: the dividend is shifted
    by 53 bits, divided, and the quotient rounded. *)
Lemma div_finite (m1 m2 : positive) (k1 k2 : Z) :
  2 ^ 52 <= Zpos m1 < 2 ^ 53 -> 2 ^ 52 <= Zpos m2 < 2 ^ 53 ->
  0 <= k1 <= 52 -> 0 <= k2 <= 52 ->
  div (S754_finite false m1 (- k1)) (S754_finite false m2 (- k2)) =
  binary_round_aux prec emax false
    ((Zpos m1 * 2 ^ 53) / Zpos m2) (k2 - k1 - 53)
    (new_location (Zpos m2) ((Zpos m1 * 2 ^ 53) mod Zpos m2)).
Proof.
  intros H1 H2 Hk1 Hk2.
  unfold div, SFdiv, SFdiv_core_binary. cbn [Zdigits2 xorb].
  rewrite (digits2_pos_unique m1 53 H1), (digits2_pos_unique m2 53 H2).
  unfold fexp, emin, prec, emax.
  replace (Z.min (Z.max (53 + - k1 - (53 + - k2) - 53) (3 - 1024 - 53))
             (- k1 - - k2)) with (k2 - k1 - 53) by lia.
  replace (- k1 - - k2 - (k2 - k1 - 53)) with 53 by lia.
  cbv iota beta. rewrite Z.shiftl_mul_pow2 by lia.
  unfold Z.div, Z.modulo.
  destruct (Z.div_eucl (Zpos m1 * 2 ^ 53) (Zpos m2)) as [q r]. reflexivity.
Qed.

(** [std::ceil] of the binary64 quotient of two integers is the integer
    ceiling of their exact quotient: the rounding error of the division
    is too small to reach the next integer. *)
Theorem ceil_of_div (a b : Z) :
  0 < a < 2 ^ 52 -> 0 < b < 2 ^ 53 ->
  ceil (div (of_Z a) (of_Z b)) = of_Z (ceil_div a b).
Proof.
  intros Ha Hb.
  destruct (of_Z_pos a ltac:(lia)) as (m1 & k1 & E1 & Hk1 & Hm1 & Bm1 & Ba).
  destruct (of_Z_pos b ltac:(lia)) as (m2 & k2 & E2 & Hk2 & Hm2 & Bm2 & Bb).
  rewrite E1, E2, div_finite by assumption.
  assert (Hk1' : 1 <= k1).
  { destruct (Z_le_gt_dec 1 k1); auto. replace k1 with 0 in Ba by lia. lia. }
  set (K := k1 + 53 - k2).
  assert (HK : 2 <= K) by (unfold K; lia).
  assert (Hpk2 : 0 < 2 ^ k2) by (apply Z.pow_pos_nonneg; lia).
  assert (EP : Zpos m1 * 2 ^ 53 = (a * 2 ^ K) * 2 ^ k2).
  { rewrite Hm1. unfold K. rewrite <- !Z.mul_assoc, <- !Z.pow_add_r by lia.
    do 2 f_equal. lia. }
  assert (Eq : (Zpos m1 * 2 ^ 53) / Zpos m2 = (a * 2 ^ K) / b).
  { rewrite EP, Hm2. apply Z.div_mul_cancel_r; lia. }
  assert (Er : (Zpos m1 * 2 ^ 53) mod Zpos m2 = ((a * 2 ^ K) mod b) * 2 ^ k2).
  { rewrite EP, Hm2. apply Z.mul_mod_distr_r; lia. }
  set (q := (Zpos m1 * 2 ^ 53) / Zpos m2) in *.
  set (r := (Zpos m1 * 2 ^ 53) mod Zpos m2) in *.
  assert (Bq : 2 ^ 52 <= q < 2 ^ 54).
  { unfold q. split.
    - apply Z.div_le_lower_bound; [lia | ]. nia.
    - apply Z.div_lt_upper_bound; [lia | ]. nia. }
  destruct (binary_round_aux_spec q (k2 - k1 - 53) (new_location (Zpos m2) r) Bq ltac:(lia))
    as (m & e & sh & delta & Eres & Hsh & Hdelta & _ & He & Hv & Hex).
  rewrite Eres.
  (* the divisor fits below the discarded bits *)
  assert (HP : 2 ^ K = 2 * 2 ^ (K - 1)).
  { rewrite <- Z.pow_succ_r by lia. f_equal. lia. }
  assert (HP2 : 0 < 2 ^ (K - 1)) by (apply Z.pow_pos_nonneg; lia).
  assert (HbP : b * 2 <= 2 ^ K).
  { assert (2 ^ (54 - k2) <= 2 ^ K) by (apply Z.pow_le_mono_r; unfold K; lia).
    assert (2 ^ (54 - k2) = 2 * 2 ^ (53 - k2)).
    { rewrite <- Z.pow_succ_r by lia. f_equal. lia. }
    lia. }
  assert (Hexact : (a * 2 ^ K) mod b = 0 -> q mod 2 ^ sh = 0 -> delta = 0).
  { intros Z1 Z2. apply Hex; [ | exact Z2].
    rewrite Er, Z1. apply new_location_exact. }
  pose proof (Z.div_mod a b ltac:(lia)) as Dab.
  pose proof (Z.mod_pos_bound a b ltac:(lia)) as Mab.
  assert (Hc : 0 <= a / b) by (apply Z.div_pos; lia).
  assert (HT : 2 ^ sh = 1 \/ 2 ^ sh = 2) by (destruct Hsh; subst sh; auto).
  assert (HbT : b * 2 ^ sh <= 2 ^ K) by (destruct HT as [-> | ->]; lia).
  pose proof (ceil_core a b (2 ^ K) (2 ^ sh) delta (a / b) (a mod b) q
                ((q / 2 ^ sh + delta) * 2 ^ sh)
                ltac:(lia) Hc Mab ltac:(lia) HT Hdelta
                ltac:(exists (2 ^ (K - 1)); lia) HbT Eq eq_refl Hexact) as Core.
  rewrite <- Hv in Core.
  (* the exponent of the quotient is negative *)
  assert (Hneg : e < 0).
  { destruct (Z_le_gt_dec k2 51); [lia | ].
    assert (k2 = 52) by lia. subst k2.
    assert (b = 1) by (cbn in Bb; lia). subst b.
    assert (delta = 0); [ | lia].
    apply Hexact.
    - apply Z.mod_1_r.
    - rewrite Eq, Z.div_1_r. destruct HT as [-> | ->].
      + apply Z.mod_1_r.
      + rewrite HP. replace (a * (2 * 2 ^ (K - 1))) with (a * 2 ^ (K - 1) * 2) by ring.
        apply Z.mod_mul. lia. }
  unfold ceil. replace (0 <=? e) with false by (symmetry; apply Z.leb_gt; lia).
  cbn [cond_Zopp]. unfold of_Z. f_equal.
  (* scale the ceiling by the remaining bits *)
  assert (EK : 2 ^ K = 2 ^ (- e) * 2 ^ (e - (k2 - k1 - 53))).
  { rewrite <- Z.pow_add_r by lia. f_equal. unfold K. lia. }
  assert (Hp1 : 0 < 2 ^ (- e)) by (apply Z.pow_pos_nonneg; lia).
  assert (Hp2 : 0 < 2 ^ (e - (k2 - k1 - 53))) by (apply Z.pow_pos_nonneg; lia).
  assert (Hscale : ceil_div (Zpos m * 2 ^ (e - (k2 - k1 - 53))) (2 ^ K)
                   = ceil_div (Zpos m) (2 ^ (- e))).
  { unfold ceil_div. rewrite EK. f_equal.
    replace (- (Zpos m * 2 ^ (e - (k2 - k1 - 53))))
      with ((- Zpos m) * 2 ^ (e - (k2 - k1 - 53))) by ring.
    apply Z.div_mul_cancel_r; lia. }
  rewrite <- Hscale, Core.
  (* the integer ceiling of a / b *)
  destruct (Z.eqb_spec (a mod b) 0) as [E0 | E0].
  - symmetry. apply ceil_div_unique; lia.
  - symmetry. apply ceil_div_unique; lia.
Qed.


(** [ceil_div n d] is the least integer [c] with [n <= c * d]. *)
Lemma ceil_div_spec (n d : Z) :
  0 < d -> (ceil_div n d - 1) * d < n <= ceil_div n d * d.
Proof.
  intros Hd. unfold ceil_div.
  pose proof (Z.div_mod (- n) d ltac:(lia)) as D.
  pose proof (Z.mod_pos_bound (- n) d Hd) as M. nia.
Qed.

Lemma of_Z_0 : of_Z 0 = S754_zero false.
Proof. reflexivity. Qed.

Theorem ceil_of_div0 (a b : Z) :
  0 <= a < 2 ^ 52 -> 0 < b < 2 ^ 53 ->
  ceil (div (of_Z a) (of_Z b)) = of_Z (ceil_div a b).
Proof.
  intros Ha Hb. destruct (Z.eq_dec a 0) as [-> | Hne].
  - destruct (of_Z_pos b ltac:(lia)) as (m2 & k2 & E2 & _).
    rewrite E2. reflexivity.
  - apply ceil_of_div; lia.
Qed.

Lemma to_Z_of_Z (c : Z) : 0 <= c < 2 ^ 53 -> to_Z (of_Z c) = c.
Proof.
  intros Hc. destruct (Z.eq_dec c 0) as [-> | Hne]; [reflexivity | ].
  destruct (of_Z_pos c ltac:(lia)) as (m & k & E & Hk & Hm & _).
  rewrite E. unfold to_Z. cbn [cond_Zopp].
  destruct (Z.leb_spec 0 (- k)).
  - replace k with 0 in * by lia. cbn in *. lia.
  - rewrite Hm. replace (- - k) with k by lia. apply Z.div_mul.
    assert (0 < 2 ^ k) by (apply Z.pow_pos_nonneg; lia). lia.
Qed.

Lemma to_size_t_of_Z (c : Z) : 0 <= c < 2 ^ 53 -> to_size_t (of_Z c) = c.
Proof.
  intros Hc. unfold to_size_t. rewrite to_Z_of_Z by assumption.
  apply Z.mod_small. lia.
Qed.

Lemma to_long_of_Z (c : Z) : 0 <= c < 2 ^ 53 -> to_long (of_Z c) = c.
Proof.
  intros Hc. unfold to_long. rewrite to_Z_of_Z by assumption.
  rewrite Z.mod_small by lia. lia.
Qed.

End DoubleFacts.

(** ** The part planner in exact integers *)

Module PlannerFacts.
Import Double DoubleFacts Planner.

Lemma planned_part_size_bounds (os : Z) :
  0 <= os <= kMaxObjectSize ->
  0 <= ceil_div os kMaxMultipartCount <= 549755814 /\
  0 <= ceil_div (ceil_div os kMaxMultipartCount) kMinPartSize <= 105 /\
  os <= planned_part_size os * kMaxMultipartCount /\
  (0 < os -> kMinPartSize <= planned_part_size os).
Proof.
  unfold planned_part_size, kMaxObjectSize, kMaxMultipartCount, kMinPartSize.
  intros H.
  pose proof (ceil_div_spec os 10000 ltac:(lia)) as A.
  pose proof (ceil_div_spec (ceil_div os 10000) (5 * 1024 * 1024) ltac:(lia)) as B.
  lia.
Qed.

Lemma chosen_part_size_exact (os : Z) :
  0 <= os <= kMaxObjectSize -> chosen_part_size os = planned_part_size os.
Proof.
  intros H. destruct (planned_part_size_bounds os H) as (B1 & B2 & _).
  unfold chosen_part_size, planned_part_size.
  rewrite ceil_of_div0
    by (unfold kMaxObjectSize, kMaxMultipartCount in *; lia).
  rewrite ceil_of_div0 by (unfold kMinPartSize; lia).
  rewrite to_size_t_of_Z by lia.
  unfold size_t. apply Z.mod_small.
  unfold kMinPartSize, kMaxMultipartCount in *. lia.
Qed.

(** On a known object size within the limit and a part size that passed
    validation, the planner computes with exact integers. *)
Lemma CalcPartInfo_known (os ps pc : Z) :
  0 <= os <= kMaxObjectSize ->
  ps <= 0 \/ kMinPartSize <= ps <= kMaxPartSize ->
  CalcPartInfo os ps pc =
  let ps1 := if ps <=? 0 then planned_part_size os else ps in
  let ps2 := Z.min ps1 os in
  let count := planned_count os ps2 in
  if count >? kMaxMultipartCount
  then Outcome (TooManyParts os ps2) ps2 count
  else Outcome SUCCESS ps2 count.
Proof.
  intros Hos Hps. unfold CalcPartInfo.
  replace ((ps >? 0) && (ps <? kMinPartSize)) with false
    by (symmetry; apply andb_false_iff; rewrite Z.gtb_ltb, !Z.ltb_ge; lia).
  replace ((ps >? 0) && (ps >? kMaxPartSize)) with false
    by (symmetry; apply andb_false_iff; rewrite !Z.gtb_ltb, !Z.ltb_ge; lia).
  replace ((os >=? 0) && (os >? kMaxObjectSize)) with false
    by (symmetry; apply andb_false_iff; rewrite Z.gtb_ltb, Z.ltb_ge; lia).
  replace (os >=? 0) with true by (symmetry; rewrite Z.geb_leb; apply Z.leb_le; lia).
  cbn [negb andb].
  replace (os <? 0) with false by (symmetry; apply Z.ltb_ge; lia).
  rewrite chosen_part_size_exact by assumption.
  cbv zeta.
  set (ps1 := if ps <=? 0 then planned_part_size os else ps).
  assert (Hps1 : 0 <= ps1 <= kMaxPartSize).
  { unfold ps1. destruct (planned_part_size_bounds os Hos) as (_ & B2 & _).
    unfold planned_part_size, kMaxPartSize, kMinPartSize in *.
    destruct (Z.leb_spec ps 0); lia. }
  unfold size_t. rewrite (Z.mod_small os)
    by (unfold kMaxObjectSize in *; lia).
  assert (Emin : (if ps1 >? os then os else ps1) = Z.min ps1 os).
  { rewrite Z.gtb_ltb. destruct (Z.ltb_spec os ps1); lia. }
  rewrite Emin. set (ps2 := Z.min ps1 os).
  assert (Ecount :
    (if ps2 >? 0
     then to_long (ceil (div (of_Z os) (of_Z ps2)))
     else 1) = planned_count os ps2).
  { unfold planned_count. rewrite Z.gtb_ltb. destruct (Z.ltb_spec 0 ps2); auto.
    rewrite ceil_of_div0
      by (unfold kMaxObjectSize, kMaxPartSize in *; lia).
    apply to_long_of_Z.
    pose proof (ceil_div_spec os ps2 ltac:(lia)).
    unfold kMaxObjectSize in *. nia. }
  rewrite Ecount. reflexivity.
Qed.

End PlannerFacts.

(** ** The part planner: the claims *)

Module PlannerClaims.
Import Double DoubleFacts Planner PlannerFacts.

Ltac limits :=
  unfold kMaxObjectSize, kMaxPartSize, kMinPartSize, kMaxMultipartCount in *.

(** A plan of at most [n] parts exists as soon as [n] parts of that size
    cover the object. *)
Lemma planned_count_le (os ps n : Z) :
  0 < ps -> os <= ps * n -> ceil_div os ps <= n.
Proof.
  intros Hps Hn. pose proof (ceil_div_spec os ps Hps). nia.
Qed.

(** A call that succeeds on a known size passed every validation. *)
Lemma success_inv (os ps pc : Z) :
  0 <= os -> error (CalcPartInfo os ps pc) = SUCCESS ->
  os <= kMaxObjectSize /\ (ps <= 0 \/ kMinPartSize <= ps <= kMaxPartSize).
Proof.
  intros Hos. unfold CalcPartInfo.
  destruct ((ps >? 0) && (ps <? kMinPartSize)) eqn:E1; [discriminate | ].
  destruct ((ps >? 0) && (ps >? kMaxPartSize)) eqn:E2; [discriminate | ].
  destruct ((os >=? 0) && (os >? kMaxObjectSize)) eqn:E3; [discriminate | ].
  intros _.
  apply andb_false_iff in E1, E2, E3.
  rewrite !Z.gtb_ltb, ?Z.geb_leb, !Z.ltb_ge in E1, E2.
  rewrite Z.gtb_ltb, Z.geb_leb, Z.ltb_ge, Z.leb_gt in E3. lia.
Qed.

(** C5: with a known object size of at most 5 TiB and no part size from the
    caller, the planner succeeds (the rejection for too many parts is not
    reached); the part size is the smaller of the object size and the
    ceiling of [object_size / kMaxMultipartCount] rounded up to a multiple
    of [kMinPartSize]; the part count is the ceiling of
    [object_size / part_size], or 1 when the part size is 0; an empty
    object gets part size 0 and part count 1. *)
Theorem CalcPartInfo_chooses_part_size (object_size part_count : Z) :
  0 <= object_size <= kMaxObjectSize ->
  let r := CalcPartInfo object_size 0 part_count in
  error r = SUCCESS /\
  part_size r =
    Z.min object_size
      (ceil_div (ceil_div object_size kMaxMultipartCount) kMinPartSize
       * kMinPartSize) /\
  Planner.part_count r =
    (if part_size r >? 0 then ceil_div object_size (part_size r) else 1) /\
  (object_size = 0 -> part_size r = 0 /\ Planner.part_count r = 1).
Proof.
  intros Hos r. subst r.
  rewrite CalcPartInfo_known by (auto; lia).
  change (0 <=? 0) with true. cbv iota zeta.
  fold (planned_part_size object_size).
  destruct (planned_part_size_bounds object_size Hos) as (_ & _ & Hcover & Hmin).
  set (ps := Z.min (planned_part_size object_size) object_size).
  assert (Hps : 0 <= ps) by (unfold ps; limits; lia).
  assert (Hcount : planned_count object_size ps <= kMaxMultipartCount).
  { unfold planned_count. rewrite Z.gtb_ltb.
    destruct (Z.ltb_spec 0 ps); [ | limits; lia].
    apply planned_count_le; [assumption | ]. unfold ps. limits. lia. }
  replace (planned_count object_size ps >? kMaxMultipartCount) with false
    by (symmetry; rewrite Z.gtb_ltb; apply Z.ltb_ge; exact Hcount).
  cbn [error part_size Planner.part_count].
  split; [reflexivity | ].
  split; [unfold ps; apply Z.min_comm | ].
  split; [reflexivity | ].
  intros ->. assert (ps = 0) by (unfold ps; limits; lia).
  unfold planned_count. replace ps with 0 by lia. split; reflexivity.
Qed.

Lemma CalcPartInfo_chooses_part_size_witness :
  0 <= 1073741824 <= kMaxObjectSize /\
  error (CalcPartInfo 1073741824 0 0) = SUCCESS /\
  part_size (CalcPartInfo 1073741824 0 0) =
    Z.min 1073741824
      (ceil_div (ceil_div 1073741824 kMaxMultipartCount) kMinPartSize
       * kMinPartSize).
Proof.
  assert (H : 0 <= 1073741824 <= kMaxObjectSize) by (limits; lia).
  split; [exact H | ].
  destruct (CalcPartInfo_chooses_part_size 1073741824 0 H)
    as (H1 & H2 & _).
  split; [exact H1 | exact H2].
Defined.

(** C6: with an unknown (negative) object size, a call without a part
    size fails with [PartSizeRequired]; a call with a part size between
    [kMinPartSize] and [kMaxPartSize] succeeds, sets the part count to -1
    and leaves the part size as the caller gave it. *)
Theorem CalcPartInfo_unknown_size (object_size part_size part_count : Z) :
  object_size < 0 ->
  (part_size = 0 ->
   error (CalcPartInfo object_size part_size part_count) = PartSizeRequired)
  /\
  (kMinPartSize <= part_size <= kMaxPartSize ->
   CalcPartInfo object_size part_size part_count
   = Outcome SUCCESS part_size (-1)).
Proof.
  intros Hos. unfold CalcPartInfo.
  replace (object_size >=? 0) with false
    by (symmetry; rewrite Z.geb_leb; apply Z.leb_gt; lia).
  replace (object_size <? 0) with true by (symmetry; apply Z.ltb_lt; lia).
  cbn [negb andb]. split.
  - intros ->. reflexivity.
  - intros Hps.
    replace (part_size >? 0) with true
      by (symmetry; rewrite Z.gtb_ltb; apply Z.ltb_lt; limits; lia).
    replace (part_size <? kMinPartSize) with false
      by (symmetry; apply Z.ltb_ge; lia).
    replace (part_size >? kMaxPartSize) with false
      by (symmetry; rewrite Z.gtb_ltb; apply Z.ltb_ge; lia).
    replace (part_size <=? 0) with false
      by (symmetry; apply Z.leb_gt; limits; lia).
    reflexivity.
Qed.

Lemma CalcPartInfo_unknown_size_witness :
  error (CalcPartInfo (-1) 0 7) = PartSizeRequired /\
  CalcPartInfo (-1) 10485760 7 = Outcome SUCCESS 10485760 (-1).
Proof.
  destruct (CalcPartInfo_unknown_size (-1) 0 7 ltac:(lia)) as [H0 _].
  destruct (CalcPartInfo_unknown_size (-1) 10485760 7 ltac:(lia)) as [_ H1].
  split; [apply H0; reflexivity | apply H1; limits; lia].
Defined.

(** C7: with a known object size of at most 5 TiB and a part size from the
    caller between [kMinPartSize] and [kMaxPartSize], a part count (the
    ceiling of the object size over the clamped part size) above
    [kMaxMultipartCount] makes the call fail with [TooManyParts]; and no
    call at all succeeds with a part count above [kMaxMultipartCount]. *)
Theorem CalcPartInfo_too_many_parts (object_size part_size part_count : Z) :
  (0 <= object_size <= kMaxObjectSize ->
   kMinPartSize <= part_size <= kMaxPartSize ->
   planned_count object_size (Z.min part_size object_size)
     > kMaxMultipartCount ->
   error (CalcPartInfo object_size part_size part_count)
   = TooManyParts object_size (Z.min part_size object_size))
  /\
  (error (CalcPartInfo object_size part_size part_count) = SUCCESS ->
   Planner.part_count (CalcPartInfo object_size part_size part_count)
     <= kMaxMultipartCount).
Proof.
  split.
  - intros Hos Hps Hmany.
    rewrite CalcPartInfo_known by auto.
    replace (part_size <=? 0) with false
      by (symmetry; apply Z.leb_gt; limits; lia).
    cbv iota zeta.
    replace (planned_count object_size (Z.min part_size object_size)
               >? kMaxMultipartCount) with true
      by (symmetry; rewrite Z.gtb_ltb; apply Z.ltb_lt; lia).
    reflexivity.
  - unfold CalcPartInfo.
    destruct ((part_size >? 0) && (part_size <? kMinPartSize));
      [discriminate | ].
    destruct ((part_size >? 0) && (part_size >? kMaxPartSize));
      [discriminate | ].
    destruct ((object_size >=? 0) && (object_size >? kMaxObjectSize));
      [discriminate | ].
    destruct (negb (object_size >=? 0) && (part_size <=? 0));
      [discriminate | ].
    destruct (object_size <? 0); [intros _; cbn; limits; lia | ].
    cbv zeta.
    match goal with
    | |- context [?c >? kMaxMultipartCount] =>
        rewrite (Z.gtb_ltb c); destruct (Z.ltb_spec kMaxMultipartCount c)
    end; [discriminate | ].
    intros _. cbn [Planner.part_count]. assumption.
Qed.

Lemma CalcPartInfo_too_many_parts_witness :
  error (CalcPartInfo kMaxObjectSize kMinPartSize 0)
  = TooManyParts kMaxObjectSize kMinPartSize.
Proof.
  destruct (CalcPartInfo_too_many_parts kMaxObjectSize kMinPartSize 0)
    as [H _].
  apply H; [limits; lia | limits; lia | vm_compute; reflexivity].
Defined.

(** C10: a call that succeeds on a known object size returns a plan that
    covers the object exactly: between 1 and [kMaxMultipartCount] parts;
    a positive part size is at most the object size, all parts but the
    last leave something to upload and all parts together reach the end
    of the object; a part size of 0 means an empty object in one part. *)
Theorem CalcPartInfo_covers_object (object_size part_size part_count : Z) :
  0 <= object_size ->
  error (CalcPartInfo object_size part_size part_count) = SUCCESS ->
  let r := CalcPartInfo object_size part_size part_count in
  1 <= Planner.part_count r <= kMaxMultipartCount /\
  0 <= Planner.part_size r /\
  (Planner.part_size r > 0 ->
   Planner.part_size r <= object_size /\
   Planner.part_size r * (Planner.part_count r - 1) < object_size
     <= Planner.part_size r * Planner.part_count r) /\
  (Planner.part_size r = 0 -> object_size = 0 /\ Planner.part_count r = 1).
Proof.
  intros Hos Hok r. subst r.
  destruct (success_inv _ _ _ Hos Hok) as [Hmax Hps].
  revert Hok. rewrite CalcPartInfo_known by (auto; lia). cbv zeta.
  set (ps1 := if part_size <=? 0 then planned_part_size object_size
              else part_size).
  assert (Hps1 : (0 < object_size -> kMinPartSize <= ps1) /\ 0 <= ps1).
  { unfold ps1.
    destruct (planned_part_size_bounds object_size ltac:(lia))
      as (_ & B & _ & Hmin).
    unfold planned_part_size in *.
    destruct (Z.leb_spec part_size 0); limits; lia. }
  set (ps := Z.min ps1 object_size).
  rewrite Z.gtb_ltb.
  destruct (Z.ltb_spec kMaxMultipartCount (planned_count object_size ps))
    as [Hgt | Hle]; [discriminate | ].
  intros _. cbn [Planner.part_count Planner.part_size].
  unfold planned_count in *. rewrite Z.gtb_ltb in *.
  destruct (Z.ltb_spec 0 ps) as [Hpos | Hzero].
  - pose proof (ceil_div_spec object_size ps Hpos) as C.
    assert (0 < object_size) by (unfold ps in Hpos; lia).
    assert (1 <= ceil_div object_size ps) by nia.
    repeat split; try lia; try (unfold ps; lia); nia.
  - assert (ps = 0) by (unfold ps in *; lia).
    assert (object_size = 0) by (unfold ps in *; limits; lia).
    repeat split; limits; lia.
Qed.

Lemma CalcPartInfo_covers_object_witness :
  let r := CalcPartInfo 5497558138880 0 0 in
  1 <= Planner.part_count r <= kMaxMultipartCount /\
  Planner.part_size r * (Planner.part_count r - 1) < 5497558138880
    <= Planner.part_size r * Planner.part_count r.
Proof.
  destruct (CalcPartInfo_covers_object 5497558138880 0 0 ltac:(lia)
              ltac:(vm_compute; reflexivity)) as (H1 & _ & H2 & _).
  split; [exact H1 | ].
  apply H2. vm_compute. reflexivity.
Defined.

End PlannerClaims.

(** * Further properties *)

(** ** Strings: append, length, substring *)

Module StringFacts.
Local Open Scope string_scope.

Lemma append_nil_r (s : string) : s ++ "" = s.
Proof. induction s as [ | c s IH]; cbn; [reflexivity | now rewrite IH]. Qed.

Lemma append_assoc (a b c : string) : (a ++ b) ++ c = a ++ (b ++ c).
Proof. induction a as [ | x a IH]; cbn; [reflexivity | now rewrite IH]. Qed.

Lemma length_append (a b : string) :
  length (a ++ b) = (length a + length b)%nat.
Proof. induction a as [ | x a IH]; cbn; [reflexivity | now rewrite IH]. Qed.

Lemma substring_0_append (u r : string) : substring 0 (length u) (u ++ r) = u.
Proof.
  induction u as [ | c u IH]; cbn; [now destruct r | now rewrite IH].
Qed.

Lemma substring_skip (u r : string) (m : nat) :
  substring (length u) m (u ++ r) = substring 0 m r.
Proof. induction u as [ | c u IH]; cbn; [reflexivity | exact IH]. Qed.

Lemma substring_0_length (s : string) : substring 0 (length s) s = s.
Proof. rewrite <- (append_nil_r s) at 2. apply substring_0_append. Qed.

Lemma substring_prefix (s : string) (n : nat) :
  exists r, s = substring 0 n s ++ r.
Proof.
  revert n. induction s as [ | c s IH]; intros [ | n]; cbn.
  - now exists "".
  - now exists "".
  - now exists (String c s).
  - destruct (IH n) as [r Hr]. exists r. now rewrite <- Hr.
Qed.

Lemma substring_suffix (s : string) (n : nat) :
  (n <= length s)%nat ->
  exists p, s = p ++ substring n (length s - n) s /\ length p = n.
Proof.
  revert n. induction s as [ | c s IH]; intros [ | n] Hn; cbn in *.
  - now exists "".
  - lia.
  - exists "". cbn. now rewrite substring_0_length.
  - destruct (IH n ltac:(lia)) as (p & Hp & Hl).
    exists (String c p). cbn. now rewrite <- Hp, Hl.
Qed.

Lemma get_append_right (u r : string) (i : nat) :
  get (length u + i) (u ++ r) = get i r.
Proof. induction u as [ | c u IH]; cbn; [reflexivity | exact IH]. Qed.

Lemma get_Some_lt (s : string) (i : nat) :
  (i < length s)%nat -> exists c, get i s = Some c.
Proof.
  revert i. induction s as [ | c s IH]; intros i Hi; cbn in *; [lia | ].
  destruct i as [ | i]; [now exists c | apply IH; lia].
Qed.

Lemma substring_snoc (s : string) (l : nat) (c : ascii) :
  get l s = Some c ->
  substring 0 (S l) s = substring 0 l s ++ String c "".
Proof.
  revert l. induction s as [ | x s IH]; intros l H; cbn in H; [discriminate | ].
  destruct l as [ | l].
  - inversion H; subst. cbn. now destruct s.
  - cbn [substring append]. cbn [substring] in IH. now rewrite (IH l H).
Qed.

Lemma length_substring_0 (s : string) (n : nat) :
  (n <= length s)%nat -> length (substring 0 n s) = n.
Proof.
  revert n. induction s as [ | c s IH]; intros [ | n] Hn; cbn in *; try lia.
  rewrite IH; lia.
Qed.

End StringFacts.

(** ** Trim and the tests on strings *)

Module TrimFacts.
Import Utils StringFacts.
Local Open Scope string_scope.

Lemma repeat_char_snoc (ch : ascii) (n : nat) :
  repeat_char ch n ++ String ch "" = repeat_char ch (S n).
Proof. induction n as [ | n IH]; cbn; [reflexivity | ]. now rewrite IH. Qed.

Lemma length_repeat_char (ch : ascii) (n : nat) :
  length (repeat_char ch n) = n.
Proof. induction n as [ | n IH]; cbn; [reflexivity | now rewrite IH]. Qed.

(** The first loop stops on the first byte that is not [ch]. *)
Lemma trim_start_spec (str : string) (ch : ascii) :
  exists t, str = repeat_char ch (trim_start str ch) ++ t /\
            first_char t <> Some ch.
Proof.
  induction str as [ | c s (t & Ht & Hf)]; cbn [trim_start].
  - exists "". split; [reflexivity | discriminate].
  - destruct (Ascii.eqb_spec c ch) as [-> | Hne].
    + exists t. cbn. now rewrite <- Ht.
    + exists (String c s). split; [reflexivity | ].
      cbn. intros E. inversion E. contradiction.
Qed.

Lemma trim_len_shift (u t : string) (ch : ascii) (len : nat) :
  trim_len (u ++ t) ch (length u) len = trim_len t ch 0 len.
Proof.
  induction len as [ | l IH]; cbn [trim_len]; [reflexivity | ].
  rewrite get_append_right. cbn [Nat.add].
  destruct (get l t) as [c | ]; [ | reflexivity].
  destruct (Ascii.eqb c ch); [exact IH | reflexivity].
Qed.

(** The second loop stops after the last byte that is not [ch]. *)
Lemma trim_len_spec (t : string) (ch : ascii) (len : nat) :
  (len <= length t)%nat ->
  let l := trim_len t ch 0 len in
  (l <= len)%nat /\
  substring 0 len t = substring 0 l t ++ repeat_char ch (len - l) /\
  (forall i, l = S i -> get i t <> Some ch).
Proof.
  induction len as [ | n IH]; intros Hlen; cbn [trim_len Nat.add].
  - cbv zeta. repeat split; [lia | | intros i E; discriminate].
    cbn. now destruct t.
  - destruct (get_Some_lt t n ltac:(lia)) as [c Hc]. rewrite Hc.
    destruct (Ascii.eqb_spec c ch) as [-> | Hne].
    + destruct (IH ltac:(lia)) as (H1 & H2 & H3). cbv zeta in *.
      repeat split; [lia | | exact H3].
      rewrite (substring_snoc t n ch Hc), H2, append_assoc, repeat_char_snoc.
      do 2 f_equal. lia.
    + cbv zeta. repeat split; [lia | | ].
      * replace (S n - S n)%nat with O by lia. cbn [repeat_char].
        now rewrite append_nil_r.
      * intros i E. inversion E; subst. rewrite Hc. intros F.
        inversion F. contradiction.
Qed.

Lemma last_char_snoc (s : string) (c : ascii) :
  last_char (s ++ String c "") = Some c.
Proof.
  induction s as [ | x s IH]; cbn; [reflexivity | ].
  destruct (s ++ String c "") eqn:E; [ | exact IH].
  destruct s; discriminate.
Qed.

Lemma last_char_get (s : string) (i : nat) :
  length s = S i -> last_char s = get i s.
Proof.
  revert i. induction s as [ | x s IH]; intros i H; cbn in H; [discriminate | ].
  destruct s as [ | y s].
  - cbn in H. inversion H. reflexivity.
  - destruct i as [ | i]; [cbn in H; lia | ].
    cbn [last_char get]. apply IH. cbn in *. lia.
Qed.

Lemma get_substring_0 (s : string) (n i : nat) :
  (i < n)%nat -> get i (substring 0 n s) = get i s.
Proof.
  intros H. rewrite substring_correct1 by assumption. f_equal. lia.
Qed.

(** The string is [n] times [ch], the result of [Trim], and [k] times
    [ch]; the result neither begins nor ends with [ch]. *)
Lemma Trim_parts (str : string) (ch : ascii) :
  (exists n k,
     str = repeat_char ch n ++ Trim str ch ++ repeat_char ch k) /\
  first_char (Trim str ch) <> Some ch /\
  last_char (Trim str ch) <> Some ch.
Proof.
  destruct (trim_start_spec str ch) as (t & Ht & Hf).
  set (start := trim_start str ch) in *.
  assert (Hlen : (length str - start = length t)%nat).
  { rewrite Ht at 1. rewrite length_append, length_repeat_char. lia. }
  assert (Hshift : forall len,
             trim_len str ch start len = trim_len t ch 0 len).
  { intros len. rewrite Ht at 1.
    rewrite <- (length_repeat_char ch start) at 2. apply trim_len_shift. }
  destruct (trim_len_spec t ch (length t) (le_n _)) as (H1 & H2 & H3).
  cbv zeta in *. set (l := trim_len t ch 0 (length t)) in *.
  assert (ET : Trim str ch = substring 0 l t).
  { unfold Trim. fold start. rewrite Hlen, Hshift. fold l.
    rewrite Ht at 1. rewrite <- (length_repeat_char ch start) at 1.
    apply substring_skip. }
  rewrite ET. split; [ | split].
  - exists start, (length t - l)%nat. rewrite <- H2, substring_0_length.
    exact Ht.
  - unfold first_char in *. destruct l as [ | l']; [cbn; destruct t; discriminate | ].
    rewrite get_substring_0 by lia. exact Hf.
  - destruct l as [ | l'] eqn:El; [cbn; destruct t; discriminate | ].
    rewrite (last_char_get _ l') by (apply length_substring_0; lia).
    rewrite get_substring_0 by lia. now apply H3.
Qed.

Lemma first_char_repeat (ch : ascii) (n : nat) (s : string) :
  first_char (repeat_char ch (S n) ++ s) = Some ch.
Proof. reflexivity. Qed.

Lemma last_char_repeat (ch : ascii) (k : nat) (s : string) :
  last_char (s ++ repeat_char ch (S k)) = Some ch.
Proof.
  rewrite <- repeat_char_snoc, <- append_assoc. apply last_char_snoc.
Qed.

(** A string that neither begins nor ends with [ch] is left as it is;
    only such strings are. *)
Lemma Trim_fixed_iff (str : string) (ch : ascii) :
  Trim str ch = str <->
  first_char str <> Some ch /\ last_char str <> Some ch.
Proof.
  destruct (Trim_parts str ch) as ((n & k & E) & Hf & Hl). split.
  - intros <-. now split.
  - intros [Hf' Hl'].
    destruct n as [ | n];
      [ | rewrite E in Hf'; now rewrite first_char_repeat in Hf'].
    change (repeat_char ch 0) with "" in E. cbn [append] in E.
    destruct k as [ | k].
    + change (repeat_char ch 0) with "" in E.
      now rewrite append_nil_r in E.
    + rewrite E in Hl'. now rewrite last_char_repeat in Hl'.
Qed.

(** [Trim] takes away the bytes [ch] at both ends and nothing else: the
    string is [n] times [ch], the result, and [k] times [ch], and the
    result neither begins nor ends with [ch].  So a string is left as it
    is exactly when it neither begins nor ends with [ch], and [Trim]
    changes nothing when applied again. *)
Theorem Trim_spec (str : string) (ch : ascii) :
  (exists n k,
     str = repeat_char ch n ++ Trim str ch ++ repeat_char ch k) /\
  first_char (Trim str ch) <> Some ch /\
  last_char (Trim str ch) <> Some ch /\
  (Trim str ch = str <->
   first_char str <> Some ch /\ last_char str <> Some ch) /\
  Trim (Trim str ch) ch = Trim str ch.
Proof.
  destruct (Trim_parts str ch) as (Hp & Hf & Hl).
  repeat split; try assumption.
  - now apply Trim_fixed_iff.
  - now apply Trim_fixed_iff.
  - intros H. now apply Trim_fixed_iff.
  - apply Trim_fixed_iff. now split.
Qed.

(** [Trim] gives the empty string exactly on the strings made of [ch]
    only. *)
Lemma Trim_empty_iff (str : string) (ch : ascii) :
  Trim str ch = "" <-> exists n, str = repeat_char ch n.
Proof.
  split.
  - intros E. destruct (Trim_parts str ch) as ((n & k & H) & _).
    rewrite E in H. cbn [append] in H. exists (n + k)%nat. rewrite H.
    clear. induction n as [ | n IH]; cbn; [reflexivity | now rewrite IH].
  - intros [n ->]. unfold Trim.
    assert (S : forall m, trim_start (repeat_char ch m) ch = m).
    { induction m as [ | m IH]; cbn; [reflexivity | ].
      now rewrite Ascii.eqb_refl, IH. }
    rewrite S, length_repeat_char, Nat.sub_diag. cbn [trim_len].
    clear. generalize (repeat_char ch n) as s. intros s.
    revert s. induction n as [ | n IH]; intros [ | c s]; cbn; auto.
Qed.

(** [CheckNonEmptyString] accepts the strings that are not empty and
    neither begin nor end with the default byte of [Trim]. *)
Theorem CheckNonEmptyString_spec (default_ch : ascii) (str : string) :
  CheckNonEmptyString default_ch str = true <->
  str <> "" /\ first_char str <> Some default_ch /\
  last_char str <> Some default_ch.
Proof.
  unfold CheckNonEmptyString, Str.eqb.
  rewrite andb_true_iff, negb_true_iff, Stdlib.Strings.String.eqb_eq,
    Trim_fixed_iff.
  assert (E : Str.is_empty str = false <-> str <> "")
    by (destruct str; cbn; split; congruence).
  rewrite E. tauto.
Qed.

(** [StartsWith]: the string is the prefix followed by something;
    [EndsWith]: it is something followed by the suffix. *)
Theorem StartsWith_EndsWith_spec (str affix : string) :
  (StartsWith str affix = true <-> exists rest, str = affix ++ rest) /\
  (EndsWith str affix = true <-> exists before, str = before ++ affix).
Proof.
  unfold StartsWith, EndsWith, Str.eqb.
  rewrite !andb_true_iff, !Nat.leb_le, !Stdlib.Strings.String.eqb_eq.
  split; split.
  - intros [_ E]. destruct (substring_prefix str (length affix)) as [r Hr].
    exists r. now rewrite E in Hr.
  - intros [rest ->]. rewrite length_append, substring_0_append.
    split; [lia | reflexivity].
  - intros [Hle E].
    destruct (substring_suffix str (length str - length affix) ltac:(lia))
      as (p & Hp & _).
    exists p.
    replace (length str - (length str - length affix))%nat
      with (length affix) in Hp by lia.
    now rewrite E in Hp.
  - intros [before ->]. rewrite length_append. split; [lia | ].
    replace (length before + length affix - length affix)%nat
      with (length before) by lia.
    rewrite substring_skip. apply substring_0_length.
Qed.

(** [Contains] on a string: there is an occurrence somewhere. *)
Lemma Contains_occurs (str substr : string) :
  ContainsStr str substr = true <->
  exists before after, str = before ++ substr ++ after.
Proof.
  split.
  - induction str as [ | c s IH]; cbn [ContainsStr];
      rewrite orb_true_iff; unfold Str.eqb;
      rewrite Stdlib.Strings.String.eqb_eq.
    + intros [E | F]; [ | discriminate].
      exists "", "". cbn. rewrite append_nil_r.
      destruct substr; [reflexivity | cbn in E; discriminate].
    + intros [E | H].
      * destruct (substring_prefix (String c s) (length substr)) as [r Hr].
        exists "", r. now rewrite E in Hr.
      * destruct (IH H) as (a & b & ->). now exists (String c a), b.
  - intros (before & after & ->).
    induction before as [ | c a IH]; cbn [append].
    + destruct (substr ++ after) eqn:E; cbn [ContainsStr];
        rewrite <- E, substring_0_append; unfold Str.eqb;
        now rewrite Stdlib.Strings.String.eqb_refl.
    + cbn [ContainsStr]. rewrite IH. apply orb_true_r.
Qed.

(** The two forms of [Contains] answer true exactly when the string, or
    the character, occurs somewhere in [str]. *)
Theorem Contains_spec (str substr : string) (ch : ascii) :
  (ContainsStr str substr = true <->
   exists before after, str = before ++ substr ++ after) /\
  (ContainsChar str ch = true <->
   exists before after, str = before ++ String ch after).
Proof.
  split; [apply Contains_occurs | ]. split.
  - induction str as [ | c s IH]; cbn [ContainsChar]; [discriminate | ].
    rewrite orb_true_iff. intros [E | H].
    + apply Ascii.eqb_eq in E. subst. now exists "", s.
    + destruct (IH H) as (a & b & ->). now exists (String c a), b.
  - intros (before & after & ->).
    induction before as [ | c a IH]; cbn [append ContainsChar].
    + now rewrite Ascii.eqb_refl.
    + rewrite IH. apply orb_true_r.
Qed.

End TrimFacts.

(** ** ToLower, StringToBool, Join, the folding of spaces *)

Module HelperFacts.
Import Str Utils StringFacts.
Local Open Scope string_scope.

Lemma tolower_cases (c : ascii) :
  let n := nat_of_ascii c in
  ((65 <= n <= 90)%nat /\ tolower c = ascii_of_nat (n + 32) /\
   nat_of_ascii (tolower c) = (n + 32)%nat) \/
  (~ (65 <= n <= 90)%nat /\ tolower c = c).
Proof.
  cbv zeta. unfold tolower.
  destruct (Nat.leb_spec 65 (nat_of_ascii c));
    destruct (Nat.leb_spec (nat_of_ascii c) 90); cbn [andb];
    [left | right | right | right]; try (split; [lia | reflexivity]).
  split; [lia | ]. split; [reflexivity | ].
  apply nat_ascii_embedding. lia.
Qed.

Lemma tolower_idempotent (c : ascii) : tolower (tolower c) = tolower c.
Proof.
  destruct (tolower_cases c) as [(Hn & E & Hv) | (Hn & E)].
  - destruct (tolower_cases (tolower c)) as [(Hn' & _) | (_ & E')];
      [rewrite Hv in Hn'; lia | exact E'].
  - now rewrite E.
Qed.

Lemma tolower_same_letter (c d : ascii) :
  tolower c = tolower d -> same_letter c d = true.
Proof.
  intros H. unfold same_letter. apply orb_true_iff.
  destruct (Ascii.eqb_spec c d) as [E | Hne]; [now left | right].
  cbv zeta.
  destruct (tolower_cases c) as [(Hc & Ec & Vc) | (Hc & Ec)];
    destruct (tolower_cases d) as [(Hd & Ed & Vd) | (Hd & Ed)].
  - exfalso. apply Hne. rewrite H in Vc. rewrite Vc in Vd.
    rewrite <- (ascii_nat_embedding c), <- (ascii_nat_embedding d).
    f_equal. lia.
  - rewrite Ed in H. rewrite H in Vc.
    apply orb_true_iff. left.
    repeat (apply andb_true_iff; split);
      [apply Nat.leb_le; lia | apply Nat.leb_le; lia | apply Nat.eqb_eq; lia].
  - rewrite Ec in H. rewrite <- H in Vd.
    apply orb_true_iff. right.
    repeat (apply andb_true_iff; split);
      [apply Nat.leb_le; lia | apply Nat.leb_le; lia | apply Nat.eqb_eq; lia].
  - exfalso. apply Hne. now rewrite <- Ec, <- Ed.
Qed.

Lemma ToLower_eq_iff (s t : string) :
  ToLower s = ToLower t <-> differ_only_in_case s t = true.
Proof.
  split.
  - revert t. induction s as [ | c s IH]; intros [ | d t]; cbn;
      try discriminate; auto.
    intros E. inversion E as [[E1 E2]]. apply andb_true_iff.
    split; [now apply tolower_same_letter | now apply IH].
  - apply StrFacts.differ_only_in_case_ToLower.
Qed.

(** [ToLower] keeps the length, changes nothing when applied again, and
    gives the same result on two strings exactly when they differ only
    in the case of their ASCII letters. *)
Theorem ToLower_properties (s t : string) :
  length (ToLower s) = length s /\
  ToLower (ToLower s) = ToLower s /\
  (ToLower s = ToLower t <-> differ_only_in_case s t = true).
Proof.
  split; [ | split].
  - induction s as [ | c s IH]; cbn; [reflexivity | now rewrite IH].
  - induction s as [ | c s IH]; cbn; [reflexivity | ].
    now rewrite tolower_idempotent, IH.
  - apply ToLower_eq_iff.
Qed.

(** [StringToBool] answers on the case variants of ["true"] and
    ["false"], and on nothing else. *)
Theorem StringToBool_spec (str : string) (b : bool) :
  StringToBool str = Some b <->
  differ_only_in_case str (if b then "true" else "false") = true.
Proof.
  rewrite <- ToLower_eq_iff.
  unfold StringToBool, Str.eqb.
  destruct (Stdlib.Strings.String.eqb_spec (ToLower str) "false") as [E | N1].
  - rewrite E. destruct b; split; intros H; try discriminate; reflexivity.
  - destruct (Stdlib.Strings.String.eqb_spec (ToLower str) "true") as [E | N2].
    + rewrite E. destruct b; split; intros H; try discriminate; reflexivity.
    + destruct b; split; intros H; try discriminate; cbn in H; contradiction.
Qed.

(** *** Join *)

Lemma Join_loop (delimiter : string) (values : list string) :
  forall result, result <> "" ->
    fold_left
      (fun result value =>
         (if is_empty result then result else result ++ delimiter) ++ value)
      values result
    = result ++ fold_right (fun v acc => delimiter ++ v ++ acc) "" values.
Proof.
  induction values as [ | v vs IH]; intros result Hne;
    cbn [fold_left fold_right].
  - now rewrite append_nil_r.
  - destruct result as [ | x result]; [contradiction | ]. cbn [is_empty].
    rewrite IH by (cbn; discriminate). now rewrite !append_assoc.
Qed.

Lemma concat_cons (delimiter v : string) (vs : list string) :
  Stdlib.Strings.String.concat delimiter (v :: vs)
  = v ++ fold_right (fun x acc => delimiter ++ x ++ acc) "" vs.
Proof.
  revert v. induction vs as [ | w vs IH]; intros v.
  - cbn. now rewrite append_nil_r.
  - change (Stdlib.Strings.String.concat delimiter (v :: w :: vs))
      with (v ++ delimiter ++ Stdlib.Strings.String.concat delimiter (w :: vs)).
    now rewrite IH.
Qed.

(** [Join] puts the delimiter between the values, except that the empty
    strings at the head of the list are dropped without a delimiter. *)
Theorem Join_spec (values : list string) (delimiter : string) :
  Join values delimiter
  = Stdlib.Strings.String.concat delimiter (drop_leading_empty values).
Proof.
  unfold Join. induction values as [ | v vs IH]; [reflexivity | ].
  destruct v as [ | c v].
  - cbn [fold_left is_empty append drop_leading_empty]. exact IH.
  - cbn [fold_left is_empty append drop_leading_empty].
    rewrite Join_loop by discriminate. now rewrite concat_cons.
Qed.

(** *** The folding of spaces *)

Lemma replace_spaces_true_first (v : string) :
  first_char (replace_spaces true v) <> Some space.
Proof.
  induction v as [ | c s IH]; cbn [replace_spaces]; [discriminate | ].
  destruct (Ascii.eqb_spec c space) as [E | N]; [exact IH | ].
  cbn. intros F. inversion F. contradiction.
Qed.

Lemma replace_spaces_no_run (v : string) :
  forall in_run a r,
    replace_spaces in_run v <> a ++ String space (String space r).
Proof.
  induction v as [ | c s IH]; intros in_run a r; cbn [replace_spaces].
  - destruct a; discriminate.
  - destruct (Ascii.eqb_spec c space) as [E | N].
    + destruct in_run; [apply IH | ].
      destruct a as [ | x a]; cbn [append]; intros F.
      * injection F as F1. apply (replace_spaces_true_first s).
        rewrite F1. reflexivity.
      * injection F as _ F2. now apply IH in F2.
    + destruct a as [ | x a]; cbn [append]; intros F.
      * injection F as F0 _. contradiction.
      * injection F as _ F2. now apply IH in F2.
Qed.

Lemma replace_spaces_fixed (v : string) :
  (forall a r, v <> a ++ String space (String space r)) ->
  replace_spaces false v = v /\
  (first_char v <> Some space -> replace_spaces true v = v).
Proof.
  induction v as [ | c s IH]; intros Hv; cbn [replace_spaces]; [now split | ].
  assert (Hs : forall a r, s <> a ++ String space (String space r)).
  { intros a r E. apply (Hv (String c a) r). cbn. now rewrite E. }
  destruct (IH Hs) as [IH1 IH2].
  destruct (Ascii.eqb_spec c space) as [E | N].
  - subst c. split.
    + rewrite IH2; [reflexivity | ].
      intros F. destruct s as [ | y s]; [discriminate | ].
      cbn in F. inversion F; subst. now apply (Hv "" s).
    + intros F. now elim F.
  - split; [now rewrite IH1 | intros _; now rewrite IH1].
Qed.

(** The replacement by [MULTI_SPACE_REGEX] leaves no two spaces side by
    side, changes nothing in a value that has none, and so changes
    nothing when applied again. *)
Theorem regex_replace_multi_space_spec (v : string) :
  ContainsStr (regex_replace_multi_space v) "  " = false /\
  (ContainsStr v "  " = false -> regex_replace_multi_space v = v) /\
  regex_replace_multi_space (regex_replace_multi_space v)
  = regex_replace_multi_space v.
Proof.
  assert (H1 : forall a r, regex_replace_multi_space v
                           <> a ++ String space (String space r))
    by apply replace_spaces_no_run.
  assert (C : forall w, ContainsStr w "  " = false <->
                        forall a r, w <> a ++ String space (String space r)).
  { intros w. rewrite <- not_true_iff_false, TrimFacts.Contains_occurs. split.
    - intros H a r E. apply H. now exists a, r.
    - intros H (a & r & E). now apply (H a r). }
  split; [apply (proj2 (C _)); exact H1 | ]. split.
  - intros H. pose proof (proj1 (C v) H) as H'.
    now apply replace_spaces_fixed.
  - now apply replace_spaces_fixed.
Qed.

End HelperFacts.

(** ** Printable and Int *)

Module BytesFacts.
Import Str Utils StringFacts.
Local Open Scope string_scope.

Lemma all_bytes_append (p : ascii -> bool) (a b : string) :
  all_bytes p (a ++ b) = all_bytes p a && all_bytes p b.
Proof.
  induction a as [ | c a IH]; cbn; [reflexivity | ].
  now rewrite IH, andb_assoc.
Qed.

Lemma hex_digit_printable (d : nat) :
  (d < 16)%nat -> printable_byte (hex_digit d) = true.
Proof.
  intros H. do 16 (destruct d as [ | d]; [reflexivity | ]). lia.
Qed.

Lemma hex2_printable (ch : ascii) : all_bytes printable_byte (hex2 ch) = true.
Proof.
  unfold hex2. pose proof (nat_ascii_bounded ch) as B.
  cbn [all_bytes]. rewrite !hex_digit_printable; [reflexivity | | ].
  - apply Nat.mod_upper_bound. lia.
  - apply Nat.Div0.div_lt_upper_bound. lia.
Qed.

(** The test of [Printable] is the same whether [char] is signed or not:
    it fails exactly on the bytes 33 to 126. *)
Lemma Printable_test (ch : ascii) :
  ((char_value ch <? 33)%Z || (char_value ch >? 126)%Z)
  = negb (printable_byte ch).
Proof.
  unfold char_value, printable_byte. pose proof (nat_ascii_bounded ch) as B.
  set (n := nat_of_ascii ch) in *. rewrite Z.gtb_ltb.
  destruct (Z.ltb_spec (Z.of_nat n) 128);
    destruct (Nat.leb_spec 33 n); destruct (Nat.leb_spec n 126);
    cbn [andb negb];
    repeat match goal with
           | |- context [(?a <? ?b)%Z] => destruct (Z.ltb_spec a b)
           end; cbn [orb]; try reflexivity; lia.
Qed.

(** [Printable] gives only bytes from 33 to 126, leaves a string of such
    bytes as it is, and so changes nothing when applied again. *)
Theorem Printable_spec (s : string) :
  all_bytes printable_byte (Printable s) = true /\
  (all_bytes printable_byte s = true -> Printable s = s) /\
  Printable (Printable s) = Printable s.
Proof.
  assert (H1 : forall t, all_bytes printable_byte (Printable t) = true).
  { induction t as [ | ch t IH]; cbn [Printable]; [reflexivity | ].
    rewrite all_bytes_append, IH, Printable_test, andb_true_r.
    destruct (printable_byte ch) eqn:E; cbn [negb].
    - cbn. now rewrite E.
    - rewrite all_bytes_append, hex2_printable. reflexivity. }
  assert (H2 : forall t, all_bytes printable_byte t = true -> Printable t = t).
  { induction t as [ | ch t IH]; cbn [Printable all_bytes]; [reflexivity | ].
    intros H. apply andb_true_iff in H. destruct H as [Hc Ht].
    rewrite Printable_test, Hc, (IH Ht). reflexivity. }
  split; [apply H1 | ]. split; [apply H2 | apply H2, H1].
Qed.


Lemma byte_at_bound (i : nat) (str : string) (d : Z) :
  byte_at i str = Some d -> (0 <= d < 256)%Z.
Proof.
  unfold byte_at. destruct (get i str) as [c | ]; [ | discriminate].
  cbn. intros E. inversion E. pose proof (nat_ascii_bounded c). lia.
Qed.




End BytesFacts.

(** ** The Multimap: Add, Keys, the header lines *)

Module MultimapFacts.
Import Multimap Trace Lookups ContainerFacts StrFacts TraceFacts InvariantFacts.
Local Open Scope string_scope.

#[local] Instance string_eq_dec' :
  forall x y : string, BoolSpec (x = y) (x <> y) (Stdlib.Strings.String.eqb x y) :=
  coqutil.Decidable.String.eqb_spec.

Lemma set_ext (s1 s2 : string_set) :
  (forall x, In x (elements s1) <-> In x (elements s2)) -> s1 = s2.
Proof.
  intros H. apply map.map_ext. intros k.
  pose proof (H k) as Hk. rewrite !In_elements in Hk.
  destruct (map.get s1 k) as [[] | ] eqn:E1;
    destruct (map.get s2 k) as [[] | ] eqn:E2; try reflexivity.
  - exfalso. assert (F : @None unit = Some tt) by (apply Hk; reflexivity).
    discriminate F.
  - exfalso. assert (F : @None unit = Some tt) by (apply Hk; reflexivity).
    discriminate F.
Qed.

Lemma set_insert_idempotent (s : string_set) (v : string) :
  set_insert (set_insert s v) v = set_insert s v.
Proof. apply set_ext. intros x. rewrite !elements_insert. tauto. Qed.

Lemma set_insert_comm (s : string_set) (v w : string) :
  set_insert (set_insert s v) w = set_insert (set_insert s w) v.
Proof. apply set_ext. intros x. rewrite !elements_insert. tauto. Qed.

Lemma index_insert_idempotent (m : SortedListString.map string_set)
  (k v : string) :
  index_insert (index_insert m k v) k v = index_insert m k v.
Proof.
  apply map.map_ext. intros k'. rewrite !get_index_insert.
  destruct (Stdlib.Strings.String.eqb_spec k k') as [<- | Hne]; [ | reflexivity].
  rewrite lookup_index_insert, Stdlib.Strings.String.eqb_refl.
  now rewrite set_insert_idempotent.
Qed.

Lemma index_insert_comm (m : SortedListString.map string_set)
  (a x b y : string) :
  index_insert (index_insert m a x) b y
  = index_insert (index_insert m b y) a x.
Proof.
  apply map.map_ext. intros k'. rewrite !get_index_insert.
  rewrite !lookup_index_insert.
  destruct (Stdlib.Strings.String.eqb_spec a b) as [<- | Hab].
  - rewrite Stdlib.Strings.String.eqb_refl.
    destruct (Stdlib.Strings.String.eqb_spec a k'); [ | reflexivity].
    now rewrite set_insert_comm.
  - destruct (Stdlib.Strings.String.eqb_spec b a) as [E | _];
      [now elim Hab | ].
    destruct (Stdlib.Strings.String.eqb_spec a k') as [Eak | Hak];
      destruct (Stdlib.Strings.String.eqb_spec b k') as [Ebk | Hbk];
      try reflexivity.
    elim Hab. congruence.
Qed.

(** Adding a pair a second time changes nothing, and the order in which
    two pairs are added does not matter. *)
Theorem Add_idempotent_commutative (h : Multimap.t)
  (k1 v1 k2 v2 : string) :
  Add (Add h k1 v1) k1 v1 = Add h k1 v1 /\
  Add (Add h k1 v1) k2 v2 = Add (Add h k2 v2) k1 v1.
Proof.
  unfold Add. cbn [map_ keys_]. split.
  - now rewrite !index_insert_idempotent.
  - now rewrite (index_insert_comm (map_ h)), (index_insert_comm (keys_ h)).
Qed.


(** *** Keys *)

Lemma keys_value {V : Type} (m : SortedListString.map V) :
  map.keys m = List.map fst (SortedList.value m).
Proof.
  unfold map.keys. cbn [map.fold SortedListString.map SortedList.map].
  induction (SortedList.value m) as [ | [k v] l IH]; cbn [fold_right List.map];
    [reflexivity | now rewrite IH].
Qed.

Lemma sorted_Sorted {V : Type} (l : list (string * V)) :
  SortedList.sorted (p := SortedListString.Build_parameters V) l = true ->
  Sorted lt (List.map fst l).
Proof.
  induction l as [ | [k1 v1] l IH]; cbn [List.map]; [constructor | ].
  destruct l as [ | [k2 v2] l'].
  - intros _. repeat constructor.
  - cbn [SortedList.sorted]. intros H. apply andb_true_iff in H.
    destruct H as [H1 H2]. constructor; [now apply IH | ].
    constructor. exact H1.
Qed.

Lemma keys_Sorted {V : Type} (m : SortedListString.map V) :
  Sorted lt (map.keys m).
Proof. rewrite keys_value. apply sorted_Sorted, SortedList._value_ok. Qed.

(** [Keys] lists the lower-cased keys in ascending order, each once; they
    are the keys on which [Contains] answers true. *)
Theorem Keys_spec (h : Multimap.t) :
  Sorted lt (Keys h) /\ NoDup (Keys h) /\
  (forall key, Contains h key = true <-> In (Str.ToLower key) (Keys h)).
Proof.
  split; [apply keys_Sorted | ]. split; [apply map.keys_NoDup | ].
  intros key. unfold Contains, Keys. split.
  - destruct (map.get (keys_ h) (Str.ToLower key)) as [s | ] eqn:E;
      [ | discriminate].
    intros _. eapply map.in_keys. exact E.
  - intros H. apply map.in_keys_inv in H.
    destruct (map.get (keys_ h) (Str.ToLower key)) eqn:E; [reflexivity | ].
    exfalso. apply H. exact E.
Qed.

(** *** ToHttpHeaders *)

Lemma ToHttpHeaders_holds (h : Multimap.t) (line : string) :
  In line (ToHttpHeaders h) <->
  exists key value, holds (map_ h) key value /\ line = key ++ ": " ++ value.
Proof.
  unfold ToHttpHeaders. rewrite in_flat_map. split.
  - intros ([key values] & Hin & Hline). apply in_map_iff in Hline.
    destruct Hline as (value & <- & Hv). apply map.tuples_spec in Hin.
    exists key, value. split; [ | reflexivity]. now exists values.
  - intros (key & value & (values & Hg & Hv) & ->).
    exists (key, values). split; [now apply map.tuples_spec | ].
    apply in_map_iff. now exists value.
Qed.

(** After any sequence of calls, [ToHttpHeaders] has the line
    [key: value] exactly for the pairs that were added, with the
    spelling of the key they were added under. *)
Theorem ToHttpHeaders_run (ops : list op) (line : string) :
  In line (ToHttpHeaders (run ops)) <->
  exists key value, added ops key value /\ line = key ++ ": " ++ value.
Proof.
  rewrite ToHttpHeaders_holds. destruct (run_holds ops) as [Hm _].
  split; intros (key & value & H & E); exists key, value;
    (split; [now apply Hm | exact E]).
Qed.

(** *** What Get leaves behind *)

Lemma spellings_stored_insert (h : Multimap.t) (key : string)
  (vs : list string) :
  spellings_stored h ->
  spellings_stored (Build (index_insert_all (map_ h) key vs)
                          (index_insert (keys_ h) (Str.ToLower key) key)).
Proof.
  intros W lk s sp. cbn [map_ keys_].
  rewrite get_index_insert, get_index_insert_all.
  destruct (Stdlib.Strings.String.eqb_spec key sp) as [E | Hne];
    [intros _ _; discriminate | ].
  destruct (Stdlib.Strings.String.eqb_spec (Str.ToLower key) lk) as [<- | Hlk].
  - intros E Hin. inversion E as [E']. subst s. clear E.
    apply elements_insert in Hin. destruct Hin as [-> | Hin]; [now elim Hne | ].
    unfold lookup_set in Hin.
    destruct (map.get (keys_ h) (Str.ToLower key)) as [s0 | ] eqn:E0.
    + now apply (W _ _ _ E0).
    + rewrite elements_empty in Hin. destruct Hin.
  - intros E Hin. now apply (W _ _ _ E).
Qed.

Lemma Get_map_unchanged (h : Multimap.t) (key : string) :
  spellings_stored h -> map_ (snd (Get h key)) = map_ h.
Proof.
  intros W. unfold Get.
  assert (G : forall sps acc,
    (forall sp, In sp sps -> map.get (map_ h) sp <> None) ->
    snd (fold_left
           (fun '(result, m) key0 =>
              let '(values, m') := index m key0 in
              ((result ++ elements values)%list, m'))
           sps (acc, map_ h)) = map_ h).
  { induction sps as [ | sp sps IH]; intros acc Hin; cbn [fold_left];
      [reflexivity | ].
    unfold index at 2.
    destruct (map.get (map_ h) sp) as [vs | ] eqn:Esp.
    - apply IH. intros sp' H'. apply Hin. now right.
    - exfalso. apply (Hin sp); [now left | exact Esp]. }
  unfold index at 1.
  destruct (map.get (keys_ h) (Str.ToLower key)) as [s | ] eqn:E.
  - specialize (G (elements s) [] (fun sp Hin => W _ _ _ E Hin)).
    destruct (fold_left _ (elements s) ([], map_ h)) as [result map'].
    exact G.
  - reflexivity.
Qed.

Lemma spellings_stored_Get (h : Multimap.t) (key : string) :
  spellings_stored h -> spellings_stored (snd (Get h key)).
Proof.
  intros W lk s sp Hg Hin. rewrite Get_map_unchanged by assumption.
  destruct (Get_state h key lk) as [_ Hl]. unfold lookup_set in Hl.
  rewrite Hg in Hl.
  destruct (map.get (keys_ h) lk) as [s0 | ] eqn:E0.
  - subst s0. now apply (W _ _ _ E0).
  - subst s. rewrite elements_empty in Hin. destruct Hin.
Qed.

Lemma spellings_stored_run (ops : list op) : spellings_stored (run ops).
Proof.
  induction ops as [ | o ops IH] using rev_ind.
  - intros lk s sp H. change (run []) with Multimap.empty in H.
    cbn [keys_ Multimap.empty] in H. rewrite map.get_empty in H.
    discriminate.
  - rewrite run_snoc. destruct o; cbn [exec]; try exact IH.
    + apply (spellings_stored_insert (run ops) key [value] IH).
    + unfold AddAll. generalize (map.tuples (map_ headers)). intros l.
      revert IH. generalize (run ops).
      induction l as [ | [k vs] l IHl]; intros h0 W0; cbn [fold_left];
        [exact W0 | ].
      now apply IHl, spellings_stored_insert.
    + now apply spellings_stored_Get.
    + rewrite GetFront_state. now apply spellings_stored_Get.
Qed.

(** After any sequence of calls, a [Get] leaves [map_] as it is: what
    [ToHttpHeaders], [GetCanonicalHeaders] and later calls of [Get]
    return does not depend on the calls of [Get] made before. *)
Theorem Get_keeps_outputs (ops : list op) (key : string) :
  let h := run ops in
  let h' := snd (Get h key) in
  map_ h' = map_ h /\
  ToHttpHeaders h' = ToHttpHeaders h /\
  GetCanonicalHeaders h' = GetCanonicalHeaders h /\
  (forall k, fst (Get h' k) = fst (Get h k)).
Proof.
  cbv zeta.
  pose proof (Get_map_unchanged (run ops) key (spellings_stored_run ops)) as E.
  split; [exact E | ].
  split; [unfold ToHttpHeaders; now rewrite E | ].
  split.
  - unfold GetCanonicalHeaders, signed_headerslist, canonical_headerslist,
      canonical_loop. now rewrite E.
  - intros k. rewrite !Get_result, E.
    destruct (Get_state (run ops) key (Str.ToLower k)) as [_ ->]. reflexivity.
Qed.

(** *** Contains along a trace *)

Lemma index_insert_dom (m : SortedListString.map string_set)
  (a x lk : string) :
  map.get (index_insert m a x) lk <> None <-> a = lk \/ map.get m lk <> None.
Proof.
  rewrite get_index_insert.
  destruct (Stdlib.Strings.String.eqb_spec a lk) as [E | Hne].
  - split; [now left | intros _; discriminate].
  - tauto.
Qed.

Lemma index_dom (m : SortedListString.map string_set) (a lk : string) :
  map.get (snd (index m a)) lk <> None <-> a = lk \/ map.get m lk <> None.
Proof.
  unfold index. destruct (map.get m a) as [s | ] eqn:E; cbn [snd].
  - split; [now right | ]. intros [<- | H]; [ | exact H].
    intros F. pose proof (eq_trans (eq_sym E) F) as G. discriminate G.
  - destruct (Stdlib.Strings.String.eqb_spec a lk) as [<- | Hne].
    + rewrite map.get_put_same. split; [now left | intros _; discriminate].
    + rewrite map.get_put_diff by congruence. tauto.
Qed.

Lemma AddAll_dom (h headers : Multimap.t) (lk : string) :
  map.get (keys_ (AddAll h headers)) lk <> None <->
  (exists key, map.get (map_ headers) key <> None /\ Str.ToLower key = lk)
  \/ map.get (keys_ h) lk <> None.
Proof.
  unfold AddAll.
  assert (G : forall l h0,
    map.get (keys_ (fold_left
      (fun acc '(key, values) =>
         Build (index_insert_all (map_ acc) key (elements values))
               (index_insert (keys_ acc) (Str.ToLower key) key)) l h0)) lk
    <> None <->
    (exists key vs, In (key, vs) l /\ Str.ToLower key = lk)
    \/ map.get (keys_ h0) lk <> None).
  { induction l as [ | [k vs] l IH]; intros h0; cbn [fold_left].
    - split; [now right | intros [(? & ? & [] & _) | H]; exact H].
    - rewrite IH. cbn [keys_]. rewrite index_insert_dom. split.
      + intros [(key & vs' & Hin & E) | [E | H]]; auto.
        * left. exists key, vs'. split; [now right | exact E].
        * left. exists k, vs. split; [now left | exact E].
      + intros [(key & vs' & [E' | Hin] & E) | H]; auto.
        * inversion E'; subst. auto.
        * left. now exists key, vs'. }
  rewrite G. split; (intros [(key & H) | H]; [left | now right]).
  - destruct H as (vs & Hin & E). exists key. split; [ | exact E].
    apply map.tuples_spec in Hin. intros F.
    pose proof (eq_trans (eq_sym Hin) F) as F'. discriminate F'.
  - destruct H as [Hg E].
    destruct (map.get (map_ headers) key) as [vs | ] eqn:Eg; [ | now elim Hg].
    exists key, vs. split; [now apply map.tuples_spec | exact E].
Qed.

Lemma Get_dom (h : Multimap.t) (key lk : string) :
  map.get (keys_ (snd (Get h key))) lk <> None <->
  Str.ToLower key = lk \/ map.get (keys_ h) lk <> None.
Proof.
  unfold Get. rewrite (surjective_pairing (index (keys_ h) _)).
  destruct (fold_left _ _ _) as [result map']. cbn [snd keys_].
  apply index_dom.
Qed.

(** After any sequence of calls, [Contains] answers true on the keys
    whose lower-casing some call has looked up in the index: the keys
    added under some spelling, and also the keys a [Get] or [GetFront]
    was called on. *)
Theorem Contains_run (ops : list op) (key : string) :
  Contains (run ops) key = true <->
  exists o, In o ops /\ touches o (Str.ToLower key).
Proof.
  assert (C : forall h, Contains h key = true <->
                        map.get (keys_ h) (Str.ToLower key) <> None).
  { intros h. unfold Contains.
    destruct (map.get (keys_ h) (Str.ToLower key)); split; intros H;
      try reflexivity; try discriminate. now elim H. }
  rewrite C. generalize (Str.ToLower key). intros lk.
  induction ops as [ | o ops IH] using rev_ind.
  - change (run []) with Multimap.empty. cbn [keys_ Multimap.empty].
    rewrite map.get_empty. split; [intros H; now elim H | ].
    intros (o & [] & _).
  - rewrite run_snoc.
    assert (S : (exists o', In o' (ops ++ [o]) /\ touches o' lk) <->
                touches o lk \/ exists o', In o' ops /\ touches o' lk).
    { split.
      - intros (o' & Hin & H). apply in_app_iff in Hin.
        destruct Hin as [Hin | [<- | []]]; eauto.
      - intros [H | (o' & Hin & H)].
        + exists o. split; [apply in_app_iff; cbn; auto | exact H].
        + exists o'. split; [apply in_app_iff; auto | exact H]. }
    rewrite S, <- IH.
    destruct o; cbn [exec touches]; try tauto.
    + unfold Add. cbn [keys_]. apply index_insert_dom.
    + apply AddAll_dom.
    + apply Get_dom.
    + rewrite GetFront_state. apply Get_dom.
Qed.

End MultimapFacts.

(** ** The canonical forms *)

Module CanonicalFacts.
Import Multimap Trace Lookups ContainerFacts StrFacts TraceFacts.
Import MultimapFacts HelperFacts.
Local Open Scope string_scope.

#[local] Instance string_eq_dec'' :
  forall x y : string, BoolSpec (x = y) (x <> y) (Stdlib.Strings.String.eqb x y) :=
  coqutil.Decidable.String.eqb_spec.

Lemma excluded_test (key : string) :
  Str.eqb "authorization" key || Str.eqb "user-agent" key = true
  <-> excluded key.
Proof.
  unfold excluded, Str.eqb.
  rewrite orb_true_iff, !Stdlib.Strings.String.eqb_eq.
  split; intros [H | H]; auto.
Qed.

Lemma lt_of_le (a b : string) : Str.le a b -> a <> b -> lt a b.
Proof.
  unfold Str.le, lt, Str.ltb. intros H Hne.
  destruct (coqutil.Datatypes.String.ltb a b) eqn:E; [reflexivity | ].
  elim Hne. now apply coqutil.Datatypes.String.ltb_total.
Qed.

Lemma Sorted_strict (l : list string) :
  Sorted Str.le l -> NoDup l -> Sorted lt l.
Proof.
  induction 1 as [ | a l Hs IH Hd]; intros Hn; [constructor | ].
  inversion Hn as [ | ? ? Hnin Hn']; subst.
  constructor; [now apply IH | ].
  destruct Hd as [ | b l' Hab]; constructor.
  apply lt_of_le; [exact Hab | ]. intros ->. apply Hnin. now left.
Qed.

Lemma sort_strict (l : list string) : NoDup l -> Sorted lt (Str.sort l).
Proof.
  intros Hn. destruct (sort_sorts l) as [Hs Hp].
  apply Sorted_strict; [exact Hs | ].
  eapply Permutation_NoDup; [apply Permutation_sym; exact Hp | exact Hn].
Qed.

Lemma sort_Sorted_id (l : list string) : Sorted lt l -> Str.sort l = l.
Proof.
  induction 1 as [ | a l Hs IH Hd]; [reflexivity | ].
  cbn [Str.sort fold_right]. fold (Str.sort l). rewrite IH.
  destruct Hd as [ | b l' Hab]; [reflexivity | ].
  cbn [Str.sort_insert].
  pose proof (ltb_asym a b Hab) as Hba. unfold Str.le in Hba.
  now rewrite Hba.
Qed.

(** What the loop of [GetCanonicalHeaders] collects. *)
Lemma canonical_fold (l : list (string * string_set)) :
  forall st,
    NoDup (fst st) ->
    (forall key, In key (fst st) <-> map.get (snd st) key <> None) ->
    let st' := fold_left canonical_step l st in
    NoDup (fst st') /\
    (forall key, In key (fst st') <-> map.get (snd st') key <> None) /\
    (forall key, In key (fst st') <->
       In key (fst st) \/
       exists k vs, In (k, vs) l /\ Str.ToLower k = key /\ ~ excluded key).
Proof.
  induction l as [ | [k vs] l IH]; intros st Hn Hd; cbn [fold_left].
  - cbv zeta. split; [exact Hn | ]. split; [exact Hd | ].
    intros key. split; [now left | ]. intros [H | (? & ? & [] & _)]. exact H.
  - assert (Step :
      NoDup (fst (canonical_step st (k, vs))) /\
      (forall key, In key (fst (canonical_step st (k, vs))) <->
                   map.get (snd (canonical_step st (k, vs))) key <> None) /\
      (forall key, In key (fst (canonical_step st (k, vs))) <->
         In key (fst st) \/ (Str.ToLower k = key /\ ~ excluded key))).
    { destruct st as [sl m]. cbn [fst snd] in *. unfold canonical_step.
      destruct (Str.eqb "authorization" (Str.ToLower k)
                || Str.eqb "user-agent" (Str.ToLower k)) eqn:Ex.
      - apply excluded_test in Ex. cbn [fst snd].
        split; [exact Hn | ]. split; [exact Hd | ].
        intros key. split; [now left | ]. intros [H | [<- H]]; tauto.
      - assert (Hex : ~ excluded (Str.ToLower k)).
        { intros H. apply excluded_test in H. rewrite H in Ex. discriminate. }
        cbn [fst snd]. set (key0 := Str.ToLower k) in *.
        assert (Hsl : forall key,
          In key (if Str.find sl key0 then sl else (sl ++ [key0])%list)
          <-> key = key0 \/ In key sl).
        { intros key. unfold Str.find, Str.eqb.
          destruct (existsb (Stdlib.Strings.String.eqb key0) sl) eqn:Ee.
          - apply existsb_exists in Ee. destruct Ee as (x & Hx & Ee).
            apply Stdlib.Strings.String.eqb_eq in Ee. subst x.
            intuition congruence.
          - rewrite in_app_iff. cbn. intuition congruence. }
        split; [ | split].
        + unfold Str.find, Str.eqb.
          destruct (existsb (Stdlib.Strings.String.eqb key0) sl) eqn:Ee;
            [exact Hn | ].
          apply NoDup_app; [exact Hn | repeat constructor; intros [] | ].
          intros x Hx [<- | []].
          assert (F : existsb (Stdlib.Strings.String.eqb key0) sl = true).
          { apply existsb_exists. exists key0. split; [exact Hx | ].
            apply Stdlib.Strings.String.eqb_refl. }
          rewrite F in Ee. discriminate.
        + intros key. rewrite Hsl.
          destruct (Stdlib.Strings.String.eqb_spec key key0) as [-> | Hne].
          * rewrite map.get_put_same. split; [discriminate | now left].
          * rewrite map.get_put_diff by assumption. rewrite <- Hd. tauto.
        + intros key. rewrite Hsl. intuition (subst; auto). }
    destruct Step as (S1 & S2 & S3).
    destruct (IH (canonical_step st (k, vs)) S1 S2) as (I1 & I2 & I3).
    cbv zeta in *. split; [exact I1 | ]. split; [exact I2 | ].
    intros key. rewrite I3, S3. split.
    + intros [[H | [E Hex]] | (k' & vs' & Hin & E & Hex)]; auto.
      * right. exists k, vs. split; [now left | auto].
      * right. exists k', vs'. split; [now right | auto].
    + intros [H | (k' & vs' & [E' | Hin] & E & Hex)]; auto.
      * inversion E'; subst. auto.
      * right. now exists k', vs'.
Qed.

Lemma canonical_loop_spec (h : Multimap.t) :
  NoDup (fst (canonical_loop h)) /\
  (forall key, In key (fst (canonical_loop h)) <->
               map.get (snd (canonical_loop h)) key <> None) /\
  (forall key, In key (fst (canonical_loop h)) <->
     exists k, map.get (map_ h) k <> None /\ Str.ToLower k = key
               /\ ~ excluded key).
Proof.
  unfold canonical_loop.
  destruct (canonical_fold (map.tuples (map_ h)) ([], map.empty))
    as (H1 & H2 & H3).
  - constructor.
  - intros key. cbn [fst snd]. rewrite map.get_empty. split; [intros [] | ].
    intros H. now elim H.
  - cbv zeta in *. split; [exact H1 | ]. split; [exact H2 | ].
    intros key. rewrite H3. cbn [fst]. split.
    + intros [[] | (k & vs & Hin & E & Hex)]. exists k.
      apply map.tuples_spec in Hin. split; [ | auto].
      intros F. pose proof (eq_trans (eq_sym Hin) F) as G. discriminate G.
    + intros (k & Hg & E & Hex). right.
      destruct (map.get (map_ h) k) as [vs | ] eqn:Eg; [ | now elim Hg].
      exists k, vs. split; [now apply map.tuples_spec | auto].
Qed.

(** The signed headers are in strictly ascending order, so each appears
    once; they are the lower-casings of the stored keys, without
    [authorization] and [user-agent]. *)
Theorem signed_headers_spec (h : Multimap.t) :
  Sorted lt (signed_headerslist h) /\
  NoDup (signed_headerslist h) /\
  (forall key, In key (signed_headerslist h) <->
     exists k, map.get (map_ h) k <> None /\ Str.ToLower k = key
               /\ ~ excluded key).
Proof.
  destruct (canonical_loop_spec h) as (H1 & _ & H3).
  unfold signed_headerslist. split; [now apply sort_strict | ].
  split.
  - eapply Permutation_NoDup; [ | exact H1].
    apply Permutation_sym, sort_sorts.
  - intros key. rewrite In_sort. apply H3.
Qed.

(** The canonical headers have one line for each signed header: as many
    lines as signed headers, each [key:value] for a signed header [key]
    and the value the loop has left for it. *)
Theorem canonical_lines_spec (h : Multimap.t) :
  List.length (canonical_headerslist h) = List.length (signed_headerslist h)
  /\
  (forall key, In key (signed_headerslist h) <->
     exists value, map.get (snd (canonical_loop h)) key = Some value /\
                   In (key ++ ":" ++ value) (canonical_headerslist h)).
Proof.
  destruct (canonical_loop_spec h) as (H1 & H2 & _).
  set (m := snd (canonical_loop h)) in *.
  assert (Hk : forall key, In key (map.keys m) <-> In key (fst (canonical_loop h))).
  { intros key. rewrite H2. split.
    - apply map.in_keys_inv.
    - intros H. destruct (map.get m key) as [v | ] eqn:E; [ | now elim H].
      eapply map.in_keys. exact E. }
  split.
  - unfold canonical_headerslist, signed_headerslist. fold m.
    rewrite (Permutation_length (proj2 (sort_sorts _))).
    rewrite (Permutation_length (proj2 (sort_sorts _))).
    assert (Hlen : List.length (map.tuples m) = List.length (map.keys m))
      by (rewrite (proj1 (tuples_value m)), keys_value, length_map;
          reflexivity).
    rewrite length_map. eapply eq_trans; [exact Hlen | ].
    apply Permutation_length, NoDup_Permutation;
      [apply map.keys_NoDup | exact H1 | exact Hk].
  - intros key. unfold signed_headerslist, canonical_headerslist. fold m.
    rewrite In_sort, H2. split.
    + intros H. destruct (map.get m key) as [v | ] eqn:E; [ | now elim H].
      exists v. split; [reflexivity | ].
      apply (proj2 (In_sort _ _)). apply in_map_iff.
      exists (key, v). split; [reflexivity | now apply map.tuples_spec].
    + intros (v & E & _).  intros F.
      pose proof (eq_trans (eq_sym E) F) as G. discriminate G.
Qed.


Lemma fold_left_map {A B C : Type} (f : C -> B -> C) (g : A -> B)
  (l : list A) :
  forall acc, fold_left f (List.map g l) acc
              = fold_left (fun a x => f a (g x)) l acc.
Proof. induction l as [ | x l IH]; intros acc; cbn; [reflexivity | apply IH]. Qed.

(** The value of a canonical line is the [Join] with a comma of the
    values after the folding of spaces. *)
Lemma canonical_value_Join (vs : string_set) :
  canonical_value vs
  = Str.Join (List.map Str.regex_replace_multi_space (elements vs)) ",".
Proof. unfold canonical_value, Str.Join. now rewrite fold_left_map. Qed.

Lemma canonical_fold_other (key : string) (l : list (string * string_set)) :
  forall st,
    (forall k vs, In (k, vs) l -> Str.ToLower k <> key) ->
    map.get (snd (fold_left canonical_step l st)) key
    = map.get (snd st) key.
Proof.
  induction l as [ | [k vs] l IH]; intros st Hl; cbn [fold_left];
    [reflexivity | ].
  rewrite IH by (intros k' vs' Hin; apply (Hl k' vs'); now right).
  destruct st as [sl m]. unfold canonical_step.
  destruct (Str.eqb "authorization" (Str.ToLower k)
            || Str.eqb "user-agent" (Str.ToLower k)); [reflexivity | ].
  cbn [snd]. apply map.get_put_diff.
  intros E. apply (Hl k vs); [now left | now rewrite E].
Qed.

Lemma canonical_fold_single (k : string) (vs : string_set)
  (l : list (string * string_set)) :
  ~ excluded (Str.ToLower k) ->
  (forall k' vs', In (k', vs') l -> Str.ToLower k' = Str.ToLower k ->
                  (k', vs') = (k, vs)) ->
  In (k, vs) l ->
  forall st,
    map.get (snd (fold_left canonical_step l st)) (Str.ToLower k)
    = Some (canonical_value vs).
Proof.
  intros Hex. induction l as [ | [k0 vs0] l IH]; intros Hu Hin st;
    [destruct Hin | ].
  cbn [fold_left].
  destruct (existsb (fun kv => Stdlib.Strings.String.eqb
                                 (Str.ToLower (fst kv)) (Str.ToLower k)) l)
    eqn:Ex.
  - apply existsb_exists in Ex. destruct Ex as ([k' vs'] & Hin' & E).
    apply Stdlib.Strings.String.eqb_eq in E. cbn [fst] in E.
    pose proof (Hu k' vs' (or_intror Hin') E) as Eq. rewrite Eq in Hin'.
    apply IH; [ | exact Hin'].
    intros k1 vs1 H1. apply Hu. now right.
  - assert (Hl : forall k' vs', In (k', vs') l ->
                                Str.ToLower k' <> Str.ToLower k).
    { intros k' vs' Hin' E.
      assert (F : existsb (fun kv => Stdlib.Strings.String.eqb
                             (Str.ToLower (fst kv)) (Str.ToLower k)) l = true).
      { apply existsb_exists. exists (k', vs'). split; [exact Hin' | ].
        cbn [fst]. now apply Stdlib.Strings.String.eqb_eq. }
      rewrite F in Ex. discriminate. }
    rewrite canonical_fold_other by exact Hl.
    destruct Hin as [E | Hin]; [ | now elim (Hl k vs Hin)].
    inversion E; subst. destruct st as [sl m]. unfold canonical_step.
    destruct (Str.eqb "authorization" (Str.ToLower k)
              || Str.eqb "user-agent" (Str.ToLower k)) eqn:Et.
    + apply excluded_test in Et. contradiction.
    + cbn [snd]. apply map.get_put_same.
Qed.

(** A key stored under one spelling only, and not excluded, has the
    canonical line [lower-cased key:values], the values being those of
    the key after the folding of spaces, joined with commas. *)
Theorem canonical_line_single_spelling (h : Multimap.t) (k : string)
  (vs : string_set) :
  map.get (map_ h) k = Some vs ->
  ~ excluded (Str.ToLower k) ->
  (forall k', map.get (map_ h) k' <> None ->
              Str.ToLower k' = Str.ToLower k -> k' = k) ->
  In (Str.ToLower k ++ ":"
      ++ Str.Join (List.map Str.regex_replace_multi_space (elements vs)) ",")
     (canonical_headerslist h).
Proof.
  intros Hg Hex Hu. unfold canonical_headerslist.
  apply (proj2 (In_sort _ _)). apply in_map_iff.
  exists (Str.ToLower k, canonical_value vs). split.
  - now rewrite canonical_value_Join.
  - apply map.tuples_spec. unfold canonical_loop.
    apply canonical_fold_single; [exact Hex | | now apply map.tuples_spec].
    intros k' vs' Hin E. apply map.tuples_spec in Hin.
    assert (k' = k).
    { apply Hu; [ | exact E]. intros F.
      pose proof (eq_trans (eq_sym Hin) F) as G. discriminate G. }
    subst k'. pose proof (eq_trans (eq_sym Hin) Hg) as G.
    inversion G. reflexivity.
Qed.

Lemma canonical_line_single_spelling_witness :
  In "host:a b,c"
    (canonical_headerslist
       (Add (Add (Add Multimap.empty "Host" "a   b") "Host" "c")
            "User-Agent" "x")).
Proof.
  apply (canonical_line_single_spelling
           (Add (Add (Add Multimap.empty "Host" "a   b") "Host" "c")
                "User-Agent" "x")
           "Host"
           (set_insert (set_insert set_empty "a   b") "c")).
  - vm_compute. reflexivity.
  - intros [H | H]; vm_compute in H; discriminate H.
  - intros k' Hk' E.
    destruct (Stdlib.Strings.String.eqb_spec k' "Host") as [-> | N1];
      [reflexivity | ].
    destruct (Stdlib.Strings.String.eqb_spec k' "User-Agent") as [-> | N2];
      [vm_compute in E; discriminate E | ].
    exfalso. apply Hk'.
    unfold Add, index_insert, index. cbn [map_ keys_ Multimap.empty].
    rewrite !map.get_empty.
    repeat (first [ rewrite map.get_put_same
                  | rewrite map.get_put_diff by congruence
                  | rewrite map.get_empty ]; cbn iota beta).
    first [reflexivity | apply map.get_empty].
Defined.

(** *** The query strings *)

Lemma flat_map_keys {V : Type} (m : SortedListString.map string_set)
  (F : string -> string_set -> list V)
  (l : list (string * string_set)) :
  (forall k vs, In (k, vs) l -> lookup_set m k = vs) ->
  flat_map (fun key => F key (lookup_set m key)) (List.map fst l)
  = flat_map (fun kv => F (fst kv) (snd kv)) l.
Proof.
  induction l as [ | [k vs] l IH]; intros Hl; cbn [List.map flat_map fst snd];
    [reflexivity | ].
  rewrite (Hl k vs) by now left. f_equal.
  apply IH. intros k' vs' Hin. apply Hl. now right.
Qed.

Lemma fold_left_flat_map {A B C : Type} (f : C -> B -> C) (g : A -> list B)
  (l : list A) :
  forall acc, fold_left f (flat_map g l) acc
              = fold_left (fun a x => fold_left f (g x) a) l acc.
Proof.
  induction l as [ | x l IH]; intros acc; cbn [flat_map fold_left];
    [reflexivity | ].
  now rewrite fold_left_app, IH.
Qed.

(** The canonical query string is the query string: the keys of [map_]
    come out of the iteration in ascending order already, and both
    functions put the same pairs together in the same way. *)
Theorem GetCanonicalQueryString_is_ToQueryString
  (escape : string -> string) (h : Multimap.t) :
  GetCanonicalQueryString escape h = ToQueryString escape h.
Proof.
  unfold GetCanonicalQueryString, ToQueryString.
  rewrite (sort_Sorted_id _ (keys_Sorted (map_ h))).
  rewrite keys_value, <- (proj1 (tuples_value (map_ h))).
  rewrite (flat_map_keys (map_ h)
             (fun key vs =>
                List.map (fun value => escape key ++ "=" ++ escape value)
                  (elements vs))).
  - unfold Str.Join. rewrite fold_left_flat_map.
    assert (G : forall (l : list (string * string_set)) acc,
      fold_left
        (fun a x =>
           fold_left
             (fun result value =>
                (if Str.is_empty result then result else result ++ "&")
                ++ value)
             (List.map (fun value => escape (fst x) ++ "=" ++ escape value)
                (elements (snd x))) a) l acc
      = fold_left
          (fun query_string '(key, values) =>
             fold_left
               (fun query_string value =>
                  let s := escape key ++ "=" ++ escape value in
                  (if Str.is_empty query_string then query_string
                   else query_string ++ "&") ++ s)
               (elements values) query_string) l acc).
    { induction l as [ | [k vs] l IH]; intros acc; cbn [fold_left fst snd];
        [reflexivity | ].
      rewrite fold_left_map. apply IH. }
    apply G.
  - intros k vs Hin. apply map.tuples_spec in Hin.
    unfold lookup_set.
    destruct (map.get (map_ h) k) as [vs' | ] eqn:E.
    + pose proof (eq_trans (eq_sym Hin) E) as G'. now inversion G'.
    + pose proof (eq_trans (eq_sym Hin) E) as G'. discriminate G'.
Qed.

End CanonicalFacts.

(** ** The part planner: further properties *)

Module PlannerMore.
Import Double DoubleFacts Planner PlannerExact PlannerFacts PlannerClaims.

(** On every input [CalcPartInfo] returns what the same plan gives in
    exact integers: the roundings of the three divisions in [double]
    never show. *)
Theorem CalcPartInfo_is_exact (object_size part_size part_count : Z) :
  CalcPartInfo object_size part_size part_count
  = CalcPartInfo_exact object_size part_size part_count.
Proof.
  unfold CalcPartInfo_exact.
  destruct ((0 <? part_size) && (part_size <? kMinPartSize)) eqn:E1.
  { unfold CalcPartInfo. rewrite Z.gtb_ltb, E1. reflexivity. }
  destruct ((0 <? part_size) && (kMaxPartSize <? part_size)) eqn:E2.
  { unfold CalcPartInfo. rewrite !Z.gtb_ltb, E1, E2. reflexivity. }
  destruct ((0 <=? object_size) && (kMaxObjectSize <? object_size)) eqn:E3.
  { unfold CalcPartInfo. rewrite !Z.gtb_ltb, Z.geb_leb, E1, E2, E3.
    reflexivity. }
  destruct ((object_size <? 0) && (part_size <=? 0)) eqn:E4.
  { unfold CalcPartInfo. rewrite !Z.gtb_ltb, Z.geb_leb, E1, E2, E3.
    rewrite <- Z.ltb_antisym, E4. reflexivity. }
  destruct (object_size <? 0) eqn:E5.
  { unfold CalcPartInfo. rewrite !Z.gtb_ltb, Z.geb_leb, E1, E2, E3.
    rewrite <- Z.ltb_antisym, E5. cbn [andb] in E4 |- *. rewrite E4.
    reflexivity. }
  apply andb_false_iff in E1, E2, E3.
  rewrite !Z.ltb_ge in E1, E2. rewrite Z.leb_gt, Z.ltb_ge in E3.
  apply Z.ltb_ge in E5.
  rewrite CalcPartInfo_known by lia.
  cbv zeta. now rewrite Z.gtb_ltb.
Qed.

(** What a call with a valid part size returns when the part size fits
    the object. *)
Lemma caller_plan (os ps pc : Z) :
  kMinPartSize <= ps <= kMaxPartSize ->
  0 < os <= kMaxObjectSize ->
  ps <= os <= ps * kMaxMultipartCount ->
  CalcPartInfo os ps pc = Outcome SUCCESS ps (ceil_div os ps).
Proof.
  intros Hps Hos H. rewrite CalcPartInfo_known by (auto; lia).
  replace (ps <=? 0) with false
    by (symmetry; apply Z.leb_gt; limits; lia).
  cbv zeta. unfold planned_count. rewrite Z.min_l by lia.
  replace (ps >? 0) with true
    by (symmetry; rewrite Z.gtb_ltb; apply Z.ltb_lt; limits; lia).
  assert (ceil_div os ps <= kMaxMultipartCount)
    by (apply planned_count_le; limits; lia).
  replace (ceil_div os ps >? kMaxMultipartCount) with false
    by (symmetry; rewrite Z.gtb_ltb; apply Z.ltb_ge; lia).
  reflexivity.
Qed.

(** A part size from the caller that fits the object is used as it is; a
    part size larger than a non-empty object is replaced by the object
    size, for a single part. *)
Theorem CalcPartInfo_caller_part_size (object_size part_size part_count : Z) :
  kMinPartSize <= part_size <= kMaxPartSize ->
  0 < object_size <= kMaxObjectSize ->
  (part_size <= object_size <= part_size * kMaxMultipartCount ->
   CalcPartInfo object_size part_size part_count
   = Outcome SUCCESS part_size (ceil_div object_size part_size)) /\
  (object_size < part_size ->
   CalcPartInfo object_size part_size part_count
   = Outcome SUCCESS object_size 1).
Proof.
  intros Hps Hos. split; [now apply caller_plan | ].
  intros H. rewrite CalcPartInfo_known by (auto; lia).
  replace (part_size <=? 0) with false
    by (symmetry; apply Z.leb_gt; limits; lia).
  cbv zeta. unfold planned_count. rewrite Z.min_r by lia.
  replace (object_size >? 0) with true
    by (symmetry; rewrite Z.gtb_ltb; apply Z.ltb_lt; lia).
  assert (E : ceil_div object_size object_size = 1).
  { replace object_size with (1 * object_size) at 1 by lia.
    apply ceil_div_mul. lia. }
  rewrite E. reflexivity.
Qed.

Lemma CalcPartInfo_caller_part_size_witness :
  CalcPartInfo 104857600 10485760 0 = Outcome SUCCESS 10485760 10 /\
  CalcPartInfo 1000 10485760 0 = Outcome SUCCESS 1000 1.
Proof.
  destruct (CalcPartInfo_caller_part_size 104857600 10485760 0
              ltac:(limits; lia) ltac:(limits; lia)) as [H1 _].
  destruct (CalcPartInfo_caller_part_size 1000 10485760 0
              ltac:(limits; lia) ltac:(limits; lia)) as [_ H2].
  split; [ | apply H2; lia].
  rewrite H1 by (limits; lia). reflexivity.
Defined.

(** What a call without a part size returns, for an object of known
    size within the limit. *)
Lemma chosen_plan (os pc : Z) :
  0 <= os <= kMaxObjectSize ->
  Planner.part_size (CalcPartInfo os 0 pc)
  = Z.min (planned_part_size os) os /\
  Planner.part_count (CalcPartInfo os 0 pc)
  = planned_count os (Z.min (planned_part_size os) os).
Proof.
  intros Hos. rewrite CalcPartInfo_known by (auto; lia).
  change (0 <=? 0) with true. cbv iota zeta.
  destruct (planned_part_size_bounds os Hos) as (_ & _ & Hcover & Hmin).
  set (ps := Z.min (planned_part_size os) os).
  assert (Hcount : planned_count os ps <= kMaxMultipartCount).
  { unfold planned_count. rewrite Z.gtb_ltb.
    destruct (Z.ltb_spec 0 ps); [ | limits; lia].
    apply planned_count_le; [assumption | ]. unfold ps. limits. lia. }
  replace (planned_count os ps >? kMaxMultipartCount) with false
    by (symmetry; rewrite Z.gtb_ltb; apply Z.ltb_ge; exact Hcount).
  split; reflexivity.
Qed.

Lemma planned_le_object (os : Z) :
  kMinPartSize <= os <= kMaxObjectSize -> planned_part_size os <= os.
Proof.
  intros H. unfold planned_part_size. limits.
  pose proof (ceil_div_spec os 10000 ltac:(lia)) as A.
  pose proof (ceil_div_spec (ceil_div os 10000) (5 * 1024 * 1024) ltac:(lia)) as B.
  lia.
Qed.

(** For an object of at least [kMinPartSize] bytes the part size the
    planner chooses is a multiple of [kMinPartSize] between
    [kMinPartSize] and [kMaxPartSize], and the least positive multiple of
    [kMinPartSize] with which [kMaxMultipartCount] parts cover the
    object. *)
Theorem CalcPartInfo_chosen_is_least (object_size part_count : Z) :
  kMinPartSize <= object_size <= kMaxObjectSize ->
  let p := Planner.part_size (CalcPartInfo object_size 0 part_count) in
  p mod kMinPartSize = 0 /\
  kMinPartSize <= p <= kMaxPartSize /\
  object_size <= p * kMaxMultipartCount /\
  (forall q, 0 < q -> q mod kMinPartSize = 0 ->
             object_size <= q * kMaxMultipartCount -> p <= q).
Proof.
  intros Hos.
  destruct (chosen_plan object_size part_count ltac:(limits; lia))
    as (Hp & _).
  cbv zeta. rewrite Hp.
  rewrite Z.min_l by now apply planned_le_object.
  destruct (planned_part_size_bounds object_size ltac:(limits; lia))
    as (B1 & B2 & B3 & B4).
  split; [unfold planned_part_size; apply Z.mod_mul; limits; lia | ].
  split; [unfold planned_part_size in *; limits; lia | ].
  split; [exact B3 | ].
  intros q Hq Hmod Hcover.
  pose proof (Z.div_mod q kMinPartSize ltac:(limits; lia)) as D.
  rewrite Hmod in D. unfold planned_part_size. limits.
  pose proof (ceil_div_spec object_size 10000 ltac:(lia)) as A.
  pose proof (ceil_div_spec (ceil_div object_size 10000) (5 * 1024 * 1024)
                ltac:(lia)) as B.
  lia.
Qed.

Lemma CalcPartInfo_chosen_is_least_witness :
  Planner.part_size (CalcPartInfo kMaxObjectSize 0 0) <= 105 * kMinPartSize.
Proof.
  destruct (CalcPartInfo_chosen_is_least kMaxObjectSize 0
              ltac:(limits; lia)) as (_ & _ & _ & H).
  apply H; [limits; lia | apply Z.mod_mul; limits; lia | limits; lia].
Defined.

(** The plan chosen for an object of at least [kMinPartSize] bytes is
    accepted as it is when its part size is given back to the planner;
    for a smaller, non-empty object the chosen part size is the object
    size, which the planner then rejects as too small. *)
Theorem CalcPartInfo_replan (object_size pc pc' : Z) :
  0 < object_size <= kMaxObjectSize ->
  let r := CalcPartInfo object_size 0 pc in
  (kMinPartSize <= object_size ->
   CalcPartInfo object_size (Planner.part_size r) pc'
   = Outcome SUCCESS (Planner.part_size r) (Planner.part_count r)) /\
  (object_size < kMinPartSize ->
   Planner.part_size r = object_size /\
   CalcPartInfo object_size (Planner.part_size r) pc'
   = Outcome (PartSizeTooSmall object_size) object_size pc').
Proof.
  intros Hos.
  destruct (chosen_plan object_size pc ltac:(lia)) as (Hp & Hc).
  cbv zeta.
  destruct (planned_part_size_bounds object_size ltac:(lia))
    as (B1 & B2 & B3 & B4).
  split.
  - intros Hmin. rewrite Z.min_l in Hp by (apply planned_le_object; lia).
    set (p := Planner.part_size (CalcPartInfo object_size 0 pc)) in *.
    assert (Hp1 : kMinPartSize <= p <= kMaxPartSize)
      by (rewrite Hp; split; [apply B4; lia | ];
          unfold planned_part_size in *; limits; lia).
    assert (Hp2 : p <= object_size)
      by (rewrite Hp; apply planned_le_object; lia).
    rewrite (caller_plan object_size p pc' Hp1 Hos)
      by (rewrite Hp at 2; lia).
    rewrite Hc, <- Hp. unfold planned_count. rewrite Z.min_l by lia.
    replace (p >? 0) with true
      by (symmetry; rewrite Z.gtb_ltb; apply Z.ltb_lt; limits; lia).
    reflexivity.
  - intros Hsmall. rewrite Z.min_r in Hp by (specialize (B4 ltac:(lia)); lia).
    rewrite Hp. split; [reflexivity | ].
    unfold CalcPartInfo.
    replace ((object_size >? 0) && (object_size <? kMinPartSize)) with true
      by (symmetry; apply andb_true_iff; split;
          [rewrite Z.gtb_ltb | ]; apply Z.ltb_lt; lia).
    reflexivity.
Qed.

Lemma CalcPartInfo_replan_witness :
  CalcPartInfo 1073741824 5242880 7 = Outcome SUCCESS 5242880 205.
Proof.
  destruct (CalcPartInfo_replan 1073741824 0 7 ltac:(limits; lia)) as [H _].
  specialize (H ltac:(limits; lia)).
  exact H.
Defined.

End PlannerMore.

(** ** The Multimap: AddAll, the order of Get *)

Module MultimapMore.
Import Multimap Trace Lookups ContainerFacts StrFacts TraceFacts InvariantFacts.
Import MultimapFacts CanonicalFacts.
Local Open Scope string_scope.

#[local] Instance string_eq_dec3 :
  forall x y : string, BoolSpec (x = y) (x <> y) (Stdlib.Strings.String.eqb x y) :=
  coqutil.Decidable.String.eqb_spec.

Lemma index_insert_all_cons (m : SortedListString.map string_set)
  (k v : string) (vs : list string) :
  index_insert_all (index_insert m k v) k vs = index_insert_all m k (v :: vs).
Proof.
  apply map.map_ext. intros k'.
  rewrite !get_index_insert_all, lookup_index_insert, get_index_insert.
  rewrite Stdlib.Strings.String.eqb_refl.
  destruct (Stdlib.Strings.String.eqb k k'); reflexivity.
Qed.

(** The calls of [Add] for the values of one key. *)
Lemma Adds_values (k : string) (vs : list string) :
  vs <> [] ->
  forall h,
    fold_left (fun acc v => Add acc k v) vs h
    = Build (index_insert_all (map_ h) k vs)
            (index_insert (keys_ h) (Str.ToLower k) k).
Proof.
  induction vs as [ | v vs IH]; [contradiction | ]. intros _ h.
  cbn [fold_left]. destruct vs as [ | w vs'].
  - reflexivity.
  - rewrite IH by discriminate. unfold Add at 1 2. cbn [map_ keys_].
    now rewrite index_insert_all_cons, index_insert_idempotent.
Qed.

Lemma fold_left_ext_in {A B : Type} (f g : A -> B -> A) (l : list B) :
  (forall a x, In x l -> f a x = g a x) ->
  forall a, fold_left f l a = fold_left g l a.
Proof.
  induction l as [ | x l IH]; intros H a; cbn [fold_left]; [reflexivity | ].
  rewrite H by (left; reflexivity). apply IH.
  intros a' y Hy. apply H. now right.
Qed.

(** When no key of [headers] has an empty set of values, [AddAll] does
    what one call of [Add] for every pair of [headers] does, the pairs
    being taken in the order of iteration. *)
Theorem AddAll_is_Adds (h headers : Multimap.t) :
  (forall key s, map.get (map_ headers) key = Some s -> elements s <> []) ->
  AddAll h headers
  = fold_left (fun acc kv => Add acc (fst kv) (snd kv)) (pairs headers) h.
Proof.
  intros Hne. unfold AddAll, pairs. rewrite fold_left_flat_map.
  apply fold_left_ext_in. intros a [k vs] Hin.
  rewrite fold_left_map. cbn [fst snd].
  rewrite Adds_values; [reflexivity | ].
  apply (Hne k). now apply map.tuples_spec.
Qed.

Lemma AddAll_is_Adds_witness :
  AddAll (Add Multimap.empty "Host" "a") (Add Multimap.empty "Accept" "b")
  = Add (Add Multimap.empty "Host" "a") "Accept" "b".
Proof.
  rewrite (AddAll_is_Adds (Add Multimap.empty "Host" "a")
             (Add Multimap.empty "Accept" "b")).
  - reflexivity.
  - intros key s H. unfold Add in H. cbn [map_] in H.
    rewrite get_index_insert in H.
    destruct (Stdlib.Strings.String.eqb "Accept" key); [ | discriminate H].
    injection H as <-. intros E.
    assert (F : In "b" (elements (set_insert (lookup_set (map_ Multimap.empty) "Accept") "b")))
      by (apply elements_insert; now left).
    exact (eq_ind _ (fun l => In "b" l) F _ E).
Defined.






Lemma invariant_run_witness :
  Forall no_get [OpAdd "Host" "a"; OpContains "host"; OpKeys] /\
  invariant (run [OpAdd "Host" "a"; OpContains "host"; OpKeys]).
Proof.
  assert (H : Forall no_get [OpAdd "Host" "a"; OpContains "host"; OpKeys])
    by (repeat constructor).
  split; [exact H | ].
  exact (invariant_run [OpAdd "Host" "a"; OpContains "host"; OpKeys] H).
Defined.

Lemma Get_contained_witness :
  snd (Get (Add Multimap.empty "Host" "a") "HOST")
  = Add Multimap.empty "Host" "a".
Proof.
  apply (Get_contained (Add Multimap.empty "Host" "a") "HOST").
  - apply invariant_Add, invariant_empty.
  - reflexivity.
Defined.

End MultimapMore.

(** ** EncodePath *)

Module PathFacts.
Import Str Utils StringFacts TrimFacts HelperFacts.
Local Open Scope string_scope.

Lemma ContainsChar_append (a b : string) (ch : ascii) :
  ContainsChar (a ++ b) ch = ContainsChar a ch || ContainsChar b ch.
Proof.
  induction a as [ | c a IH]; cbn; [reflexivity | ].
  now rewrite IH, orb_assoc.
Qed.

Lemma tokens_nil (path token : string) :
  getline_tokens path token = [] -> path = "" /\ token = "".
Proof.
  revert token. induction path as [ | c s IH]; intros token; cbn.
  - destruct token; cbn; [auto | discriminate].
  - destruct (Ascii.eqb c "/"); [discriminate | ].
    intros H. apply IH in H. destruct H as [_ H]. destruct token; discriminate.
Qed.

Lemma tokens_no_slash (path : string) :
  forall token,
    ContainsChar token "/" = false ->
    Forall (fun t => ContainsChar t "/" = false) (getline_tokens path token).
Proof.
  induction path as [ | c s IH]; intros token H; cbn [getline_tokens].
  - destruct (is_empty token); constructor; auto.
  - destruct (Ascii.eqb_spec c "/") as [-> | Hne].
    + constructor; [exact H | now apply IH].
    + apply IH. rewrite ContainsChar_append, H. cbn.
      apply orb_false_iff. split; [ | reflexivity].
      now apply Ascii.eqb_neq.
Qed.

Lemma ends_with_slash_cons (c : ascii) (s : string) :
  ends_with_slash (String c s)
  = if is_empty s then Ascii.eqb c "/" else ends_with_slash s.
Proof. unfold ends_with_slash. destruct s; reflexivity. Qed.

(** The tokens are the pieces of the path between the slashes. *)
Lemma tokens_concat (path : string) :
  forall token,
    token ++ path
    = Stdlib.Strings.String.concat "/" (getline_tokens path token)
      ++ (if ends_with_slash path then "/" else "").
Proof.
  induction path as [ | c s IH]; intros token; cbn [getline_tokens].
  - destruct token; cbn; [reflexivity | ]. now rewrite !append_nil_r.
  - destruct (Ascii.eqb_spec c "/") as [-> | Hne].
    + rewrite concat_cons, ends_with_slash_cons.
      destruct s as [ | c' s'].
      * cbn. now rewrite append_nil_r.
      * cbn [is_empty]. specialize (IH ""). cbn [append] in IH.
        destruct (getline_tokens (String c' s') "") as [ | r0 rest] eqn:E;
          [apply tokens_nil in E; destruct E; discriminate | ].
        rewrite concat_cons in IH. cbn [fold_right].
        rewrite IH at 1. now rewrite !append_assoc.
    + rewrite ends_with_slash_cons.
      replace (if is_empty s then Ascii.eqb c "/" else ends_with_slash s)
        with (ends_with_slash s)
        by (destruct s; cbn [is_empty]; [ | reflexivity];
            apply Ascii.eqb_neq in Hne; now rewrite Hne).
      now rewrite <- IH, append_assoc.
Qed.

Lemma fold_encode_step (escape : string -> string) (tokens : list string) :
  forall out,
    fold_left (encode_step escape) tokens out
    = fold_left
        (fun result value =>
           (if is_empty result then result else result ++ "/") ++ value)
        (List.map escape (filter (fun t => negb (is_empty t)) tokens)) out.
Proof.
  induction tokens as [ | t ts IH]; intros out; cbn [fold_left filter];
    [reflexivity | ].
  rewrite IH. unfold encode_step.
  destruct (is_empty t); reflexivity.
Qed.

Lemma join_nonempty (l : list string) :
  (forall x, In x l -> x <> "") ->
  fold_left
    (fun result value =>
       (if is_empty result then result else result ++ "/") ++ value) l ""
  = Stdlib.Strings.String.concat "/" l.
Proof.
  destruct l as [ | v vs]; intros H; [reflexivity | ].
  cbn [fold_left is_empty append].
  rewrite Join_loop by (apply H; now left). now rewrite concat_cons.
Qed.

Lemma no_segment (path : string) :
  forall token,
    filter (fun t => negb (is_empty t)) (getline_tokens path token) = [] ->
    token = "" /\ (path = "" \/ begins_with_slash path = true).
Proof.
  induction path as [ | c s IH]; intros token; cbn [getline_tokens].
  - destruct token; cbn; [auto | discriminate].
  - destruct (Ascii.eqb_spec c "/") as [-> | Hne].
    + cbn [filter]. destruct token; cbn; [auto | discriminate].
    + intros H. apply IH in H. destruct H as [H _].
      destruct token; discriminate.
Qed.

(** [EncodePath] on a path that is not empty, when [escape] gives
    neither the empty string nor a single slash on a token.  The tokens
    are the pieces of the path between the slashes; the result has the
    escaped tokens that are not empty with one slash between them, a
    slash before when the path begins with one and a slash after when it
    ends with one; a path made of slashes only gives one slash. *)
Theorem EncodePath_spec (escape : string -> string) (path : string) :
  (forall t, t <> "" -> ContainsChar t "/" = false ->
             escape t <> "" /\ escape t <> "/") ->
  path <> "" ->
  let tokens := getline_tokens path "" in
  let segments := filter (fun t => negb (is_empty t)) tokens in
  let lead := if begins_with_slash path then "/" else "" in
  let trail := if ends_with_slash path then "/" else "" in
  Forall (fun t => ContainsChar t "/" = false) tokens /\
  path = Stdlib.Strings.String.concat "/" tokens ++ trail /\
  EncodePath escape path
  = Some match segments with
         | [] => "/"
         | _ => lead ++ Stdlib.Strings.String.concat "/"
                          (List.map escape segments) ++ trail
         end.
Proof.
  intros Hesc Hne. cbv zeta.
  pose proof (tokens_no_slash path "" eq_refl) as Hslash.
  split; [exact Hslash | ]. split; [exact (tokens_concat path "") | ].
  unfold EncodePath.
  replace (is_empty path) with false by (destruct path; [now elim Hne | reflexivity]).
  rewrite fold_encode_step.
  set (segments := filter (fun t => negb (is_empty t)) (getline_tokens path "")).
  assert (Hseg : forall t, In t segments ->
                           escape t <> "" /\ escape t <> "/").
  { intros t Hin. unfold segments in Hin. apply filter_In in Hin.
    destruct Hin as [Hin Ht]. apply Hesc.
    - destruct t; [discriminate | discriminate].
    - rewrite Forall_forall in Hslash. now apply Hslash. }
  rewrite join_nonempty
    by (intros x Hx; apply in_map_iff in Hx; destruct Hx as (t & <- & Ht);
        now apply Hseg).
  destruct segments as [ | s1 ss] eqn:E.
  - destruct (no_segment path "" E) as [_ [H | H]]; [now elim Hne | ].
    rewrite H. cbn. now rewrite andb_false_r.
  - destruct (Hseg s1 ltac:(now left)) as [H1 H2].
    assert (Hout : forall pre,
               (pre = "" \/ pre = "/") ->
               Str.eqb (pre ++ Stdlib.Strings.String.concat "/"
                                 (List.map escape (s1 :: ss))) "/" = false).
    { intros pre Hpre. unfold Str.eqb. apply Stdlib.Strings.String.eqb_neq.
      cbn [List.map]. rewrite concat_cons.
      destruct (escape s1) as [ | a e] eqn:Ee; [now elim H1 | ].
      destruct Hpre as [-> | ->]; cbn [append]; [ | discriminate].
      intros F. injection F as -> F.
      destruct e; [now elim H2 | discriminate]. }
    destruct (begins_with_slash path).
    + rewrite (Hout "/") by now right. rewrite andb_true_r.
      destruct (ends_with_slash path); [ | now rewrite append_nil_r].
      now rewrite append_assoc.
    + pose proof (Hout "" ltac:(now left)) as Ho. cbn [append] in Ho |- *.
      rewrite Ho, andb_true_r.
      destruct (ends_with_slash path); [reflexivity | now rewrite append_nil_r].
Qed.

Lemma EncodePath_spec_witness :
  EncodePath (fun t => t) "/a//b/" = Some "/a/b/".
Proof.
  destruct (EncodePath_spec (fun t => t) "/a//b/") as (_ & _ & H).
  - intros t Ht Hs. split; [exact Ht | ].
    intros ->. discriminate Hs.
  - discriminate.
  - exact H.
Defined.

End PathFacts.

(** ** The names of buckets *)

Module BucketFacts.
Import Str Utils Regex BucketName Planner StringFacts TrimFacts.
Local Open Scope string_scope.

Lemma is_empty_true (s : string) : is_empty s = true <-> s = "".
Proof. destruct s; cbn; split; intros H; try reflexivity; discriminate. Qed.

Lemma regex_match_iff (r : regex) (s : string) :
  regex_match s r = true <-> In "" (remainders r s).
Proof.
  unfold regex_match. rewrite existsb_exists. split.
  - intros (x & Hin & Hx). apply is_empty_true in Hx. now subst.
  - intros H. exists "". now split.
Qed.

Lemma remainders_class (p : ascii -> bool) (s t : string) :
  In t (remainders (Class p) s) <-> exists c, s = String c t /\ p c = true.
Proof.
  cbn [remainders]. destruct s as [ | c s'].
  - split; [intros [] | intros (c & F & _); discriminate].
  - destruct (p c) eqn:E.
    + split.
      * intros [<- | []]. now exists c.
      * intros (c' & F & _). injection F as -> ->. now left.
    + split; [intros [] | ].
      intros (c' & F & H). injection F as -> ->.
      rewrite E in H. discriminate.
Qed.

Lemma rep_class (p : ascii -> bool) (hi : nat) :
  forall lo s t,
    In t (rep (remainders (Class p)) lo hi s) <->
    exists u, s = u ++ t /\ (lo <= length u <= hi)%nat /\
              all_bytes p u = true.
Proof.
  induction hi as [ | hi IH]; intros lo s t; cbn [rep].
  - rewrite app_nil_r. split.
    + destruct (Nat.eqb_spec lo 0) as [-> | Hlo]; [ | intros []].
      intros [<- | []]. exists "". cbn. repeat split; lia.
    + intros (u & -> & Hlen & _). destruct u; [ | cbn in Hlen; lia].
      cbn in Hlen. replace lo with 0%nat by lia. now left.
  - rewrite in_app_iff, in_flat_map. split.
    + intros [H | (s' & Hs' & Hin)].
      * destruct (Nat.eqb_spec lo 0) as [-> | Hlo]; [ | destruct H].
        destruct H as [<- | []]. exists "". cbn. repeat split; lia.
      * apply remainders_class in Hs'. destruct Hs' as (c & -> & Hc).
        apply IH in Hin. destruct Hin as (u & -> & Hlen & Hu).
        exists (String c u). cbn. rewrite Hc, Hu. repeat split; lia.
    + intros (u & -> & Hlen & Hu). destruct u as [ | c u].
      * left. cbn in Hlen. replace lo with 0%nat by lia. now left.
      * right. cbn in Hu. apply andb_true_iff in Hu. destruct Hu as [Hc Hu].
        exists (u ++ t). split; [apply remainders_class; now exists c | ].
        apply IH. exists u. cbn in Hlen. repeat split; [lia | lia | exact Hu].
Qed.

Lemma star_class_sound (p : ascii -> bool) (n : nat) :
  forall s t,
    In t (star (remainders (Class p)) n s) ->
    exists u, s = u ++ t /\ all_bytes p u = true.
Proof.
  induction n as [ | n IH]; intros s t; cbn [star].
  - intros [<- | []]. now exists "".
  - intros [<- | H]; [now exists "" | ].
    apply in_flat_map in H. destruct H as (s' & Hs' & Hin).
    apply remainders_class in Hs'. destruct Hs' as (c & -> & Hc).
    apply IH in Hin. destruct Hin as (u & -> & Hu).
    exists (String c u). cbn. now rewrite Hc, Hu.
Qed.

Lemma star_class_complete (p : ascii -> bool) (t : string) (n : nat) :
  forall u,
    (length u <= n)%nat -> all_bytes p u = true ->
    In t (star (remainders (Class p)) n (u ++ t)).
Proof.
  induction n as [ | n IH]; intros u Hlen Hu.
  - destruct u; [now left | cbn in Hlen; lia].
  - destruct u as [ | c u]; [now left | ].
    cbn in Hu. apply andb_true_iff in Hu. destruct Hu as [Hc Hu].
    cbn [star]. right. apply in_flat_map. exists (u ++ t).
    split; [apply remainders_class; now exists c | ].
    apply IH; [cbn in Hlen; lia | exact Hu].
Qed.

Lemma plus_class (p : ascii -> bool) (s t : string) :
  In t (remainders (Plus (Class p)) s) <->
  exists u, u <> "" /\ s = u ++ t /\ all_bytes p u = true.
Proof.
  cbn [remainders]. fold (remainders (Class p)).
  rewrite in_flat_map. split.
  - intros (s' & Hs' & Hin).
    apply remainders_class in Hs'. destruct Hs' as (c & -> & Hc).
    apply star_class_sound in Hin. destruct Hin as (u & -> & Hu).
    exists (String c u). cbn. rewrite Hc, Hu. repeat split. discriminate.
  - intros (u & Hne & -> & Hu). destruct u as [ | c u]; [now elim Hne | ].
    cbn in Hu. apply andb_true_iff in Hu. destruct Hu as [Hc Hu].
    exists (u ++ t). split; [apply remainders_class; now exists c | ].
    apply star_class_complete; [ | exact Hu].
    cbn. rewrite length_append. lia.
Qed.

(** The two patterns for names. *)
Lemma name_pattern (edge inner : ascii -> bool) (s : string) :
  regex_match s
    (Seq (Class edge) (Seq (Rep (Class inner) 1 61) (Class edge))) = true
  <-> name_syntax edge inner s.
Proof.
  rewrite regex_match_iff.
  change (remainders (Seq (Class edge)
                        (Seq (Rep (Class inner) 1 61) (Class edge))) s)
    with (flat_map
            (fun s1 => flat_map (remainders (Class edge))
                         (rep (remainders (Class inner)) 1 61 s1))
            (remainders (Class edge) s)).
  rewrite in_flat_map. split.
  - intros (s1 & Hs1 & H). apply in_flat_map in H.
    destruct H as (s2 & Hs2 & H).
    apply remainders_class in Hs1. destruct Hs1 as (first & -> & Hf).
    apply rep_class in Hs2. destruct Hs2 as (middle & -> & Hlen & Hm).
    apply remainders_class in H. destruct H as (last & -> & Hl).
    now exists first, middle, last.
  - intros (first & middle & last & -> & Hf & Hm & Hl & Hlen).
    exists (middle ++ String last "").
    split; [apply remainders_class; now exists first | ].
    apply in_flat_map. exists (String last "").
    split; [apply rep_class; now exists middle | ].
    apply remainders_class. now exists last.
Qed.

Lemma rep_3 (step : string -> list string) (s t : string) :
  In t (rep step 3 3 s) <->
  exists s1 s2, In s1 (step s) /\ In s2 (step s1) /\ In t (step s2).
Proof.
  cbn [rep Nat.eqb pred app]. split.
  - intros H. apply in_flat_map in H. destruct H as (s1 & H1 & H).
    apply in_flat_map in H. destruct H as (s2 & H2 & H).
    apply in_flat_map in H. destruct H as (s3 & H3 & H).
    destruct H as [<- | []]. now exists s1, s2.
  - intros (s1 & s2 & H1 & H2 & H3).
    apply in_flat_map. exists s1. split; [exact H1 | ].
    apply in_flat_map. exists s2. split; [exact H2 | ].
    apply in_flat_map. exists t. split; [exact H3 | ]. now left.
Qed.

Lemma digits_dot (s t : string) :
  In t (remainders (Seq (Plus (Class digit)) (Class (Ascii.eqb "."))) s) <->
  exists a, digits a /\ s = a ++ "." ++ t.
Proof.
  change (remainders (Seq (Plus (Class digit)) (Class (Ascii.eqb "."))) s)
    with (flat_map (remainders (Class (Ascii.eqb ".")))
            (remainders (Plus (Class digit)) s)).
  rewrite in_flat_map. split.
  - intros (s1 & Hs1 & H). apply plus_class in Hs1.
    destruct Hs1 as (a & Hne & -> & Ha).
    apply remainders_class in H. destruct H as (c & -> & Hc).
    apply Ascii.eqb_eq in Hc. subst c. exists a. now repeat split.
  - intros (a & [Hne Ha] & ->). exists ("." ++ t).
    split; [apply plus_class; now exists a | ].
    apply remainders_class. now exists "."%char.
Qed.

(** The pattern for IP addresses. *)
Lemma ip_pattern (s : string) :
  regex_match s VALID_IP_ADDR_REGEX = true <-> ip_address s.
Proof.
  rewrite regex_match_iff.
  change (remainders VALID_IP_ADDR_REGEX s)
    with (flat_map (remainders (Plus (Class digit)))
            (rep (remainders
                    (Seq (Plus (Class digit)) (Class (Ascii.eqb "."))))
               3 3 s)).
  rewrite in_flat_map. split.
  - intros (t & Ht & H). apply rep_3 in Ht.
    destruct Ht as (s1 & s2 & H1 & H2 & H3).
    apply digits_dot in H1, H2, H3.
    destruct H1 as (a & Ha & ->). destruct H2 as (b & Hb & ->).
    destruct H3 as (c & Hc & ->).
    apply plus_class in H. destruct H as (d & Hne & -> & Hd).
    exists a, b, c, d. rewrite append_nil_r.
    split; [exact Ha | ]. split; [exact Hb | ]. split; [exact Hc | ].
    split; [now split | reflexivity].
  - intros (a & b & c & d & Ha & Hb & Hc & [Hne Hd] & ->).
    exists d. split.
    + apply rep_3. exists (b ++ "." ++ c ++ "." ++ d), (c ++ "." ++ d).
      repeat split; apply digits_dot; eauto.
    + apply plus_class. exists d. rewrite append_nil_r. now repeat split.
Qed.

Lemma c_str_id (s : string) : ContainsChar s zero = false -> c_str s = s.
Proof.
  induction s as [ | c s IH]; cbn; [reflexivity | ].
  intros H. apply orb_false_iff in H. destruct H as [Hc Hs].
  rewrite Hc. now rewrite IH.
Qed.

Lemma c_str_NUL (a b : string) :
  ContainsChar a zero = false -> c_str (a ++ String zero b) = a.
Proof.
  induction a as [ | c a IH]; cbn; [reflexivity | ].
  intros H. apply orb_false_iff in H. destruct H as [Hc Hs].
  rewrite Hc. now rewrite IH.
Qed.

Lemma Contains_false (str substr : string) :
  ContainsStr str substr = false <-> ~ occurs substr str.
Proof.
  unfold occurs. rewrite <- Contains_occurs.
  destruct (ContainsStr str substr); split; intros H;
    try reflexivity; try discriminate.
  now elim H.
Qed.

Lemma name_syntax_length (edge inner : ascii -> bool) (s : string) :
  name_syntax edge inner s -> (3 <= length s <= 63)%nat.
Proof.
  intros (first & middle & last & -> & _ & _ & _ & Hlen).
  cbn [length]. rewrite length_append. cbn [length]. lia.
Qed.

Lemma all_bytes_impl (p q : ascii -> bool) (s : string) :
  (forall c, p c = true -> q c = true) ->
  all_bytes p s = true -> all_bytes q s = true.
Proof.
  intros H. induction s as [ | c s IH]; cbn; [reflexivity | ].
  intros Hs. apply andb_true_iff in Hs. destruct Hs as [Hc Hs].
  now rewrite (H c Hc), IH.
Qed.

Lemma strict_syntax_lax (s : string) :
  name_syntax lower_digit strict_name_char s -> name_syntax alnum name_char s.
Proof.
  assert (E : forall c, lower_digit c = true -> alnum c = true).
  { intros c. unfold lower_digit, alnum. intros H.
    apply orb_true_iff in H. destruct H as [-> | ->];
      now rewrite ?orb_true_r. }
  assert (I : forall c, strict_name_char c = true -> name_char c = true).
  { intros c. unfold strict_name_char, name_char. intros H.
    apply orb_true_iff in H. destruct H as [H | ->];
      [ | now rewrite ?orb_true_r].
    apply orb_true_iff in H. destruct H as [H | ->];
      [ | now rewrite ?orb_true_r].
    now rewrite (E c H). }
  intros (first & middle & last & -> & Hf & Hm & Hl & Hlen).
  exists first, middle, last.
  repeat split; auto; try lia. now apply (all_bytes_impl strict_name_char).
Qed.

(** What [CheckBucketName] accepts, on a name without a NUL byte. *)
Lemma accepts_iff (default_ch : ascii) (name : string) (strict : bool) :
  ContainsChar name zero = false ->
  CheckBucketName default_ch name strict = SUCCESS <->
  (forall n, name <> repeat_char default_ch n) /\
  ~ ip_address name /\
  ~ occurs ".." name /\ ~ occurs ".-" name /\ ~ occurs "-." name /\
  (if strict then name_syntax lower_digit strict_name_char name
   else name_syntax alnum name_char name).
Proof.
  intros Hnul. unfold CheckBucketName. rewrite (c_str_id name Hnul).
  destruct (is_empty (Trim name default_ch)) eqn:E1.
  { split; [discriminate | ]. intros (H & _). exfalso.
    apply is_empty_true, Trim_empty_iff in E1. destruct E1 as [n E1].
    now apply (H n). }
  assert (H1 : forall n, name <> repeat_char default_ch n).
  { intros n E. assert (F : Trim name default_ch = "")
      by (apply Trim_empty_iff; now exists n).
    rewrite F in E1. discriminate. }
  destruct (Nat.ltb_spec (length name) 3) as [E2 | E2].
  { split; [discriminate | ]. intros (_ & _ & _ & _ & _ & H). exfalso.
    destruct strict; apply name_syntax_length in H; lia. }
  destruct (Nat.ltb_spec 63 (length name)) as [E3 | E3].
  { split; [discriminate | ]. intros (_ & _ & _ & _ & _ & H). exfalso.
    destruct strict; apply name_syntax_length in H; lia. }
  destruct (regex_match name VALID_IP_ADDR_REGEX) eqn:E4.
  { split; [discriminate | ]. intros (_ & H & _). exfalso.
    now apply H, ip_pattern. }
  assert (H4 : ~ ip_address name).
  { intros H. apply ip_pattern in H. rewrite H in E4. discriminate. }
  destruct (ContainsStr name ".." || ContainsStr name ".-"
            || ContainsStr name "-.") eqn:E5.
  { split; [discriminate | ]. intros (_ & _ & Ha & Hb & Hc & _). exfalso.
    apply Contains_false in Ha, Hb, Hc. rewrite Ha, Hb, Hc in E5.
    discriminate. }
  apply orb_false_iff in E5. destruct E5 as [E5 Ec].
  apply orb_false_iff in E5. destruct E5 as [Ea Eb].
  apply Contains_false in Ea, Eb, Ec.
  destruct strict.
  - destruct (regex_match name VALID_BUCKET_NAME_STRICT_REGEX) eqn:E6;
      cbn [negb].
    + split; [ | reflexivity]. intros _. repeat split; auto.
      now apply name_pattern.
    + split; [discriminate | ]. intros (_ & _ & _ & _ & _ & H).
      apply name_pattern in H. unfold VALID_BUCKET_NAME_STRICT_REGEX in E6.
      rewrite H in E6. discriminate.
  - destruct (regex_match name VALID_BUCKET_NAME_REGEX) eqn:E6; cbn [negb].
    + split; [ | reflexivity]. intros _. repeat split; auto.
      now apply name_pattern.
    + split; [discriminate | ]. intros (_ & _ & _ & _ & _ & H).
      apply name_pattern in H. unfold VALID_BUCKET_NAME_REGEX in E6.
      rewrite H in E6. discriminate.
Qed.

(** On a name without a NUL byte, [CheckBucketName] answers [SUCCESS]
    exactly when the name is not made of the byte [Trim] takes away
    only, is not four groups of digits with dots between them, has none
    of [..], [.-] and [-.], and has the syntax of the pattern: a first
    and a last character that are letters or digits and 1 to 61
    characters between them, so 3 to 63 in all.  A name accepted in the
    strict mode is accepted in the other. *)
Theorem CheckBucketName_accepts (default_ch : ascii) (name : string)
  (strict : bool) :
  ContainsChar name zero = false ->
  (CheckBucketName default_ch name strict = SUCCESS <->
   (forall n, name <> repeat_char default_ch n) /\
   ~ ip_address name /\
   ~ occurs ".." name /\ ~ occurs ".-" name /\ ~ occurs "-." name /\
   (if strict then name_syntax lower_digit strict_name_char name
    else name_syntax alnum name_char name)) /\
  (CheckBucketName default_ch name true = SUCCESS ->
   CheckBucketName default_ch name false = SUCCESS).
Proof.
  intros Hnul. split; [now apply accepts_iff | ].
  rewrite !accepts_iff by assumption.
  intros (H1 & H2 & H3 & H4 & H5 & H6).
  repeat split; auto. now apply strict_syntax_lax.
Qed.

Lemma CheckBucketName_accepts_witness :
  name_syntax lower_digit strict_name_char "my-bucket".
Proof.
  destruct (CheckBucketName_accepts " " "my-bucket" true eq_refl)
    as [[H _] _].
  now apply H.
Defined.

Lemma repeat_char_all (ch : ascii) (n : nat) :
  forall a c b, repeat_char ch n = a ++ String c b -> c = ch.
Proof.
  induction n as [ | n IH]; intros a c b H; cbn in H.
  - destruct a; discriminate.
  - destruct a as [ | x a]; cbn in H; injection H as E1 E2.
    + now symmetry.
    + now apply (IH a c b).
Qed.

Lemma Contains_pair_NUL (x y : ascii) (b : string) :
  x <> zero -> y <> zero ->
  forall a,
    ContainsStr (a ++ String zero b) (String x (String y ""))
    = ContainsStr a (String x (String y ""))
      || ContainsStr b (String x (String y "")).
Proof.
  intros Hx Hy.
  assert (Z : forall s, Str.eqb (substring 0 2 (String zero s))
                          (String x (String y "")) = false).
  { intros s. unfold Str.eqb. apply Stdlib.Strings.String.eqb_neq.
    cbn. destruct s; intros F; injection F as F _; now elim Hx. }
  induction a as [ | c a IH].
  - cbn [append ContainsStr length]. rewrite Z.
    cbn [orb substring]. reflexivity.
  - cbn [append ContainsStr length]. rewrite IH.
    destruct a as [ | c' a'].
    + cbn [append substring]. unfold Str.eqb.
      replace (substring 0 0 b) with "" by (destruct b; reflexivity).
      replace (Stdlib.Strings.String.eqb (String c (String zero ""))
                 (String x (String y ""))) with false.
      2:{ symmetry. apply Stdlib.Strings.String.eqb_neq.
          intros F. injection F as _ F. now elim Hy. }
      replace (Stdlib.Strings.String.eqb (String c "")
                 (String x (String y ""))) with false.
      2:{ symmetry. apply Stdlib.Strings.String.eqb_neq.
          intros F. discriminate. }
      reflexivity.
    + replace (substring 0 2 (String c (String c' a' ++ String zero b)))
        with (substring 0 2 (String c (String c' a')))
        by (destruct a'; reflexivity).
      now rewrite orb_assoc.
Qed.

(** [CheckBucketName] reads the name up to its first NUL byte when it
    looks at its syntax: a name that is accepted is still accepted with
    a NUL byte and any bytes after it, as long as the whole has at most
    63 bytes and the added bytes have none of [..], [.-] and [-.]. *)
Theorem CheckBucketName_stops_at_NUL (default_ch : ascii)
  (name junk : string) (strict : bool) :
  ContainsChar name zero = false ->
  CheckBucketName default_ch name strict = SUCCESS ->
  (length name + length junk < 63)%nat ->
  ContainsStr junk ".." = false ->
  ContainsStr junk ".-" = false ->
  ContainsStr junk "-." = false ->
  CheckBucketName default_ch (name ++ String zero junk) strict = SUCCESS.
Proof.
  intros Hnul H Hlen Ja Jb Jc.
  unfold CheckBucketName in H. rewrite (c_str_id name Hnul) in H.
  destruct (is_empty (Trim name default_ch)); [discriminate | ].
  destruct (Nat.ltb_spec (length name) 3) as [E2 | E2]; [discriminate | ].
  destruct (Nat.ltb_spec 63 (length name)) as [E3 | E3]; [discriminate | ].
  destruct (regex_match name VALID_IP_ADDR_REGEX) eqn:E4; [discriminate | ].
  destruct (ContainsStr name ".." || ContainsStr name ".-"
            || ContainsStr name "-.") eqn:E5; [discriminate | ].
  apply orb_false_iff in E5. destruct E5 as [E5 Ec].
  apply orb_false_iff in E5. destruct E5 as [Ea Eb].
  assert (Hfirst : exists first rest,
             name = String first rest /\ first <> zero).
  { destruct name as [ | first rest]; [cbn in E2; lia | ].
    exists first, rest. split; [reflexivity | ].
    cbn in Hnul. apply orb_false_iff in Hnul. destruct Hnul as [Hc _].
    now apply Ascii.eqb_neq. }
  unfold CheckBucketName. rewrite (c_str_NUL name junk Hnul), E4.
  destruct (is_empty (Trim (name ++ String zero junk) default_ch)) eqn:E1.
  { exfalso. apply is_empty_true, Trim_empty_iff in E1.
    destruct E1 as [n E1]. destruct Hfirst as (first & rest & -> & Hf).
    pose proof (repeat_char_all default_ch n "" first
                  (rest ++ String zero junk) (eq_sym E1)) as F1.
    pose proof (repeat_char_all default_ch n (String first rest) zero junk
                  (eq_sym E1)) as F2.
    apply Hf. congruence. }
  rewrite length_append. cbn [length].
  destruct (Nat.ltb_spec (length name + S (length junk)) 3) as [F2 | _];
    [lia | ].
  destruct (Nat.ltb_spec 63 (length name + S (length junk))) as [F3 | _];
    [lia | ].
  rewrite !Contains_pair_NUL by discriminate.
  rewrite Ea, Eb, Ec, Ja, Jb, Jc. cbn [orb]. exact H.
Qed.

Lemma CheckBucketName_stops_at_NUL_witness :
  CheckBucketName " " ("abc" ++ String zero "$$$") true = SUCCESS.
Proof.
  apply (CheckBucketName_stops_at_NUL " " "abc" "$$$" true);
    reflexivity || (cbn; lia).
Defined.

End BucketFacts.
